(** * Step Functions state graph: binding, reachability and rendering

    A shallow embedding of the [State] base class of the Step Functions
    construct library (the state-graph construction and compilation core)
    together with the module-level helpers it uses: [compareErrors],
    [validateErrors], [renderList], [renderJsonPath] and
    [_getActualQueryLanguage].

    Objects are modelled by reference: a [State] or a [StateGraph] is a
    natural number naming a cell of a heap, because the source compares
    them with [===] and mutates them in place. *)

From Stdlib Require Import ZArith Ascii.
From stdpp Require Import gmap strings list fin_maps.

(** ** Values *)

(** An arbitrary JSON value ([any] and [object] in the source). *)
#[warnings="-register-all"]
Inductive Json : Type :=
| JNull
| JBool (b : bool)
| JNum (z : Z)
| JStr (s : string)
| JArr (l : list Json)
| JObj (l : list (string * Json)).

(** Modelled from the spec: the enumeration [QueryLanguage] is declared in
    [../types], which is not among the sources.  The spec gives it two
    dialects, the path-based default and the expression-based one; the
    source names them [JSON_PATH] and [JSONATA]. *)
Inductive QueryLanguage : Type := JSON_PATH | JSONATA.

Global Instance QueryLanguage_eq_dec : EqDecision QueryLanguage.
Proof. solve_decision. Defined.

(** A [Duration] (declared in the core library) is used only through
    [toSeconds()]; it is represented by what that method returns. *)
Record Duration : Type := { toSeconds : Z }.

(** A [Condition] (declared in [../condition]) is used only through
    [renderCondition()], whose fields are spread into the rendered choice;
    it is represented by what that method returns. *)
Record Condition : Type := { renderCondition : list (string * Json) }.

(** Object identities. *)
Abbreviation StateRef := nat (only parsing).
Abbreviation GraphRef := nat (only parsing).

(** ** Errors

    Every [throw new UnscopedValidationError(...)] of the source, with the
    values its message interpolates.  The last two constructors belong to the
    embedding only: a reference that names no heap cell, and a recursion that
    was given too little fuel. *)
Inductive Error : Type :=
| EAlreadyInGraph (stateId : string) (graph containing : GraphRef)
| EAlreadyHasNext (id : string)
| EAlreadyHasDefault (id : string)
| EAllMustAppearAlone
| EQueryLanguageConflict (path : string)
| EJsonPathStart (jsonPath : string)
| EDangling (ref : nat)
| EOutOfFuel.

Inductive result (A : Type) : Type :=
| Ok (a : A)
| Throw (e : Error).
Arguments Ok {A} a.
Arguments Throw {A} e.

Definition rbind {A B} (r : result A) (k : A → result B) : result B :=
  match r with
  | Ok a => k a
  | Throw e => Throw e
  end.

(** [xs.map(f)] for an [f] that may throw: the first throw aborts the map. *)
Fixpoint mapR {A B} (f : A → result B) (xs : list A) : result (list B) :=
  match xs with
  | [] => Ok []
  | x :: xs' =>
      rbind (f x) (λ y, rbind (mapR f xs') (λ ys, Ok (y :: ys)))
  end.

(** ** Collaborators

    What the [State] class uses from modules that are not among the
    sources, taken as parameters: the wildcard matcher [Errors.ALL] of
    [../types], [Token.isUnresolved] of the core library and
    [FieldUtils.renderObject] of [../fields]. *)
Class Host : Type := {
  ALL : string;
  isUnresolved : string → bool;
  renderObject : option Json → option Json;
}.

(** ** Transition records and state properties *)

Record RetryProps : Type := {
  retry_errors : option (list string);
  retry_interval : option Duration;
  retry_maxAttempts : option Z;
  retry_backoffRate : option Z;
  retry_maxDelay : option Duration;
  retry_jitterStrategy : option string;
}.

Record CatchProps : Type := {
  catch_errors : option (list string);
  catch_resultPath : option string;
  catch_outputs : option Json;
  catch_assign : option Json;
}.

Record CatchTransition : Type := {
  catch_next : StateRef;
  catch_props : CatchProps;
}.

Record ChoiceTransitionOptions : Type := {
  choice_comment : option string;
  choice_outputs : option Json;
  choice_assign : option Json;
}.

Record ChoiceTransition : Type := {
  choice_condition : Condition;
  choice_next : StateRef;
  choice_options : ChoiceTransitionOptions;
}.

Record StateProps : Type := {
  stateName : option string;
  queryLanguage : option QueryLanguage;
  comment : option string;
  inputPath : option string;
  parameters : option Json;
  outputPath : option string;
  resultPath : option string;
  resultSelector : option Json;
  outputs : option Json;
  arguments : option Json;
  assign : option Json;
}.

(** The fields of a [State] object.  [node_id] and [node_path] are
    [this.node.id] and [this.node.path]; [props] holds the read-only fields
    the constructor copies from its [props] argument. *)
Record State : Type := {
  node_id : string;
  node_path : string;
  props : StateProps;
  branches : list GraphRef;
  iteration : option GraphRef;
  processor : option GraphRef;
  defaultChoice : option StateRef;
  _next : option StateRef;
  retries : list RetryProps;
  catches : list CatchTransition;
  choices : list ChoiceTransition;
  prefixes : list string;
  containingGraph : option GraphRef;
  incomingStates : list StateRef;
}.

(** The state a constructor call leaves behind. *)
Definition newState (id path : string) (p : StateProps) : State :=
  {| node_id := id; node_path := path; props := p;
     branches := []; iteration := None; processor := None;
     defaultChoice := None; _next := None;
     retries := []; catches := []; choices := []; prefixes := [];
     containingGraph := None; incomingStates := [] |}.

Definition noProps : StateProps :=
  {| stateName := None; queryLanguage := None; comment := None;
     inputPath := None; parameters := None; outputPath := None;
     resultPath := None; resultSelector := None; outputs := None;
     arguments := None; assign := None |}.

(** Field assignments. *)
Definition set_branches (v : list GraphRef) (s : State) : State :=
  {| node_id := node_id s; node_path := node_path s; props := props s;
     branches := v; iteration := iteration s; processor := processor s;
     defaultChoice := defaultChoice s; _next := _next s;
     retries := retries s; catches := catches s; choices := choices s;
     prefixes := prefixes s; containingGraph := containingGraph s;
     incomingStates := incomingStates s |}.

Definition set_iteration (v : option GraphRef) (s : State) : State :=
  {| node_id := node_id s; node_path := node_path s; props := props s;
     branches := branches s; iteration := v; processor := processor s;
     defaultChoice := defaultChoice s; _next := _next s;
     retries := retries s; catches := catches s; choices := choices s;
     prefixes := prefixes s; containingGraph := containingGraph s;
     incomingStates := incomingStates s |}.

Definition set_processor (v : option GraphRef) (s : State) : State :=
  {| node_id := node_id s; node_path := node_path s; props := props s;
     branches := branches s; iteration := iteration s; processor := v;
     defaultChoice := defaultChoice s; _next := _next s;
     retries := retries s; catches := catches s; choices := choices s;
     prefixes := prefixes s; containingGraph := containingGraph s;
     incomingStates := incomingStates s |}.

Definition set_defaultChoice (v : option StateRef) (s : State) : State :=
  {| node_id := node_id s; node_path := node_path s; props := props s;
     branches := branches s; iteration := iteration s; processor := processor s;
     defaultChoice := v; _next := _next s;
     retries := retries s; catches := catches s; choices := choices s;
     prefixes := prefixes s; containingGraph := containingGraph s;
     incomingStates := incomingStates s |}.

Definition set_next (v : option StateRef) (s : State) : State :=
  {| node_id := node_id s; node_path := node_path s; props := props s;
     branches := branches s; iteration := iteration s; processor := processor s;
     defaultChoice := defaultChoice s; _next := v;
     retries := retries s; catches := catches s; choices := choices s;
     prefixes := prefixes s; containingGraph := containingGraph s;
     incomingStates := incomingStates s |}.

Definition set_retries (v : list RetryProps) (s : State) : State :=
  {| node_id := node_id s; node_path := node_path s; props := props s;
     branches := branches s; iteration := iteration s; processor := processor s;
     defaultChoice := defaultChoice s; _next := _next s;
     retries := v; catches := catches s; choices := choices s;
     prefixes := prefixes s; containingGraph := containingGraph s;
     incomingStates := incomingStates s |}.

Definition set_catches (v : list CatchTransition) (s : State) : State :=
  {| node_id := node_id s; node_path := node_path s; props := props s;
     branches := branches s; iteration := iteration s; processor := processor s;
     defaultChoice := defaultChoice s; _next := _next s;
     retries := retries s; catches := v; choices := choices s;
     prefixes := prefixes s; containingGraph := containingGraph s;
     incomingStates := incomingStates s |}.

Definition set_choices (v : list ChoiceTransition) (s : State) : State :=
  {| node_id := node_id s; node_path := node_path s; props := props s;
     branches := branches s; iteration := iteration s; processor := processor s;
     defaultChoice := defaultChoice s; _next := _next s;
     retries := retries s; catches := catches s; choices := v;
     prefixes := prefixes s; containingGraph := containingGraph s;
     incomingStates := incomingStates s |}.

Definition set_prefixes (v : list string) (s : State) : State :=
  {| node_id := node_id s; node_path := node_path s; props := props s;
     branches := branches s; iteration := iteration s; processor := processor s;
     defaultChoice := defaultChoice s; _next := _next s;
     retries := retries s; catches := catches s; choices := choices s;
     prefixes := v; containingGraph := containingGraph s;
     incomingStates := incomingStates s |}.

Definition set_containingGraph (v : option GraphRef) (s : State) : State :=
  {| node_id := node_id s; node_path := node_path s; props := props s;
     branches := branches s; iteration := iteration s; processor := processor s;
     defaultChoice := defaultChoice s; _next := _next s;
     retries := retries s; catches := catches s; choices := choices s;
     prefixes := prefixes s; containingGraph := v;
     incomingStates := incomingStates s |}.

Definition set_incomingStates (v : list StateRef) (s : State) : State :=
  {| node_id := node_id s; node_path := node_path s; props := props s;
     branches := branches s; iteration := iteration s; processor := processor s;
     defaultChoice := defaultChoice s; _next := _next s;
     retries := retries s; catches := catches s; choices := choices s;
     prefixes := prefixes s; containingGraph := containingGraph s;
     incomingStates := v |}.

(** ** Identifiers and prefixes *)

(** [this.prefixes.concat(this.stateName ? this.stateName : this.id).join('')].
    The conditional tests truthiness, so an empty [stateName] selects the
    construct id. *)
Definition stateId (s : State) : string :=
  String.concat ""
    (prefixes s ++
     [match stateName (props s) with
      | Some (String c r) => String c r
      | _ => node_id s
      end]).

(** [addPrefix(x)]: [splice(0, 0, x)] inserts at the front. *)
Definition addPrefix (x : string) (s : State) : State :=
  if decide (x = "") then s else set_prefixes (x :: prefixes s) s.

(** ** Query language *)

Definition _getActualQueryLanguage
    (topLevelQueryLanguage stateLevelQueryLanguage : option QueryLanguage)
    : QueryLanguage :=
  match stateLevelQueryLanguage with
  | Some q => q
  | None =>
      match topLevelQueryLanguage with
      | Some q => q
      | None => JSON_PATH
      end
  end.

(** The object [{ QueryLanguage: ... }]. *)
Record QueryLanguageJson : Type := { QueryLanguage_field : option QueryLanguage }.

Definition renderQueryLanguage
    (topLevelQueryLanguage : option QueryLanguage) (s : State)
    : result QueryLanguageJson :=
  let topLevelQueryLanguage := default JSON_PATH topLevelQueryLanguage in
  if bool_decide (topLevelQueryLanguage = JSONATA)
     && bool_decide (queryLanguage (props s) = Some JSON_PATH)
  then Throw (EQueryLanguageConflict (node_path s))
  else
    let queryLanguage :=
      if bool_decide (topLevelQueryLanguage = JSON_PATH)
         && bool_decide (queryLanguage (props s) = Some JSONATA)
      then Some JSONATA else None in
    Ok {| QueryLanguage_field := queryLanguage |}.

(** ** Sorting

    [xs.sort(sortFn)] is [Array.prototype.sort] of the JavaScript engine,
    which is not part of the sources.  The engine's sort is stable, works in
    place, and reads the comparator through one test only,
    [sortFn(x, y) < 0], for "[x] goes in front of [y]"; a result that is zero
    or positive leaves [x] behind [y].  It is embedded as stable insertion on
    that test: the elements are taken in array order, and each one is put
    into the sorted part in front of the first element it compares below,
    behind all the others.  Where the test is a strict weak order, as the
    one of [compareErrors] is, a stable sort has one possible result
    ([stable_order_unique] below), whatever way the engine takes to it. *)
Fixpoint sort_insert {T} (sortFn : T → T → Z) (x : T) (sorted : list T) : list T :=
  match sorted with
  | [] => [x]
  | y :: ys =>
      if (sortFn x y <? 0)%Z then x :: sorted
      else y :: sort_insert sortFn x ys
  end.

Definition Array_sort {T} (sortFn : T → T → Z) (xs : list T) : list T :=
  foldl (λ sorted x, sort_insert sortFn x sorted) [] xs.

(** [renderList(xs, mapFn, sortFn?)].  The first component is [xs] after the
    call ([sort] reorders it in place), the second the returned value, where
    [None] is [undefined]. *)
Definition renderList {T J} (xs : list T) (mapFn : T → result J)
    (sortFn : option (T → T → Z)) : list T * result (option (list J)) :=
  match xs with
  | [] => (xs, Ok None)
  | _ =>
      let list :=
        match sortFn with
        | Some f => Array_sort f xs
        | None => xs
        end in
      (list, rbind (mapR mapFn list) (λ l, Ok (Some l)))
  end.

Section Rendering.
Context {host : Host}.

(** ** Error matchers *)

(** [errors?.includes(Errors.ALL)]; [undefined] is falsy. *)
Definition includesALL (errors : option (list string)) : bool :=
  match errors with
  | Some l => bool_decide (ALL ∈ l)
  | None => false
  end.

Definition compareErrors (a b : option (list string)) : Z :=
  if includesALL a then 1%Z
  else if includesALL b then (-1)%Z
  else 0%Z.

Definition validateErrors (errors : option (list string)) : result unit :=
  match errors with
  | Some l =>
      if includesALL errors && bool_decide (1 < length l)
      then Throw EAllMustAppearAlone
      else Ok tt
  | None => Ok tt
  end.

(** ** JSON paths *)

(** [jsonPath.startsWith('$')]. *)
Definition startsWithDollar (jsonPath : string) : bool :=
  match jsonPath with
  | String c _ => bool_decide (c = "$"%char)
  | EmptyString => false
  end.

Definition renderJsonPath (jsonPath : option string) : result (option string) :=
  match jsonPath with
  | None => Ok None
  | Some p =>
      if negb (isUnresolved p) && negb (startsWithDollar p)
      then Throw (EJsonPathStart p)
      else Ok (Some p)
  end.

(** ** Retry and catch rendering *)

Record RetryJson : Type := {
  Retry_ErrorEquals : option (list string);
  Retry_IntervalSeconds : option Z;
  Retry_MaxAttempts : option Z;
  Retry_BackoffRate : option Z;
  Retry_MaxDelaySeconds : option Z;
  Retry_JitterStrategy : option string;
}.

Definition renderRetry (retry : RetryProps) : RetryJson :=
  {| Retry_ErrorEquals := retry_errors retry;
     Retry_IntervalSeconds := toSeconds <$> retry_interval retry;
     Retry_MaxAttempts := retry_maxAttempts retry;
     Retry_BackoffRate := retry_backoffRate retry;
     Retry_MaxDelaySeconds := toSeconds <$> retry_maxDelay retry;
     Retry_JitterStrategy := retry_jitterStrategy retry |}.

Record CatchJson : Type := {
  Catch_Output : option Json;
  Catch_Assign : option Json;
  Catch_ErrorEquals : option (list string);
  Catch_ResultPath : option string;
  Catch_Next : string;
}.

End Rendering.

(** ** The heap *)

(** Modelled from the spec: the class [StateGraph] of [../state-graph] is
    not among the sources.  The spec gives a graph the set of states bound
    to it and a reference to at most one super-graph; [registerState] puts a
    state into the member set and [registerSuperGraph] records the enclosing
    graph. *)
Record StateGraph : Type := {
  allStates : list StateRef;
  superGraph : option GraphRef;
}.

Definition emptyGraph : StateGraph := {| allStates := []; superGraph := None |}.

Record Heap : Type := {
  states : gmap nat State;
  graphs : gmap nat StateGraph;
}.

Definition set_states (v : gmap nat State) (h : Heap) : Heap :=
  {| states := v; graphs := graphs h |}.

Definition set_graphs (v : gmap nat StateGraph) (h : Heap) : Heap :=
  {| states := states h; graphs := v |}.

(** A JavaScript [Set] keeps insertion order and ignores a second [add]. *)
Definition Set_add (x : nat) (s : list nat) : list nat :=
  if bool_decide (x ∈ s) then s else s ++ [x].

(** A graph that was never written to is the empty graph. *)
Definition getGraph (g : GraphRef) (h : Heap) : StateGraph :=
  default emptyGraph (graphs h !! g).

(** Modelled from the spec: [graph.registerState(state)], absent from the
    sources, adds the state to the member set of the graph. *)
Definition registerState (graph : GraphRef) (state : StateRef) (h : Heap) : Heap :=
  let g := getGraph graph h in
  set_graphs
    (<[graph := {| allStates := Set_add state (allStates g);
                   superGraph := superGraph g |}]> (graphs h)) h.

(** Modelled from the spec: [sub.registerSuperGraph(graph)], absent from the
    sources, records [graph] as the super-graph of [sub]. *)
Definition registerSuperGraph (sub : GraphRef) (graph : GraphRef) (h : Heap) : Heap :=
  let g := getGraph sub h in
  set_graphs
    (<[sub := {| allStates := allStates g; superGraph := Some graph |}]> (graphs h)) h.

(** Computations on the heap that may throw.  A throw keeps the heap as
    it was when the exception was raised: assignments made before it
    persist. *)
Definition HeapM (A : Type) : Type := Heap → Heap * result A.

Definition ret {A} (a : A) : HeapM A := λ h, (h, Ok a).
Definition throw {A} (e : Error) : HeapM A := λ h, (h, Throw e).
Definition hbind {A B} (k : A → HeapM B) (m : HeapM A) : HeapM B :=
  λ h, match m h with
       | (h', Ok a) => k a h'
       | (h', Throw e) => (h', Throw e)
       end.

Global Instance HeapM_bind : MBind HeapM := @hbind.

Definition getState (this : StateRef) : HeapM State :=
  λ h, match states h !! this with
       | Some s => (h, Ok s)
       | None => (h, Throw (EDangling this))
       end.

Definition modifyState (this : StateRef) (f : State → State) : HeapM unit :=
  λ h, match states h !! this with
       | Some s => (set_states (<[this := f s]> (states h)) h, Ok tt)
       | None => (h, Throw (EDangling this))
       end.

Definition liftHeap (f : Heap → Heap) : HeapM unit := λ h, (f h, Ok tt).

Definition liftResult {A} (r : result A) : HeapM A := λ h, (h, r).

(** [for (const x of xs) { f(x) }]. *)
Fixpoint forEach {A} (xs : list A) (f : A → HeapM unit) : HeapM unit :=
  match xs with
  | [] => ret tt
  | x :: xs' => f x ;; forEach xs' f
  end.

(** ** Transitions *)

Record FindStateOptions : Type := { includeErrorHandlers : option bool }.

Definition defaultFindStateOptions : FindStateOptions :=
  {| includeErrorHandlers := None |}.

(** [if (options.includeErrorHandlers)]: [undefined] is falsy. *)
Definition followsErrorHandlers (options : FindStateOptions) : bool :=
  default false (includeErrorHandlers options).

Definition outgoingTransitions (options : FindStateOptions) (s : State) : list StateRef :=
  option_list (_next s) ++
  option_list (defaultChoice s) ++
  map choice_next (choices s) ++
  (if followsErrorHandlers options then map catch_next (catches s) else []).

Definition addIncoming (source : StateRef) (s : State) : State :=
  set_incomingStates (incomingStates s ++ [source]) s.

(** [whenBoundToGraph], as the base class defines it. *)
Definition whenBoundToGraph (this : StateRef) (graph : GraphRef) : HeapM unit :=
  liftHeap (registerState graph this).

(** ** Binding

    [bindToGraph] assigns [containingGraph] and nothing else on a state, so
    the lists it walks afterwards ([incomingStates], the outgoing
    transitions, [branches]) and the [iteration] and [processor] fields are
    those the state has when the call starts.  The recursion is bounded by
    [fuel]; a nested call that needs more raises [EOutOfFuel]. *)
Fixpoint bindToGraph (fuel : nat) (this : StateRef) (graph : GraphRef) : HeapM unit :=
  s ← getState this;
  match containingGraph s with
  | Some g =>
      if decide (g = graph) then ret tt
      else throw (EAlreadyInGraph (stateId s) graph g)
  | None =>
      match fuel with
      | O => throw EOutOfFuel
      | S fuel' =>
          modifyState this (set_containingGraph (Some graph)) ;;
          whenBoundToGraph this graph ;;
          forEach (incomingStates s)
            (λ incoming, bindToGraph fuel' incoming graph) ;;
          forEach (outgoingTransitions {| includeErrorHandlers := Some true |} s)
            (λ outgoing, bindToGraph fuel' outgoing graph) ;;
          forEach (branches s)
            (λ branch, liftHeap (registerSuperGraph branch graph)) ;;
          match iteration s with
          | Some it => liftHeap (registerSuperGraph it graph)
          | None => ret tt
          end ;;
          match processor s with
          | Some p => liftHeap (registerSuperGraph p graph)
          | None => ret tt
          end
      end
  end.

(** ** Declaring transitions *)

Section Declaring.
Context {host : Host}.

Definition _addRetry (this : StateRef) (props : RetryProps) : HeapM unit :=
  liftResult (validateErrors (retry_errors props)) ;;
  modifyState this (λ s,
    set_retries
      (retries s ++
       [{| retry_errors := Some (default [ALL] (retry_errors props));
           retry_interval := retry_interval props;
           retry_maxAttempts := retry_maxAttempts props;
           retry_backoffRate := retry_backoffRate props;
           retry_maxDelay := retry_maxDelay props;
           retry_jitterStrategy := retry_jitterStrategy props |}]) s).

Definition _addCatch (fuel : nat) (this : StateRef) (handler : StateRef)
    (props : CatchProps) : HeapM unit :=
  liftResult (validateErrors (catch_errors props)) ;;
  modifyState this (λ s,
    set_catches
      (catches s ++
       [{| catch_next := handler;
           catch_props :=
             {| catch_errors := Some (default [ALL] (catch_errors props));
                catch_resultPath := catch_resultPath props;
                catch_outputs := catch_outputs props;
                catch_assign := catch_assign props |} |}]) s) ;;
  modifyState handler (addIncoming this) ;;
  s ← getState this;
  match containingGraph s with
  | Some g => bindToGraph fuel handler g
  | None => ret tt
  end.

End Declaring.

Definition makeNext (fuel : nat) (this : StateRef) (next : StateRef) : HeapM unit :=
  s ← getState this;
  match _next s with
  | Some _ => throw (EAlreadyHasNext (node_id s))
  | None =>
      modifyState this (set_next (Some next)) ;;
      modifyState next (addIncoming this) ;;
      s ← getState this;
      match containingGraph s with
      | Some g => bindToGraph fuel next g
      | None => ret tt
      end
  end.

(** [next.startState] is [next] itself: the constructor sets
    [this.startState = this]. *)
Definition addChoice (fuel : nat) (this : StateRef) (condition : Condition)
    (next : StateRef) (options : ChoiceTransitionOptions) : HeapM unit :=
  modifyState this (λ s,
    set_choices
      (choices s ++
       [{| choice_condition := condition; choice_next := next;
           choice_options := options |}]) s) ;;
  modifyState next (addIncoming this) ;;
  s ← getState this;
  match containingGraph s with
  | Some g => bindToGraph fuel next g
  | None => ret tt
  end.

Definition makeDefault (this : StateRef) (def : StateRef) : HeapM unit :=
  s ← getState this;
  match defaultChoice s with
  | Some _ => throw (EAlreadyHasDefault (node_id s))
  | None => modifyState this (set_defaultChoice (Some def))
  end.

Definition addBranch (this : StateRef) (branch : GraphRef) : HeapM unit :=
  modifyState this (λ s, set_branches (branches s ++ [branch]) s) ;;
  s ← getState this;
  match containingGraph s with
  | Some g => liftHeap (registerSuperGraph branch g)
  | None => ret tt
  end.

Definition addIterator (this : StateRef) (iteration : GraphRef) : HeapM unit :=
  modifyState this (set_iteration (Some iteration)) ;;
  s ← getState this;
  match containingGraph s with
  | Some g => liftHeap (registerSuperGraph iteration g)
  | None => ret tt
  end.

(** [addItemProcessor(processor, config)]; the configuration is read by
    [renderProcessorConfig] only, which is not embedded. *)
Definition addItemProcessor (this : StateRef) (processor : GraphRef) : HeapM unit :=
  modifyState this (set_processor (Some processor)) ;;
  s ← getState this;
  match containingGraph s with
  | Some g => liftHeap (registerSuperGraph processor g)
  | None => ret tt
  end.

(** ** Rendering retries and catches *)

Section RenderingTransitions.
Context {host : Host}.

(** [renderCatch(c, queryLanguage)]; [c.next.stateId] reads the target
    state from the heap. *)
Definition renderCatch (h : Heap) (queryLanguage : QueryLanguage)
    (c : CatchTransition) : result CatchJson :=
  let optionsByLanguage :=
    if decide (queryLanguage = JSONATA)
    then (catch_outputs (catch_props c), catch_assign (catch_props c))
    else (None, renderObject (catch_assign (catch_props c))) in
  rbind (renderJsonPath (catch_resultPath (catch_props c))) (λ resultPath,
    match states h !! catch_next c with
    | None => Throw (EDangling (catch_next c))
    | Some target =>
        Ok {| Catch_Output := optionsByLanguage.1;
              Catch_Assign := optionsByLanguage.2;
              Catch_ErrorEquals := catch_errors (catch_props c);
              Catch_ResultPath := resultPath;
              Catch_Next := stateId target |}
    end).

(** The object [{ Retry: ..., Catch: ... }]; [None] is [undefined]. *)
Record RetryCatchJson : Type := {
  Retry : option (list RetryJson);
  Catch : option (list CatchJson);
}.

(** [renderRetryCatch(topLevelQueryLanguage)].  [renderList] sorts
    [this.retries] and [this.catches] in place, so both lists are written
    back; what [renderCatch] reads from the heap (the identifier of the
    target) does not depend on their order. *)
Definition renderRetryCatch (topLevelQueryLanguage : option QueryLanguage)
    (this : StateRef) : HeapM RetryCatchJson :=
  s ← getState this;
  let queryLanguage :=
    _getActualQueryLanguage topLevelQueryLanguage (queryLanguage (props s)) in
  let r := renderList (retries s) (λ x, Ok (renderRetry x))
             (Some (λ a b, compareErrors (retry_errors a) (retry_errors b))) in
  modifyState this (set_retries r.1) ;;
  retry ← liftResult r.2;
  h ← (λ h, (h, Ok h));
  let c := renderList (catches s) (renderCatch h queryLanguage)
             (Some (λ a b, compareErrors (catch_errors (catch_props a))
                                         (catch_errors (catch_props b)))) in
  modifyState this (set_catches c.1) ;;
  catch ← liftResult c.2;
  ret {| Retry := retry; Catch := catch |}.

End RenderingTransitions.

(** ** Reachability *)

(** The loop of [findReachableStates]: [queue.splice(0, 1)[0]] takes the
    head of the queue, [queue.push(...outgoing)] appends.  One unit of fuel
    is spent per iteration. *)
Fixpoint findReachableStates_loop (fuel : nat) (h : Heap)
    (options : FindStateOptions) (queue visited ret : list StateRef)
    : result (list StateRef) :=
  match queue with
  | [] => Ok ret
  | state :: queue =>
      match fuel with
      | O => Throw EOutOfFuel
      | S fuel' =>
          if bool_decide (state ∈ visited)
          then findReachableStates_loop fuel' h options queue visited ret
          else
            match states h !! state with
            | None => Throw (EDangling state)
            | Some s =>
                let outgoing := outgoingTransitions options s in
                findReachableStates_loop fuel' h options (queue ++ outgoing)
                  (Set_add state visited) (Set_add state ret)
            end
      end
  end.

Definition findReachableStates (fuel : nat) (h : Heap) (start : StateRef)
    (options : FindStateOptions) : result (list StateRef) :=
  findReachableStates_loop fuel h options [start] [] [].

Fixpoint findReachableEndStates_loop (fuel : nat) (h : Heap)
    (options : FindStateOptions) (queue visited ret : list StateRef)
    : result (list StateRef) :=
  match queue with
  | [] => Ok ret
  | state :: queue =>
      match fuel with
      | O => Throw EOutOfFuel
      | S fuel' =>
          if bool_decide (state ∈ visited)
          then findReachableEndStates_loop fuel' h options queue visited ret
          else
            match states h !! state with
            | None => Throw (EDangling state)
            | Some s =>
                let outgoing := outgoingTransitions options s in
                if bool_decide (0 < length outgoing)
                then findReachableEndStates_loop fuel' h options
                       (queue ++ outgoing) (Set_add state visited) ret
                else findReachableEndStates_loop fuel' h options
                       queue (Set_add state visited) (Set_add state ret)
            end
      end
  end.

Definition findReachableEndStates (fuel : nat) (h : Heap) (start : StateRef)
    (options : FindStateOptions) : result (list StateRef) :=
  findReachableEndStates_loop fuel h options [start] [] [].

(** ** Rendering the default transition, the choices and the paths *)

(** The object [{ Next: ... }] or [{ End: true }]; [None] is an absent
    key. *)
Record NextEndJson : Type := {
  NextEnd_Next : option string;
  NextEnd_End : option bool;
}.

(** [renderNextEnd()]; [this._next.stateId] reads the target from the
    heap. *)
Definition renderNextEnd (h : Heap) (s : State) : result NextEndJson :=
  match _next s with
  | Some next =>
      match states h !! next with
      | Some target =>
          Ok {| NextEnd_Next := Some (stateId target); NextEnd_End := None |}
      | None => Throw (EDangling next)
      end
  | None => Ok {| NextEnd_Next := None; NextEnd_End := Some true |}
  end.

(** A rendered choice.  The object literal spreads the fields of the
    rendered condition first and writes the other keys after them, so
    [Choice_Condition] holds the condition as rendered and the remaining
    fields the keys written over it. *)
Record ChoiceJson : Type := {
  Choice_Condition : list (string * Json);
  Choice_Output : option Json;
  Choice_Assign : option Json;
  Choice_Next : string;
  Choice_Comment : option string;
}.

(** The object [{ Choices: ..., Default: ... }]. *)
Record ChoicesJson : Type := {
  Choices : option (list ChoiceJson);
  Default : option string;
}.

(** The object [renderInputOutput] returns. *)
Record InputOutputJson : Type := {
  IO_InputPath : option string;
  IO_Parameters : option Json;
  IO_OutputPath : option string;
  IO_Arguments : option Json;
  IO_Output : option Json;
}.

Section RenderingFields.
Context {host : Host}.

(** [renderChoice(c, queryLanguage)]. *)
Definition renderChoice (h : Heap) (queryLanguage : QueryLanguage)
    (c : ChoiceTransition) : result ChoiceJson :=
  let optionsByLanguage :=
    if decide (queryLanguage = JSONATA)
    then (choice_outputs (choice_options c), choice_assign (choice_options c))
    else (None, renderObject (choice_assign (choice_options c))) in
  match states h !! choice_next c with
  | None => Throw (EDangling (choice_next c))
  | Some target =>
      Ok {| Choice_Condition := renderCondition (choice_condition c);
            Choice_Output := optionsByLanguage.1;
            Choice_Assign := optionsByLanguage.2;
            Choice_Next := stateId target;
            Choice_Comment := choice_comment (choice_options c) |}
  end.

(** [renderChoices(topLevelQueryLanguage)]: [renderList] is called without
    a comparator, so [this.choices] is left as it is. *)
Definition renderChoices (topLevelQueryLanguage : option QueryLanguage)
    (h : Heap) (s : State) : result ChoicesJson :=
  let queryLanguage :=
    _getActualQueryLanguage topLevelQueryLanguage (queryLanguage (props s)) in
  rbind (renderList (choices s) (renderChoice h queryLanguage) None).2 (λ cs,
    match defaultChoice s with
    | None => Ok {| Choices := cs; Default := None |}
    | Some def =>
        match states h !! def with
        | Some target => Ok {| Choices := cs; Default := Some (stateId target) |}
        | None => Throw (EDangling def)
        end
    end).

(** [renderInputOutput()]. *)
Definition renderInputOutput (s : State) : result InputOutputJson :=
  rbind (renderJsonPath (inputPath (props s))) (λ input,
  rbind (renderJsonPath (outputPath (props s))) (λ output,
    Ok {| IO_InputPath := input;
          IO_Parameters := parameters (props s);
          IO_OutputPath := output;
          IO_Arguments := arguments (props s);
          IO_Output := outputs (props s) |})).

(** [renderAssign(topLevelQueryLanguage)], the value of the [Assign] key. *)
Definition renderAssign (topLevelQueryLanguage : option QueryLanguage)
    (s : State) : option Json :=
  if decide (_getActualQueryLanguage topLevelQueryLanguage
               (queryLanguage (props s)) = JSON_PATH)
  then renderObject (assign (props s))
  else assign (props s).

End RenderingFields.

(** ** Prefixing a construct tree *)

(** A construct as [prefixStates] sees it: [self] is the state the construct
    is, if it is one ([isPrefixable] asks for an [addPrefix] method, which
    only [State] declares), and [children] is [Node.of(el).children]. *)
#[warnings="-register-all"]
Inductive Construct : Type :=
| MkConstruct (self : option StateRef) (children : list Construct).

Definition constructSelf (c : Construct) : option StateRef :=
  match c with MkConstruct self _ => self end.

Definition constructChildren (c : Construct) : list Construct :=
  match c with MkConstruct _ children => children end.

(** The loop of [prefixStates]; one unit of fuel is spent per construct
    taken from the queue. *)
Fixpoint prefixStates_loop (fuel : nat) (queue : list Construct)
    (prefix : string) : HeapM unit :=
  match queue with
  | [] => ret tt
  | el :: queue =>
      match fuel with
      | O => throw EOutOfFuel
      | S fuel' =>
          match constructSelf el with
          | Some this => modifyState this (addPrefix prefix)
          | None => ret tt
          end ;;
          prefixStates_loop fuel' (queue ++ constructChildren el) prefix
      end
  end.

Definition prefixStates (fuel : nat) (root : Construct) (prefix : string)
    : HeapM unit :=
  prefixStates_loop fuel [root] prefix.

(** ** The Batch job task: tags and container overrides

    From [BatchSubmitJob] in [aws-stepfunctions-tasks/lib/batch/submit-job.ts],
    a subclass of the task state. *)

(** The [ValidationError]s of [validateTags], with the number each message
    reports. *)
Inductive TagError : Type :=
| ETagEntries (received : nat)
| ETagKeySize (size : nat)
| ETagValueSize (size : nat).

(** The loop over [tagEntries].  The [length] of a string is the number of
    its code units; a character of a Rocq string stands for one unit. *)
Fixpoint validateTagEntries (tagEntries : list (string * string)) : option TagError :=
  match tagEntries with
  | [] => None
  | (key, value) :: rest =>
      if (String.length key <? 1) || (128 <? String.length key)
      then Some (ETagKeySize (String.length key))
      else if 256 <? String.length value
      then Some (ETagValueSize (String.length value))
      else validateTagEntries rest
  end.

(** [validateTags(tags)]: [None] when the method returns, [Some e] when it
    throws.  The tags object is given by [Object.entries(tags)]. *)
Definition validateTags (tags : option (list (string * string))) : option TagError :=
  match tags with
  | None => None
  | Some tagEntries =>
      if 50 <? length tagEntries
      then Some (ETagEntries (length tagEntries))
      else validateTagEntries tagEntries
  end.

(** Numbers of the host: [numberTruthy] is the truth value of a number in a
    condition (false for zero and NaN), [numberToString] its conversion in a
    template literal. *)
Class Numbers : Type := {
  number : Type;
  numberTruthy : number → bool;
  numberToString : number → string;
}.

Section ContainerOverrides.
Context {numbers : Numbers}.

(** [Size] of the core library, used through [toMebibytes()]. *)
Record Size : Type := { toMebibytes : number }.

(** [ec2.InstanceType], used through [toString()]. *)
Record InstanceType : Type := { instanceTypeToString : string }.

Record BatchContainerOverrides : Type := {
  command : option (list string);
  environment : option (list (string * string));
  instanceType : option InstanceType;
  memory : option Size;
  gpuCount : option number;
  vcpus : option number;
}.

Record ResourceRequirement : Type := {
  Resource_Type : string;
  Resource_Value : string;
}.

Record EnvironmentEntry : Type := {
  Env_Name : string;
  Env_Value : string;
}.

Record ContainerOverridesJson : Type := {
  CO_Command : option (list string);
  CO_Environment : option (list EnvironmentEntry);
  CO_InstanceType : option string;
  CO_ResourceRequirements : option (list ResourceRequirement);
}.

(** [configureContainerOverrides(containerOverrides)]; the environment
    object is given by [Object.entries].  [if (containerOverrides.gpuCount)]
    is false for [undefined] and for a number that is not truthy; a [Size]
    is an object and so always truthy. *)
Definition configureContainerOverrides (containerOverrides : BatchContainerOverrides)
    : ContainerOverridesJson :=
  let environment :=
    match environment containerOverrides with
    | Some entries =>
        Some (map (λ kv, {| Env_Name := kv.1; Env_Value := kv.2 |}) entries)
    | None => None
    end in
  let resources : list ResourceRequirement := [] in
  let resources :=
    match gpuCount containerOverrides with
    | Some n =>
        if numberTruthy n
        then resources ++
             [{| Resource_Type := "GPU"; Resource_Value := numberToString n |}]
        else resources
    | None => resources
    end in
  let resources :=
    match memory containerOverrides with
    | Some m =>
        resources ++
        [{| Resource_Type := "MEMORY";
            Resource_Value := numberToString (toMebibytes m) |}]
    | None => resources
    end in
  let resources :=
    match vcpus containerOverrides with
    | Some n =>
        if numberTruthy n
        then resources ++
             [{| Resource_Type := "VCPU"; Resource_Value := numberToString n |}]
        else resources
    | None => resources
    end in
  {| CO_Command := command containerOverrides;
     CO_Environment := environment;
     CO_InstanceType := instanceTypeToString <$> instanceType containerOverrides;
     CO_ResourceRequirements :=
       match resources with
       | [] => None
       | _ => Some resources
       end |}.

End ContainerOverrides.

(** * Vocabulary of the properties *)

(** ** Heaps and binding *)

(** The name that follows the prefixes in [stateId]. *)
Definition baseName (s : State) : string :=
  match stateName (props s) with
  | Some (String c r) => String c r
  | _ => node_id s
  end.

(** A computation [m] respects a relation [R] on heaps when every run of
    [m], normal or abrupt, relates the heap before to the heap after. *)
Definition respects {A} (R : relation Heap) (m : HeapM A) : Prop :=
  ∀ h h' r, m h = (h', r) → R h h'.

(** What binding may change in a state: [s'] differs from [s] at most in
    [containingGraph], and if [s] is bound then [s'] is bound to the same
    graph. *)
Definition state_le (s s' : State) : Prop :=
  s' = set_containingGraph (containingGraph s') s ∧
  (∀ g, containingGraph s = Some g → containingGraph s' = Some g).

(** The same states exist on both heaps, related by [state_le]. *)
Definition heap_le (h h' : Heap) : Prop :=
  ∀ x, option_Forall2 state_le (states h !! x) (states h' !! x).

(** [x] is bound to [g] on the heap [h]. *)
Definition boundTo (h : Heap) (x : StateRef) (g : GraphRef) : Prop :=
  ∃ s, states h !! x = Some s ∧ containingGraph s = Some g.

(** [x] is on the heap [h] and in no graph. *)
Definition unbound (h : Heap) (x : StateRef) : Prop :=
  ∃ s, states h !! x = Some s ∧ containingGraph s = None.

(** Two states joined by a transition that both ends know about. *)
Definition linked (h : Heap) (a b : StateRef) : Prop :=
  ∃ sa sb,
    states h !! a = Some sa ∧ states h !! b = Some sb ∧
    containingGraph sa = None ∧ containingGraph sb = None ∧
    b ∈ outgoingTransitions {| includeErrorHandlers := Some true |} sa ∧
    a ∈ incomingStates sb.

(** Binding either of [a] and [b] binds the other. *)
Definition propagatesBothWays (h : Heap) (a b : StateRef) : Prop :=
  ∀ fuel G h',
    (bindToGraph fuel a G h = (h', Ok tt) → boundTo h' b G) ∧
    (bindToGraph fuel b G h = (h', Ok tt) → boundTo h' a G).

(** The graph a state is in, [None] when it is in none or does not exist. *)
Definition graphOf (h : Heap) (x : StateRef) : option GraphRef :=
  states h !! x ≫= containingGraph.

(** The states of the heap that are in no graph. *)
Definition unboundStates (h : Heap) : gset nat :=
  dom (filter (λ kv, containingGraph kv.2 = None) (states h)).

(** Every state named by [incomingStates] or by a transition is on the
    heap. *)
Definition closedRefs (h : Heap) : Prop :=
  ∀ x s y,
    states h !! x = Some s →
    y ∈ incomingStates s ∨
      y ∈ outgoingTransitions {| includeErrorHandlers := Some true |} s →
    is_Some (states h !! y).

(** The outcomes of [bindToGraph] that the source can produce. *)
Definition bindOutcome (r : result unit) : Prop :=
  r = Ok tt ∨ ∃ id g1 g2, r = Throw (EAlreadyInGraph id g1 g2).

(** ** Rules and their order *)

Section RuleOrder.
Context {host : Host} {T : Type} (key : T → option (list string)).

(** A rule is a wildcard rule when it has a matcher list and [Errors.ALL]
    is one of its elements. *)
Definition isWildcard (x : T) : Prop := ∃ l, key x = Some l ∧ ALL ∈ l.

Global Instance isWildcard_dec (x : T) : Decision (isWildcard x).
Proof.
  unfold isWildcard. destruct (key x) as [l|].
  - destruct (decide (ALL ∈ l)) as [Hin|Hout].
    + left. exists l. split; [reflexivity | exact Hin].
    + right. intros (l' & Heq & Hin). injection Heq as <-. exact (Hout Hin).
  - right. intros (l' & Heq & _). discriminate Heq.
Defined.

(** The comparator [renderRetryCatch] passes to [renderList]. *)
Definition byErrors (a b : T) : Z := compareErrors (key a) (key b).

(** The order in which a list of rules is rendered: the rules without the
    wildcard in declaration order, then the wildcard rules, in declaration
    order too. *)
Definition wildcardLast (declared : list T) : list T :=
  filter (λ x, ¬ isWildcard x) declared ++ filter isWildcard declared.

(** No element of [l] compares below an element in front of it. *)
Definition sortedBy (sortFn : T → T → Z) (l : list T) : Prop :=
  ∀ l1 x l2 y l3, l = l1 ++ x :: l2 ++ y :: l3 → ¬ (sortFn y x < 0)%Z.

End RuleOrder.

Section StoredRules.
Context {host : Host}.

(** The rule [_addRetry] stores for [props]. *)
Definition storedRetry (props : RetryProps) : RetryProps :=
  {| retry_errors := Some (default [ALL] (retry_errors props));
     retry_interval := retry_interval props;
     retry_maxAttempts := retry_maxAttempts props;
     retry_backoffRate := retry_backoffRate props;
     retry_maxDelay := retry_maxDelay props;
     retry_jitterStrategy := retry_jitterStrategy props |}.

(** The transition [_addCatch] stores for [handler] and [props]. *)
Definition storedCatch (handler : StateRef) (props : CatchProps) : CatchTransition :=
  {| catch_next := handler;
     catch_props :=
       {| catch_errors := Some (default [ALL] (catch_errors props));
          catch_resultPath := catch_resultPath props;
          catch_outputs := catch_outputs props;
          catch_assign := catch_assign props |} |}.

Definition retryOrder : RetryProps → RetryProps → Z := byErrors retry_errors.

Definition catchOrder : CatchTransition → CatchTransition → Z :=
  byErrors (λ c, catch_errors (catch_props c)).

End StoredRules.

(** ** Reachable states *)

Section ReachableStates.
Context (h : Heap) (options : FindStateOptions).

(** [y] is the target of a transition of [x] that the options select. *)
Definition edge (x y : StateRef) : Prop :=
  ∃ s, states h !! x = Some s ∧ y ∈ outgoingTransitions options s.

(** Reachable in zero or more selected transitions. *)
Definition reachable (start : StateRef) : StateRef → Prop := rtc edge start.

(** A state without selected outgoing transitions. *)
Definition isEndState (x : StateRef) : Prop :=
  ∃ s, states h !! x = Some s ∧ outgoingTransitions options s = [].

(** Every selected transition leads to a state of the heap. *)
Definition closedHeap : Prop := ∀ x y, edge x y → is_Some (states h !! y).

(** Number of selected transitions of a set of states. *)
Definition outDegrees (m : gmap nat State) : nat :=
  map_fold (λ _ s n, length (outgoingTransitions options s) + n) 0 m.

(** Fuel that suffices for the traversals: one iteration for the start state
    and one for every transition. *)
Definition reachFuel : nat := S (outDegrees (states h)).

(** The states of the heap that the traversal has not visited. *)
Definition unvisited (visited : list StateRef) : gmap nat State :=
  filter (λ kv, kv.1 ∉ visited) (states h).

End ReachableStates.

(** Two states with the same transitions. *)
Definition sameTransitions (s s' : State) : Prop :=
  _next s = _next s' ∧ defaultChoice s = defaultChoice s' ∧
  choices s = choices s' ∧ catches s = catches s'.

(** ** Binding across chains *)

(** [y] is named by [x]: it is in [incomingStates] of [x] or the target of
    one of its transitions. *)
Definition neighbour (h : Heap) (x y : StateRef) : Prop :=
  ∃ s, states h !! x = Some s ∧
       (y ∈ incomingStates s ∨
        y ∈ outgoingTransitions {| includeErrorHandlers := Some true |} s).

(** Between [h] and [h'] states were bound to [G] and to no other graph. *)
Definition bindsOnly (G : GraphRef) (h h' : Heap) : Prop :=
  heap_le h h' ∧ ∀ x g, boundTo h' x g → boundTo h x g ∨ g = G.

(** [x] and everything it names are in [G]. *)
Definition settled (G : GraphRef) (h : Heap) (x : StateRef) : Prop :=
  boundTo h x G ∧ ∀ y, neighbour h x y → boundTo h y G.

(** Every state bound between [h] and [h'] is settled in [G]. *)
Definition bindsFully (G : GraphRef) (h h' : Heap) : Prop :=
  heap_le h h' ∧ ∀ x, unbound h x → ¬ unbound h' x → settled G h' x.

(** A computation whose normal runs relate the heap before to the heap
    after. *)
Definition respectsOk {A} (R : relation Heap) (m : HeapM A) : Prop :=
  ∀ h h' a, m h = (h', Ok a) → R h h'.

(** A chain of states that name each other and are all unbound. *)
Definition unboundChain (h : Heap) : relation StateRef :=
  rtc (λ x y, neighbour h x y ∧ unbound h y).

(** ** Identifiers and construct trees *)

(** The heaps agree on the identifier of every state. *)
Definition sameIds (h h' : Heap) : Prop :=
  ∀ x, stateId <$> states h' !! x = stateId <$> states h !! x.

(** The states of a construct tree, and of a queue of trees. *)
Fixpoint constructStates (c : Construct) : list StateRef :=
  match c with
  | MkConstruct self children =>
      option_list self ++
      (fix go (l : list Construct) : list StateRef :=
         match l with
         | [] => []
         | c :: l => constructStates c ++ go l
         end) children
  end.

Fixpoint queueStates (queue : list Construct) : list StateRef :=
  match queue with
  | [] => []
  | c :: queue => constructStates c ++ queueStates queue
  end.

(** The number of constructs of a tree, and of a queue of trees. *)
Fixpoint constructSize (c : Construct) : nat :=
  match c with
  | MkConstruct _ children =>
      S ((fix go (l : list Construct) : nat :=
            match l with
            | [] => 0
            | c :: l => constructSize c + go l
            end) children)
  end.

Fixpoint queueSize (queue : list Construct) : nat :=
  match queue with
  | [] => 0
  | c :: queue => constructSize c + queueSize queue
  end.

(** How often [x] occurs in a list of states. *)
Definition timesIn (x : StateRef) (l : list StateRef) : nat :=
  length (filter (λ y, y = x) l).

(** ** Tags and overrides of the Batch job task *)

(** A tag that [validateTags] lets pass. *)
Definition tagFits (kv : string * string) : Prop :=
  1 ≤ String.length kv.1 ≤ 128 ∧ String.length kv.2 ≤ 256.

(** * Example data *)

(** A host for the examples: the wildcard matcher of the States language,
    tokens recognised by their marker, and an identity object renderer. *)
Definition sampleHost : Host :=
  {| ALL := "States.ALL";
     isUnresolved := String.prefix "${Token[";
     renderObject := λ o, o |}.

Definition jsonataState : State :=
  newState "Step" "Stack/Step"
    {| stateName := None; queryLanguage := Some JSONATA; comment := None;
       inputPath := None; parameters := None; outputPath := None;
       resultPath := None; resultSelector := None; outputs := None;
       arguments := None; assign := None |}.

Definition jsonPathState : State :=
  newState "Step" "Stack/Step"
    {| stateName := None; queryLanguage := Some JSON_PATH; comment := None;
       inputPath := None; parameters := None; outputPath := None;
       resultPath := None; resultSelector := None; outputs := None;
       arguments := None; assign := None |}.

(** A heap with one state, ["A"], bound to graph [7]. *)
Definition boundHeap : Heap :=
  {| states := {[ 0 := set_containingGraph (Some 7) (newState "A" "Stack/A" noProps) ]};
     graphs := {[ 7 := {| allStates := [0]; superGraph := None |} ]} |}.

Definition anyRetry : RetryProps :=
  {| retry_errors := None; retry_interval := None; retry_maxAttempts := None;
     retry_backoffRate := None; retry_maxDelay := None;
     retry_jitterStrategy := None |}.

Definition retryOn (errors : list string) : RetryProps :=
  {| retry_errors := Some errors; retry_interval := None;
     retry_maxAttempts := Some 3%Z; retry_backoffRate := None;
     retry_maxDelay := None; retry_jitterStrategy := None |}.

Definition anyCatch : CatchProps :=
  {| catch_errors := None; catch_resultPath := None; catch_outputs := None;
     catch_assign := None |}.

Definition catchOn (errors : list string) : CatchProps :=
  {| catch_errors := Some errors; catch_resultPath := Some "$.error";
     catch_outputs := None; catch_assign := None |}.

(** Three unbound states without transitions: ["A"], ["B"] and ["C"]. *)
Definition threeStates : Heap :=
  {| states := {[ 0 := newState "A" "Stack/A" noProps;
                  1 := newState "B" "Stack/B" noProps;
                  2 := newState "C" "Stack/C" noProps ]};
     graphs := ∅ |}.

(** State ["A"] with a wildcard retry declared before a timeout retry, and
    a wildcard catch to ["B"] declared before a catch of task failures to
    ["C"]. *)
Definition withRules : Heap :=
  ((_addRetry (host := sampleHost) 0 anyRetry ;;
    _addRetry (host := sampleHost) 0 (retryOn ["States.Timeout"]) ;;
    _addCatch (host := sampleHost) 3 0 1 anyCatch ;;
    _addCatch (host := sampleHost) 3 0 2 (catchOn ["States.TaskFailed"]))
     threeStates).1.

(** A retry rule on [errors], on any error when omitted, that allows [n]
    attempts. *)
Definition retryTimes (errors : option (list string)) (n : Z) : RetryProps :=
  {| retry_errors := errors; retry_interval := None;
     retry_maxAttempts := Some n; retry_backoffRate := None;
     retry_maxDelay := None; retry_jitterStrategy := None |}.

(** State ["A"] with five retry rules, the first, third and fifth on any
    error, and four catch handlers, the first and third on any error. *)
Definition withWildcards : Heap :=
  ((_addRetry (host := sampleHost) 0 (retryTimes None 1) ;;
    _addRetry (host := sampleHost) 0 (retryTimes (Some ["States.Timeout"]) 2) ;;
    _addRetry (host := sampleHost) 0 (retryTimes None 3) ;;
    _addRetry (host := sampleHost) 0 (retryTimes (Some ["States.TaskFailed"]) 4) ;;
    _addRetry (host := sampleHost) 0 (retryTimes None 5) ;;
    _addCatch (host := sampleHost) 3 0 1 anyCatch ;;
    _addCatch (host := sampleHost) 3 0 2 (catchOn ["States.TaskFailed"]) ;;
    _addCatch (host := sampleHost) 3 0 2 anyCatch ;;
    _addCatch (host := sampleHost) 3 0 1 (catchOn ["States.Timeout"]))
     threeStates).1.

(** The matcher lists of a rendered fragment, in rendering order, with the
    target of each catch. *)
Definition renderedMatchers (r : result RetryCatchJson)
    : option (option (list (option (list string))) *
              option (list (option (list string) * string))) :=
  match r with
  | Ok frag =>
      Some (option_map (map Retry_ErrorEquals) (Retry frag),
            option_map (map (λ j, (Catch_ErrorEquals j, Catch_Next j))) (Catch frag))
  | Throw _ => None
  end.

Definition withErrorHandlers : FindStateOptions :=
  {| includeErrorHandlers := Some true |}.

(** ["A"] and ["B"] point at each other, ["A"] has a catch handler ["C"]
    and a parallel branch, graph [9]. *)
Definition cycleHeap : Heap :=
  ((makeNext 2 0 1 ;;
    makeNext 2 1 0 ;;
    _addCatch (host := sampleHost) 2 0 2 anyCatch ;;
    addBranch 0 9) threeStates).1.

(** ["C"] is in graph [8]; then ["A"] gets ["B"] as a choice and ["C"] as
    next state, while ["A"] and ["B"] are in no graph. *)
Definition conflictHeap : Heap :=
  ((bindToGraph 1 2 8 ;;
    addChoice 1 0 {| renderCondition := [] |} 1
      {| choice_comment := None; choice_outputs := None; choice_assign := None |} ;;
    makeNext 1 0 2) threeStates).1.

(** A chain ["A" -> "B" -> "C"] of next states, all unbound. *)
Definition chainHeap : Heap :=
  ((makeNext 1 0 1 ;; makeNext 1 1 2) threeStates).1.

(** ["A"] with a choice to ["B"], a choice to ["C"] and ["C"] as default;
    ["B"] is prefixed after the choices are declared. *)
Definition choiceHeap : Heap :=
  ((addChoice 1 0 {| renderCondition := [("Variable", JStr "$.x")] |} 1
      {| choice_comment := Some "first"; choice_outputs := None;
         choice_assign := None |} ;;
    addChoice 1 0 {| renderCondition := [("Variable", JStr "$.y")] |} 2
      {| choice_comment := None; choice_outputs := None; choice_assign := None |} ;;
    makeDefault 0 2 ;;
    modifyState 1 (addPrefix "P-")) threeStates).1.

(** A state whose input path lacks the ['$'] and whose output path is
    fine. *)
Definition badInputState : State :=
  newState "Step" "Stack/Step"
    {| stateName := None; queryLanguage := None; comment := None;
       inputPath := Some "foo"; parameters := None; outputPath := Some "$.out";
       resultPath := None; resultSelector := None; outputs := None;
       arguments := None; assign := None |}.

(** A fragment that contains ["A"] and, below a construct that is no state,
    ["B"]; ["C"] is outside. *)
Definition fragmentTree : Construct :=
  MkConstruct None [MkConstruct (Some 0) []; MkConstruct None [MkConstruct (Some 1) []]].

(** Numbers as integers, for the examples: zero is the number that is not
    truthy, and the conversion to a string is defined on the values the
    examples use. *)
Definition sampleNumbers : Numbers :=
  {| number := Z;
     numberTruthy := λ n, negb (n =? 0)%Z;
     numberToString := λ n,
       if (n =? 1)%Z then "1" else if (n =? 2)%Z then "2"
       else if (n =? 2048)%Z then "2048" else "?" |}.

(** Overrides that ask for memory and two vCPUs, with a GPU count of zero;
    and overrides with an empty environment and a GPU count of zero only. *)
Definition memoryAndCpu : @BatchContainerOverrides sampleNumbers :=
  @Build_BatchContainerOverrides sampleNumbers
    None None None (Some (@Build_Size sampleNumbers 2048%Z))
    (Some 0%Z) (Some 2%Z).

Definition noResources : @BatchContainerOverrides sampleNumbers :=
  @Build_BatchContainerOverrides sampleNumbers
    None (Some []) None None (Some 0%Z) None.

(** * Properties *)

(** ** Prefixes and identifiers *)

Lemma string_app_empty_r (x : string) : x +:+ "" = x.
Proof.
  induction x as [|c x IH]; [done |].
  unfold String.append; fold String.append. by f_equal.
Qed.

Lemma string_app_assoc (x y z : string) : (x +:+ y) +:+ z = x +:+ (y +:+ z).
Proof.
  induction x as [|c x IH]; [done |].
  unfold String.append; fold String.append. by f_equal.
Qed.

Lemma concat_empty_cons (x : string) (l : list string) :
  String.concat "" (x :: l) = x +:+ String.concat "" l.
Proof.
  destruct l as [|y l]; simpl; [by rewrite string_app_empty_r | done].
Qed.

Lemma concat_empty_app (l1 l2 : list string) :
  String.concat "" (l1 ++ l2) = String.concat "" l1 +:+ String.concat "" l2.
Proof.
  induction l1 as [|x l1 IH]; [done |].
  by rewrite <- app_comm_cons, !concat_empty_cons, IH, string_app_assoc.
Qed.

Lemma stateId_spec (s : State) :
  stateId s = String.concat "" (prefixes s) +:+ baseName s.
Proof.
  unfold stateId. rewrite concat_empty_app. f_equal.
Qed.

Lemma addPrefix_nonempty (c : ascii) (x : string) (s : State) :
  addPrefix (String c x) s = set_prefixes (String c x :: prefixes s) s.
Proof. unfold addPrefix. by destruct (decide _). Qed.

Lemma stateId_addPrefix (c : ascii) (x : string) (s : State) :
  stateId (addPrefix (String c x) s) = String c x +:+ stateId s.
Proof.
  rewrite addPrefix_nonempty. unfold stateId. simpl prefixes. simpl props.
  by rewrite <- app_comm_cons, concat_empty_cons.
Qed.

(** C5, as the claim states it, fails: after the prefixes ["A"] and then
    ["B"] the state with id ["X"] is called ["BAX"], not ["ABX"]. *)
Lemma stateId_prefix_A_B_not_AB :
  let s := newState "X" "Default/X" noProps in
  stateId (addPrefix "B" (addPrefix "A" s)) = "BAX" ∧
  stateId (addPrefix "B" (addPrefix "A" s)) ≠ "AB" +:+ stateId s.
Proof. split; [reflexivity | discriminate]. Qed.

(** C5, amended: prefixing with ["A"] and then with ["B"] yields ["BA"]
    followed by the identifier the state had before; the resolved identifier
    is the concatenation of the prefix list followed by the override name
    when that is set and not empty, else the construct id; each call puts
    its prefix at the front of the list; the empty prefix changes nothing. *)
Theorem stateId_prefix_order (s : State) :
  stateId (addPrefix "B" (addPrefix "A" s)) = "BA" +:+ stateId s ∧
  stateId s =
    String.concat "" (prefixes s) +:+
    match stateName (props s) with
    | Some (String c r) => String c r
    | Some EmptyString | None => node_id s
    end ∧
  (∀ c x, prefixes (addPrefix (String c x) s) = String c x :: prefixes s) ∧
  (∀ c x, stateId (addPrefix (String c x) s) = String c x +:+ stateId s) ∧
  addPrefix "" s = s.
Proof.
  split_and!.
  - by rewrite !stateId_addPrefix.
  - rewrite stateId_spec. unfold baseName.
    by destruct (stateName (props s)) as [[|]|].
  - intros c x. by rewrite addPrefix_nonempty.
  - intros c x. apply stateId_addPrefix.
  - reflexivity.
Qed.

(** ** Query language *)

(** C6: the state-level query language wins over the top-level one and
    JSONPath is the default; [renderQueryLanguage] throws exactly when the
    top level is JSONata and the state asks for JSONPath; when the top
    level is JSONPath (given or by default) and the state asks for JSONata,
    the rendered object carries [QueryLanguage: JSONata]. *)
Theorem queryLanguage_resolution :
  (∀ top q, _getActualQueryLanguage top (Some q) = q) ∧
  (∀ q, _getActualQueryLanguage (Some q) None = q) ∧
  _getActualQueryLanguage None None = JSON_PATH ∧
  (∀ top s,
     (∃ e, renderQueryLanguage top s = Throw e) ↔
     top = Some JSONATA ∧ queryLanguage (props s) = Some JSON_PATH) ∧
  (∀ top s,
     top = Some JSONATA → queryLanguage (props s) = Some JSON_PATH →
     renderQueryLanguage top s = Throw (EQueryLanguageConflict (node_path s))) ∧
  (∀ top s,
     top ≠ Some JSONATA → queryLanguage (props s) = Some JSONATA →
     renderQueryLanguage top s = Ok {| QueryLanguage_field := Some JSONATA |}).
Proof.
  split_and!; try done.
  - intros top s. unfold renderQueryLanguage. split.
    + intros [e He].
      destruct top as [[]|], (queryLanguage (props s)) as [[]|];
        simpl in He; try discriminate; done.
    + intros [-> ->]. simpl. eauto.
  - intros top s -> Hs. unfold renderQueryLanguage. by rewrite Hs.
  - intros top s Htop Hs. unfold renderQueryLanguage. rewrite Hs.
    by destruct top as [[]|].
Qed.

Lemma queryLanguage_resolution_witness :
  renderQueryLanguage (Some JSONATA) jsonPathState
    = Throw (EQueryLanguageConflict "Stack/Step") ∧
  renderQueryLanguage (Some JSON_PATH) jsonataState
    = Ok {| QueryLanguage_field := Some JSONATA |} ∧
  renderQueryLanguage None jsonataState
    = Ok {| QueryLanguage_field := Some JSONATA |}.
Proof.
  destruct queryLanguage_resolution as (_ & _ & _ & _ & Hthrow & Hmark).
  split_and!.
  - apply (Hthrow (Some JSONATA) jsonPathState); reflexivity.
  - apply (Hmark (Some JSON_PATH) jsonataState); [discriminate | reflexivity].
  - apply (Hmark None jsonataState); [discriminate | reflexivity].
Defined.

(** ** JSON paths *)

Section JsonPath.
Context {host : Host}.

Lemma startsWithDollar_spec (v : string) :
  startsWithDollar v = true ↔ ∃ r, v = String "$"%char r.
Proof.
  destruct v as [|c r]; simpl.
  - split; [done | by intros [? ?]].
  - rewrite bool_decide_eq_true. split.
    + intros ->. eauto.
    + intros [? [= -> _]]. done.
Qed.

(** C8: [renderJsonPath] throws exactly when the path is defined, is not an
    unresolved token and does not start with ['$']; a path that starts with
    ['$'] and an unresolved token are returned unchanged; [undefined] stays
    [undefined]. *)
Theorem renderJsonPath_spec :
  (∀ p, (∃ e, renderJsonPath p = Throw e) ↔
        ∃ v, p = Some v ∧ isUnresolved v = false ∧
             ¬ ∃ r, v = String "$"%char r) ∧
  (∀ v e, renderJsonPath (Some v) = Throw e → e = EJsonPathStart v) ∧
  (∀ r, renderJsonPath (Some (String "$"%char r)) = Ok (Some (String "$"%char r))) ∧
  renderJsonPath (Some "$.foo") = Ok (Some "$.foo") ∧
  (∀ v, isUnresolved v = true → renderJsonPath (Some v) = Ok (Some v)) ∧
  renderJsonPath None = Ok None.
Proof.
  split_and!.
  - intros [v|]; simpl.
    + split.
      * intros [e He]. exists v. split; [done |].
        destruct (isUnresolved v); [done |].
        destruct (startsWithDollar v) eqn:Hd; [done |].
        split; [done |]. rewrite <- startsWithDollar_spec. congruence.
      * intros (? & [= <-] & -> & Hd).
        destruct (startsWithDollar v) eqn:Hv.
        { destruct Hd. by apply startsWithDollar_spec. }
        simpl. eauto.
    + split; [by intros [? ?] | by intros (? & ? & _)].
  - intros v e. simpl. by case_match; intros [= <-].
  - intros r. simpl. by rewrite andb_false_r.
  - simpl. by rewrite andb_false_r.
  - intros v Hv. simpl. by rewrite Hv.
  - done.
Qed.

End JsonPath.

Lemma renderJsonPath_spec_witness :
  (∃ e, renderJsonPath (host := sampleHost) (Some "foo") = Throw e) ∧
  renderJsonPath (host := sampleHost) (Some "foo") = Throw (EJsonPathStart "foo") ∧
  renderJsonPath (host := sampleHost) (Some "${Token[TOKEN.42]}")
    = Ok (Some "${Token[TOKEN.42]}").
Proof.
  destruct (renderJsonPath_spec (host := sampleHost))
    as (Hiff & Herr & _ & _ & Htok & _).
  assert (∃ e, renderJsonPath (host := sampleHost) (Some "foo") = Throw e) as Hex.
  { apply Hiff. exists "foo". split_and!; [reflexivity | reflexivity |].
    intros [r Hr]. discriminate Hr. }
  split_and!.
  - exact Hex.
  - destruct Hex as [e He]. rewrite He. f_equal. by apply Herr.
  - apply Htok. reflexivity.
Defined.

(** ** Error matchers *)

Section Matchers.
Context {host : Host}.

Lemma includesALL_Some (l : list string) :
  includesALL (Some l) = true ↔ ALL ∈ l.
Proof. simpl. apply bool_decide_eq_true. Qed.

Lemma compareErrors_wildcard_first (a b : option (list string)) :
  includesALL a = true → compareErrors a b = 1%Z.
Proof. unfold compareErrors. by intros ->. Qed.

Lemma compareErrors_wildcard_second (a b : option (list string)) :
  includesALL a = false → includesALL b = true → compareErrors a b = (-1)%Z.
Proof. unfold compareErrors. by intros -> ->. Qed.

Lemma compareErrors_no_wildcard (a b : option (list string)) :
  includesALL a = false → includesALL b = false → compareErrors a b = 0%Z.
Proof. unfold compareErrors. by intros -> ->. Qed.

Lemma validateErrors_throw (l : list string) :
  ALL ∈ l → 1 < length l → validateErrors (Some l) = Throw EAllMustAppearAlone.
Proof.
  intros Hin Hlen. unfold validateErrors.
  rewrite (proj2 (includesALL_Some l) Hin).
  by rewrite bool_decide_eq_true_2.
Qed.

Lemma validateErrors_alone : validateErrors (Some [ALL]) = Ok tt.
Proof.
  unfold validateErrors. rewrite (bool_decide_eq_false_2 (1 < length [ALL])).
  - by rewrite andb_false_r.
  - simpl. lia.
Qed.

End Matchers.

(** ** Reasoning about heap computations *)

Lemma hbind_unfold {A B} (m : HeapM A) (k : A → HeapM B) (h : Heap) :
  (m ≫= k) h =
  match m h with
  | (h', Ok a) => k a h'
  | (h', Throw e) => (h', Throw e)
  end.
Proof. reflexivity. Qed.

Lemma hbind_inv {A B} (m : HeapM A) (k : A → HeapM B) (h h' : Heap) (r : result B) :
  (m ≫= k) h = (h', r) →
  (∃ h1 a, m h = (h1, Ok a) ∧ k a h1 = (h', r)) ∨
  (∃ e, m h = (h', Throw e) ∧ r = Throw e).
Proof.
  rewrite hbind_unfold. destruct (m h) as [h1 [a|e]].
  - intros Hk. left. eauto.
  - intros [= <- <-]. right. eauto.
Qed.

Lemma hbind_ok_inv {A B} (m : HeapM A) (k : A → HeapM B) (h h' : Heap) (b : B) :
  (m ≫= k) h = (h', Ok b) →
  ∃ h1 a, m h = (h1, Ok a) ∧ k a h1 = (h', Ok b).
Proof.
  intros [?|(e & _ & ?)]%hbind_inv; [done | discriminate].
Qed.

Lemma getState_Some (this : StateRef) (s : State) (h : Heap) :
  states h !! this = Some s → getState this h = (h, Ok s).
Proof. unfold getState. by intros ->. Qed.

Lemma modifyState_Some (this : StateRef) (f : State → State) (s : State) (h : Heap) :
  states h !! this = Some s →
  modifyState this f h = (set_states (<[this := f s]> (states h)) h, Ok tt).
Proof. unfold modifyState. by intros ->. Qed.

Section Respects.
Context (R : relation Heap) `{!PreOrder R}.

Lemma respects_ret {A} (a : A) : respects R (ret a).
Proof. intros h h' r [= <- _]. reflexivity. Qed.

Lemma respects_throw {A} (e : Error) : respects R (throw (A := A) e).
Proof. intros h h' r [= <- _]. reflexivity. Qed.

Lemma respects_liftResult {A} (x : result A) : respects R (liftResult x).
Proof. intros h h' r [= <- _]. reflexivity. Qed.

Lemma respects_getState (this : StateRef) : respects R (getState this).
Proof.
  intros h h' r. unfold getState.
  destruct (states h !! this); intros [= <- _]; reflexivity.
Qed.

Lemma respects_bind {A B} (m : HeapM A) (k : A → HeapM B) :
  respects R m → (∀ a, respects R (k a)) → respects R (m ≫= k).
Proof.
  intros Hm Hk h h' r [(h1 & a & H1 & H2)|(e & H1 & _)]%hbind_inv.
  - etrans; [by eapply Hm | by eapply Hk].
  - by eapply Hm.
Qed.

Lemma respects_forEach {A} (xs : list A) (f : A → HeapM unit) :
  (∀ x, x ∈ xs → respects R (f x)) → respects R (forEach xs f).
Proof.
  induction xs as [|x xs IH]; intros Hf; simpl.
  - apply respects_ret.
  - apply respects_bind.
    + apply Hf. left.
    + intros _. apply IH. intros y Hy. apply Hf. by right.
Qed.

(** Every call made by a [forEach] that returns normally has itself
    returned normally, from a heap reached from the initial one and leading
    to the final one. *)
Lemma forEach_ok_elem {A} (xs : list A) (f : A → HeapM unit) (h h' : Heap) (x : A) :
  (∀ y, respects R (f y)) →
  forEach xs f h = (h', Ok tt) → x ∈ xs →
  ∃ h1 h2, R h h1 ∧ f x h1 = (h2, Ok tt) ∧ R h2 h'.
Proof.
  intros Hf. revert h. induction xs as [|y xs IH]; intros h Hrun Hx.
  - by apply elem_of_nil in Hx.
  - simpl in Hrun. apply hbind_ok_inv in Hrun as (h1 & [] & Hy & Hrest).
    apply elem_of_cons in Hx as [->|Hx].
    + exists h, h1. split_and!; [reflexivity | done |].
      by eapply (respects_forEach xs f (λ y _, Hf y)).
    + destruct (IH h1 Hrest Hx) as (h2 & h3 & H12 & Hcall & H3).
      exists h2, h3. split_and!; [| done | done].
      etrans; [by eapply Hf | done].
Qed.

End Respects.

Global Instance state_le_preorder : PreOrder state_le.
Proof.
  split.
  - intros s. split; [by destruct s | done].
  - intros s1 s2 s3 [H12 B12] [H23 B23]. split; [| by auto].
    rewrite H23, H12. by destruct s1.
Qed.

Global Instance heap_le_preorder : PreOrder heap_le.
Proof.
  split.
  - intros h x. destruct (states h !! x); constructor. reflexivity.
  - intros h1 h2 h3 H12 H23 x. specialize (H12 x). specialize (H23 x).
    destruct H12; inversion H23; subst; constructor. by etrans.
Qed.

Lemma heap_le_lookup (h h' : Heap) (x : StateRef) (s : State) :
  heap_le h h' → states h !! x = Some s →
  ∃ s', states h' !! x = Some s' ∧ state_le s s'.
Proof.
  intros Hle Hs. specialize (Hle x). rewrite Hs in Hle.
  inversion Hle; subst. eauto.
Qed.

Lemma heap_le_lookup_inv (h h' : Heap) (x : StateRef) (s' : State) :
  heap_le h h' → states h' !! x = Some s' →
  ∃ s, states h !! x = Some s ∧ state_le s s'.
Proof.
  intros Hle Hs. specialize (Hle x). rewrite Hs in Hle.
  inversion Hle; subst. eauto.
Qed.

Lemma heap_le_same_states (h h' : Heap) :
  states h = states h' → heap_le h h'.
Proof. intros Heq x. rewrite Heq. destruct (states h' !! x); constructor. reflexivity. Qed.

Lemma heap_le_bind_state (h : Heap) (this : StateRef) (s : State) (g : GraphRef) :
  states h !! this = Some s → containingGraph s = None →
  heap_le h (set_states (<[this := set_containingGraph (Some g) s]> (states h)) h).
Proof.
  intros Hs Hnone x. simpl. destruct (decide (this = x)) as [<-|Hne].
  - rewrite lookup_insert_eq, Hs. constructor. split; [done |].
    intros g'. by rewrite Hnone.
  - rewrite lookup_insert_ne by done.
    destruct (states h !! x); constructor. reflexivity.
Qed.

Lemma bindToGraph_unfold (fuel : nat) (this : StateRef) (graph : GraphRef) :
  bindToGraph fuel this graph =
  (s ← getState this;
   match containingGraph s with
   | Some g =>
       if decide (g = graph) then ret tt
       else throw (EAlreadyInGraph (stateId s) graph g)
   | None =>
       match fuel with
       | O => throw EOutOfFuel
       | S fuel' =>
           modifyState this (set_containingGraph (Some graph)) ;;
           whenBoundToGraph this graph ;;
           forEach (incomingStates s)
             (λ incoming, bindToGraph fuel' incoming graph) ;;
           forEach (outgoingTransitions {| includeErrorHandlers := Some true |} s)
             (λ outgoing, bindToGraph fuel' outgoing graph) ;;
           forEach (branches s)
             (λ branch, liftHeap (registerSuperGraph branch graph)) ;;
           match iteration s with
           | Some it => liftHeap (registerSuperGraph it graph)
           | None => ret tt
           end ;;
           match processor s with
           | Some p => liftHeap (registerSuperGraph p graph)
           | None => ret tt
           end
       end
   end).
Proof. by destruct fuel. Qed.

Lemma respects_liftHeap_states (f : Heap → Heap) :
  (∀ h, states (f h) = states h) → respects heap_le (liftHeap f).
Proof.
  intros Hf h h' r [= <- _]. apply heap_le_same_states. by rewrite Hf.
Qed.

(** The part of [bindToGraph] that runs after [containingGraph] has been
    assigned. *)
Lemma respects_bind_tail (fuel : nat) (this : StateRef) (graph : GraphRef) (s : State) :
  (∀ x, respects heap_le (bindToGraph fuel x graph)) →
  respects heap_le
    (whenBoundToGraph this graph ;;
     forEach (incomingStates s)
       (λ incoming, bindToGraph fuel incoming graph) ;;
     forEach (outgoingTransitions {| includeErrorHandlers := Some true |} s)
       (λ outgoing, bindToGraph fuel outgoing graph) ;;
     forEach (branches s)
       (λ branch, liftHeap (registerSuperGraph branch graph)) ;;
     match iteration s with
     | Some it => liftHeap (registerSuperGraph it graph)
     | None => ret tt
     end ;;
     match processor s with
     | Some p => liftHeap (registerSuperGraph p graph)
     | None => ret tt
     end).
Proof.
  intros IH.
  repeat (apply respects_bind; [apply _ | | intros _]);
    try (apply respects_forEach; [apply _ |]; intros; try apply IH);
    repeat case_match;
    try (apply respects_liftHeap_states; done);
    apply respects_ret; apply _.
Qed.

Theorem bindToGraph_respects (fuel : nat) (this : StateRef) (graph : GraphRef) :
  respects heap_le (bindToGraph fuel this graph).
Proof.
  revert this. induction fuel as [|fuel IH]; intros this;
    rewrite bindToGraph_unfold.
  - apply respects_bind; [apply _ | apply respects_getState, _ |].
    intros s. repeat case_match;
      first [apply respects_ret, _ | apply respects_throw, _].
  - intros h h' r. unfold getState at 1. rewrite hbind_unfold.
    destruct (states h !! this) as [s|] eqn:Hs;
      [| intros [= <- _]; reflexivity].
    destruct (containingGraph s) as [g|] eqn:Hg.
    + case_decide; intros [= <- _]; reflexivity.
    + rewrite hbind_unfold, (modifyState_Some _ _ _ _ Hs).
      intros Hrun. etrans; [by apply heap_le_bind_state |].
      by eapply (respects_bind_tail fuel this graph s IH).
Qed.

(** ** Binding a state that is already bound *)

(** C2: binding a state to the graph it is already in changes nothing
    (neither the state nor the graph nor anything else on the heap, whatever
    the fuel); binding it to another graph throws an error that carries the
    identifier of the state and both graphs, and the heap, hence the
    [containingGraph] of the state, is as before. *)
Theorem bindToGraph_bound (fuel : nat) (h : Heap) (this : StateRef)
    (s : State) (G : GraphRef) :
  states h !! this = Some s →
  containingGraph s = Some G →
  bindToGraph fuel this G h = (h, Ok tt) ∧
  (∀ G', G' ≠ G →
     bindToGraph fuel this G' h = (h, Throw (EAlreadyInGraph (stateId s) G' G))).
Proof.
  intros Hs HG. split; [| intros G' Hne];
    rewrite bindToGraph_unfold, hbind_unfold, (getState_Some _ _ _ Hs), HG.
  - by rewrite decide_True.
  - by rewrite decide_False.
Qed.

Lemma bindToGraph_bound_witness :
  bindToGraph 0 0 7 boundHeap = (boundHeap, Ok tt) ∧
  bindToGraph 5 0 8 boundHeap = (boundHeap, Throw (EAlreadyInGraph "A" 8 7)).
Proof.
  split.
  - apply (bindToGraph_bound 0 boundHeap 0
             (set_containingGraph (Some 7) (newState "A" "Stack/A" noProps)) 7);
      reflexivity.
  - apply (bindToGraph_bound 5 boundHeap 0
             (set_containingGraph (Some 7) (newState "A" "Stack/A" noProps)) 7);
      [reflexivity | reflexivity | lia].
Defined.

(** ** Declaring retry rules and catch handlers *)

Lemma state_le_fields (s s' : State) :
  state_le s s' →
  catches s' = catches s ∧ retries s' = retries s ∧ choices s' = choices s ∧
  _next s' = _next s ∧ defaultChoice s' = defaultChoice s ∧
  incomingStates s' = incomingStates s ∧ branches s' = branches s ∧
  iteration s' = iteration s ∧ processor s' = processor s ∧
  prefixes s' = prefixes s ∧ props s' = props s ∧ node_id s' = node_id s.
Proof. intros [-> _]. by split_and!. Qed.

Section Declarations.
Context {host : Host}.

Lemma wildcard_with_other (l : list string) :
  ALL ∈ l → (∃ x, x ∈ l ∧ x ≠ ALL) → 1 < length l.
Proof.
  intros Hin (x & Hx & Hne).
  destruct l as [|a [|b l]]; simpl; [| | lia].
  - by apply elem_of_nil in Hin.
  - apply list_elem_of_singleton in Hin, Hx. congruence.
Qed.

Lemma _addRetry_invalid (h : Heap) (this : StateRef) (props : RetryProps) (e : Error) :
  validateErrors (retry_errors props) = Throw e →
  _addRetry this props h = (h, Throw e).
Proof. intros Hv. unfold _addRetry. by rewrite hbind_unfold, Hv. Qed.

Lemma _addCatch_invalid (fuel : nat) (h : Heap) (this handler : StateRef)
    (props : CatchProps) (e : Error) :
  validateErrors (catch_errors props) = Throw e →
  _addCatch fuel this handler props h = (h, Throw e).
Proof. intros Hv. unfold _addCatch. by rewrite hbind_unfold, Hv. Qed.

Lemma _addRetry_valid (h : Heap) (this : StateRef) (s : State) (props : RetryProps) :
  states h !! this = Some s →
  validateErrors (retry_errors props) = Ok tt →
  _addRetry this props h =
    (set_states
       (<[this := set_retries (retries s ++ [storedRetry props]) s]> (states h)) h,
     Ok tt).
Proof.
  intros Hs Hv. unfold _addRetry.
  rewrite hbind_unfold, Hv. unfold liftResult. cbv beta iota.
  by rewrite (modifyState_Some _ _ _ _ Hs).
Qed.

(** Whatever happens after the push in [_addCatch] (the handler may be
    missing, binding it may throw), the transition stays in [catches]. *)
Lemma _addCatch_valid (fuel : nat) (h h' : Heap) (this handler : StateRef) (s : State)
    (props : CatchProps) (r : result unit) :
  states h !! this = Some s →
  validateErrors (catch_errors props) = Ok tt →
  _addCatch fuel this handler props h = (h', r) →
  ∃ s', states h' !! this = Some s' ∧
        catches s' = catches s ++ [storedCatch handler props].
Proof.
  intros Hs Hv. unfold _addCatch.
  rewrite hbind_unfold, Hv. unfold liftResult. cbv beta iota.
  rewrite hbind_unfold, (modifyState_Some _ _ _ _ Hs).
  set (s1 := set_catches _ s).
  set (h1 := set_states _ h).
  assert (states h1 !! this = Some s1) as H1 by apply lookup_insert_eq.
  rewrite hbind_unfold. unfold modifyState at 1.
  destruct (states h1 !! handler) as [sh|] eqn:Hh;
    [| intros [= <- _]; eauto].
  set (h2 := set_states _ h1).
  assert (∃ s2, states h2 !! this = Some s2 ∧ catches s2 = catches s1)
    as (s2 & H2 & Hc2).
  { subst h2. simpl. destruct (decide (handler = this)) as [->|Hne].
    - rewrite lookup_insert_eq. rewrite H1 in Hh. injection Hh as <-. eauto.
    - rewrite lookup_insert_ne by done. eauto. }
  rewrite hbind_unfold, (getState_Some _ _ _ H2).
  destruct (containingGraph s2) as [g|].
  - intros Hrun. apply bindToGraph_respects in Hrun.
    destruct (heap_le_lookup _ _ _ _ Hrun H2) as (s' & Hs' & Hle).
    exists s'. split; [done |].
    destruct (state_le_fields _ _ Hle) as (-> & _). by rewrite Hc2.
  - intros [= <- _]. eauto.
Qed.

(** C7: a matcher list that holds the wildcard together with another
    matcher makes [validateErrors], and with it [_addRetry] and [_addCatch],
    throw before anything is stored (the heap is unchanged); when the list
    is omitted the stored rule matches exactly [[Errors.ALL]]. *)
Theorem wildcard_must_appear_alone :
  (∀ l, ALL ∈ l → (∃ x, x ∈ l ∧ x ≠ ALL) →
        validateErrors (Some l) = Throw EAllMustAppearAlone) ∧
  (∀ h this props l,
     retry_errors props = Some l → ALL ∈ l → (∃ x, x ∈ l ∧ x ≠ ALL) →
     _addRetry this props h = (h, Throw EAllMustAppearAlone)) ∧
  (∀ fuel h this handler props l,
     catch_errors props = Some l → ALL ∈ l → (∃ x, x ∈ l ∧ x ≠ ALL) →
     _addCatch fuel this handler props h = (h, Throw EAllMustAppearAlone)) ∧
  (∀ h this s props,
     states h !! this = Some s → retry_errors props = None →
     ∃ h' s' rule,
       _addRetry this props h = (h', Ok tt) ∧
       states h' !! this = Some s' ∧
       retries s' = retries s ++ [rule] ∧
       retry_errors rule = Some [ALL]) ∧
  (∀ fuel h this s handler props h' r,
     states h !! this = Some s → catch_errors props = None →
     _addCatch fuel this handler props h = (h', r) →
     ∃ s' rule,
       states h' !! this = Some s' ∧
       catches s' = catches s ++ [rule] ∧
       catch_next rule = handler ∧
       catch_errors (catch_props rule) = Some [ALL]).
Proof.
  split_and!.
  - intros l Hin Hother.
    apply validateErrors_throw; [done | by apply wildcard_with_other].
  - intros h this props l Hl Hin Hother. apply _addRetry_invalid.
    rewrite Hl. apply validateErrors_throw; [done | by apply wildcard_with_other].
  - intros fuel h this handler props l Hl Hin Hother. apply _addCatch_invalid.
    rewrite Hl. apply validateErrors_throw; [done | by apply wildcard_with_other].
  - intros h this s props Hs Hnone.
    eexists _, _, (storedRetry props). split_and!.
    + apply (_addRetry_valid h this s props Hs). by rewrite Hnone.
    + apply lookup_insert_eq.
    + done.
    + unfold storedRetry. simpl. by rewrite Hnone.
  - intros fuel h this s handler props h' r Hs Hnone Hrun.
    destruct (_addCatch_valid fuel h h' this handler s props r Hs) as (s' & Hs' & Hc);
      [by rewrite Hnone | done |].
    exists s', (storedCatch handler props). split_and!; [done | done | done |].
    unfold storedCatch. simpl. by rewrite Hnone.
Qed.

End Declarations.

(** ** Sorting by [compareErrors] *)

Lemma mapR_total {A B} (f : A → B) (xs : list A) :
  mapR (λ x, Ok (f x)) xs = Ok (f <$> xs).
Proof. induction xs as [|x xs IH]; simpl; [done | by rewrite IH]. Qed.

Lemma mapR_ok {A B} (f : A → result B) (xs : list A) (ys : list B) :
  mapR f xs = Ok ys ↔ Forall2 (λ x y, f x = Ok y) xs ys.
Proof.
  revert ys. induction xs as [|x xs IH]; intros ys; simpl.
  - split; [intros [= <-]; constructor | by intros ->%Forall2_nil_inv_l].
  - destruct (f x) as [y|e] eqn:Hx; simpl.
    + destruct (mapR f xs) as [ys'|e] eqn:Hxs; simpl.
      * split.
        -- intros [= <-]. constructor; [done | by apply IH].
        -- intros (y' & ys'' & Hy & Hys & ->)%Forall2_cons_inv_l.
           apply IH in Hys. congruence.
      * split; [done |].
        intros (y' & ys'' & Hy & Hys & ->)%Forall2_cons_inv_l.
        by apply IH in Hys.
    + split; [done |].
      intros (y' & ys'' & Hy & Hys & ->)%Forall2_cons_inv_l. congruence.
Qed.

Lemma mapR_total_on {A B} (f : A → result B) (xs : list A) :
  Forall (λ x, ∃ y, f x = Ok y) xs → ∃ ys, mapR f xs = Ok ys.
Proof.
  induction 1 as [|x xs [y Hy] _ [ys Hys]]; simpl; [eauto |].
  rewrite Hy. simpl. rewrite Hys. simpl. eauto.
Qed.

Section Sorting.
Context {host : Host} {T : Type} (key : T → option (list string)).

Lemma isWildcard_includesALL (x : T) :
  isWildcard key x ↔ includesALL (key x) = true.
Proof.
  unfold isWildcard. destruct (key x) as [l|]; simpl.
  - rewrite bool_decide_eq_true. split.
    + by intros (l' & [= <-] & Hin).
    + intros Hin. by exists l.
  - split; [by intros (l' & Heq & _) | done].
Qed.

(** The one test the sort makes: a rule compares below another exactly when
    it has no wildcard and the other has one. *)
Lemma byErrors_below (x y : T) :
  (byErrors key x y < 0)%Z ↔ ¬ isWildcard key x ∧ isWildcard key y.
Proof.
  rewrite !isWildcard_includesALL. unfold byErrors, compareErrors.
  destruct (includesALL (key x)), (includesALL (key y));
    (split;
     [ intros Hlt; try lia; (split; [discriminate | reflexivity])
     | intros [Hx Hy]; try lia; try discriminate; by destruct Hx ]).
Qed.

Lemma sort_insert_wildcard (x : T) (l : list T) :
  isWildcard key x → sort_insert (byErrors key) x l = l ++ [x].
Proof.
  intros Hx. induction l as [|y l IH]; simpl; [done |].
  destruct (Z.ltb_spec (byErrors key x y) 0) as [Hlt|_].
  - apply byErrors_below in Hlt. tauto.
  - by rewrite IH.
Qed.

Lemma sort_insert_plain (x : T) (ps ws : list T) :
  ¬ isWildcard key x →
  Forall (λ y, ¬ isWildcard key y) ps → Forall (isWildcard key) ws →
  sort_insert (byErrors key) x (ps ++ ws) = ps ++ x :: ws.
Proof.
  intros Hx Hps Hws. induction Hps as [|p ps Hp _ IH]; simpl.
  - destruct Hws as [|w ws Hw _]; simpl; [done |].
    destruct (Z.ltb_spec (byErrors key x w) 0) as [_|Hge]; [done |].
    assert (byErrors key x w < 0)%Z by (by apply byErrors_below). lia.
  - destruct (Z.ltb_spec (byErrors key x p) 0) as [Hlt|_].
    + apply byErrors_below in Hlt. tauto.
    + by rewrite IH.
Qed.

Lemma Array_sort_from (ps ws xs : list T) :
  Forall (λ y, ¬ isWildcard key y) ps → Forall (isWildcard key) ws →
  foldl (λ sorted x, sort_insert (byErrors key) x sorted) (ps ++ ws) xs =
  (ps ++ filter (λ x, ¬ isWildcard key x) xs) ++ (ws ++ filter (isWildcard key) xs).
Proof.
  revert ps ws. induction xs as [|x xs IH]; intros ps ws Hps Hws; simpl foldl.
  - by rewrite !filter_nil, !app_nil_r.
  - destruct (decide (isWildcard key x)) as [Hx|Hx].
    + rewrite sort_insert_wildcard by done.
      rewrite <- app_assoc, IH; [| done | apply Forall_app; by repeat constructor].
      rewrite (filter_cons_True (isWildcard key)) by done.
      rewrite (filter_cons_False (λ x, ¬ isWildcard key x)) by tauto.
      by rewrite <- (app_assoc ws).
    + rewrite sort_insert_plain by done.
      rewrite (cons_middle x ps ws), app_assoc.
      rewrite IH; [| apply Forall_app; by repeat constructor | done].
      rewrite (filter_cons_False (isWildcard key)) by done.
      rewrite (filter_cons_True (λ x, ¬ isWildcard key x)) by done.
      by rewrite <- (app_assoc ps).
Qed.

(** Sorting by [compareErrors] keeps the rules without wildcard in their
    order and puts the wildcard rules behind them, in their order. *)
Lemma Array_sort_byErrors (xs : list T) :
  Array_sort (byErrors key) xs = wildcardLast key xs.
Proof.
  exact (Array_sort_from [] [] xs (Forall_nil_2 _) (Forall_nil_2 _)).
Qed.

Lemma sortedBy_cons (x : T) (l : list T) :
  sortedBy (byErrors key) (x :: l) →
  sortedBy (byErrors key) l ∧ (isWildcard key x → Forall (isWildcard key) l).
Proof.
  intros Hsorted. split.
  - intros l1 a l2 b l3 ->. by apply (Hsorted (x :: l1) a l2 b l3).
  - intros Hx. apply Forall_forall. intros y Hy.
    apply list_elem_of_split in Hy as (l2 & l3 & ->).
    destruct (decide (isWildcard key y)) as [|Hny]; [done |].
    destruct (Hsorted [] x l2 y l3 eq_refl). by apply byErrors_below.
Qed.

Lemma sortedBy_wildcardLast (l : list T) :
  sortedBy (byErrors key) l → l = wildcardLast key l.
Proof.
  unfold wildcardLast. induction l as [|x l IH]; [done |].
  intros [Hl Hall]%sortedBy_cons. destruct (decide (isWildcard key x)) as [Hx|Hx].
  - rewrite (filter_cons_True (isWildcard key)) by done.
    rewrite (filter_cons_False (λ x, ¬ isWildcard key x)) by tauto.
    specialize (Hall Hx).
    assert (filter (λ x, ¬ isWildcard key x) l = []) as ->.
    { clear -Hall. induction Hall as [|y l Hy _ IH']; [done |].
      by rewrite filter_cons_False by tauto. }
    assert (filter (isWildcard key) l = l) as ->; [| done].
    clear -Hall. induction Hall as [|y l Hy _ IH']; [done |].
    by rewrite filter_cons_True, IH' by done.
  - rewrite (filter_cons_False (isWildcard key)) by done.
    rewrite (filter_cons_True (λ x, ¬ isWildcard key x)) by done.
    simpl. f_equal. by apply IH.
Qed.

(** The result of the sort is the only stable arrangement of the rules that
    is sorted: an arrangement that keeps the rules without wildcard in their
    order, the wildcard rules in theirs, and in which no rule compares below
    a rule in front of it, is the list [Array_sort] gives. *)
Lemma stable_order_unique (xs l : list T) :
  filter (λ x, ¬ isWildcard key x) l = filter (λ x, ¬ isWildcard key x) xs →
  filter (isWildcard key) l = filter (isWildcard key) xs →
  sortedBy (byErrors key) l →
  l = Array_sort (byErrors key) xs.
Proof.
  intros Hplain Hwild Hsorted. rewrite Array_sort_byErrors.
  rewrite (sortedBy_wildcardLast l Hsorted) at 1.
  unfold wildcardLast. by rewrite Hplain, Hwild.
Qed.

Lemma renderList_sorted {J} (mapFn : T → result J) (x : T) (xs : list T) :
  renderList (x :: xs) mapFn (Some (byErrors key)) =
  (Array_sort (byErrors key) (x :: xs),
   rbind (mapR mapFn (Array_sort (byErrors key) (x :: xs))) (λ l, Ok (Some l))).
Proof. reflexivity. Qed.

End Sorting.

Lemma sort_insert_Permutation {T} (sortFn : T → T → Z) (x : T) (l : list T) :
  sort_insert sortFn x l ≡ₚ x :: l.
Proof.
  induction l as [|y l IH]; simpl; [done |].
  case_match; [done |]. rewrite IH. apply Permutation_swap.
Qed.

Lemma Array_sort_Permutation {T} (sortFn : T → T → Z) (xs : list T) :
  Array_sort sortFn xs ≡ₚ xs.
Proof.
  unfold Array_sort.
  assert (∀ acc, foldl (λ sorted x, sort_insert sortFn x sorted) acc xs ≡ₚ acc ++ xs)
    as Hfold; [| by rewrite Hfold].
  induction xs as [|x xs IH]; intros acc; simpl; [by rewrite app_nil_r |].
  rewrite IH, sort_insert_Permutation. simpl. apply Permutation_middle.
Qed.

(** ** Rendered retry and catch lists *)

Section RenderedLists.
Context {host : Host}.

(** [renderCatch] reads the heap only for the identifier of the target. *)
Lemma renderCatch_heap_ext (h1 h2 : Heap) (q : QueryLanguage) (c : CatchTransition) :
  (∀ x, stateId <$> states h1 !! x = stateId <$> states h2 !! x) →
  renderCatch h1 q c = renderCatch h2 q c.
Proof.
  intros Hext. unfold renderCatch.
  destruct (renderJsonPath _) as [rp|e]; simpl; [| done].
  specialize (Hext (catch_next c)).
  destruct (states h1 !! catch_next c), (states h2 !! catch_next c);
    simplify_eq/=; by try rewrite Hext.
Qed.

(** One run of [renderRetryCatch], step by step. *)
Lemma renderRetryCatch_run (top : option QueryLanguage) (this : StateRef)
    (h : Heap) (s : State) :
  states h !! this = Some s →
  renderRetryCatch top this h =
  let q := _getActualQueryLanguage top (queryLanguage (props s)) in
  let r := renderList (retries s) (λ x, Ok (renderRetry x)) (Some retryOrder) in
  let h1 := set_states (<[this := set_retries r.1 s]> (states h)) h in
  match r.2 with
  | Throw e => (h1, Throw e)
  | Ok retry =>
      let c := renderList (catches s) (renderCatch h1 q) (Some catchOrder) in
      let h2 :=
        set_states (<[this := set_catches c.1 (set_retries r.1 s)]> (states h1)) h1 in
      match c.2 with
      | Throw e => (h2, Throw e)
      | Ok catch => (h2, Ok {| Retry := retry; Catch := catch |})
      end
  end.
Proof.
  intros Hs. unfold renderRetryCatch.
  rewrite hbind_unfold, (getState_Some _ _ _ Hs). cbv beta iota zeta.
  rewrite hbind_unfold, (modifyState_Some _ _ _ _ Hs).
  fold retryOrder. fold catchOrder.
  set (r := renderList (retries s) _ _).
  set (h1 := set_states _ h).
  rewrite hbind_unfold. unfold liftResult at 1.
  destruct (r.2) as [retry|e]; [| done].
  rewrite hbind_unfold.
  assert (states h1 !! this = Some (set_retries r.1 s)) as H1
    by apply lookup_insert_eq.
  rewrite hbind_unfold, (modifyState_Some _ _ _ _ H1).
  set (c := renderList (catches s) _ _).
  rewrite hbind_unfold. unfold liftResult at 1.
  by destruct (c.2).
Qed.

Lemma renderList_retries (rs : list RetryProps) :
  (renderList rs (λ x, Ok (renderRetry x)) (Some retryOrder)).2 =
  Ok (match rs with
      | [] => None
      | _ => Some (renderRetry <$> Array_sort retryOrder rs)
      end).
Proof.
  destruct rs as [|x xs]; [done |].
  unfold retryOrder. rewrite renderList_sorted. simpl snd.
  by rewrite mapR_total.
Qed.

(** C4: in the fragment [renderRetryCatch] returns, the retry list and the
    catch list are the renderings of the declared rules in this order: first
    the rules whose matcher list does not contain [Errors.ALL], in the order
    of their declaration, and after all of them the rules whose matcher list
    contains it, which keep their order too.  The call returns whenever
    each declared catch handler can be rendered. *)
Theorem renderRetryCatch_wildcard_last (top : option QueryLanguage)
    (this : StateRef) (h : Heap) (s : State) :
  states h !! this = Some s →
  (∀ h' frag,
     renderRetryCatch top this h = (h', Ok frag) →
     match Retry frag with
     | None => retries s = []
     | Some js =>
         retries s ≠ [] ∧
         js = renderRetry <$> wildcardLast retry_errors (retries s)
     end ∧
     match Catch frag with
     | None => catches s = []
     | Some js =>
         catches s ≠ [] ∧
         Forall2
           (λ c j,
              renderCatch h
                (_getActualQueryLanguage top (queryLanguage (props s))) c = Ok j)
           (wildcardLast (λ c, catch_errors (catch_props c)) (catches s)) js
     end) ∧
  (Forall
     (λ c, ∃ j,
        renderCatch h
          (_getActualQueryLanguage top (queryLanguage (props s))) c = Ok j)
     (catches s) →
   ∃ h' frag, renderRetryCatch top this h = (h', Ok frag)).
Proof.
  intros Hs. rewrite (renderRetryCatch_run top this h s Hs).
  cbv zeta. rewrite renderList_retries.
  set (h1 := set_states _ h).
  set (q := _getActualQueryLanguage top (queryLanguage (props s))).
  assert (∀ c, renderCatch h1 q c = renderCatch h q c) as Hext.
  { intros c. apply renderCatch_heap_ext.
    intros x. subst h1. simpl. destruct (decide (this = x)) as [<-|Hne].
    - by rewrite lookup_insert_eq, Hs.
    - by rewrite lookup_insert_ne. }
  destruct (catches s) as [|c cs] eqn:Hcs.
  - simpl. split; [| eauto].
    intros h' frag [= _ <-]. simpl. split; [| done].
    unfold retryOrder. rewrite Array_sort_byErrors. by destruct (retries s).
  - unfold catchOrder. rewrite renderList_sorted. simpl snd.
    rewrite Array_sort_byErrors. split.
    + destruct (mapR _ _) as [js|e] eqn:Hmap; simpl; [| done].
      intros h' frag [= _ <-]. simpl. split.
      * unfold retryOrder. rewrite Array_sort_byErrors. by destruct (retries s).
      * split; [done |].
        apply mapR_ok in Hmap. eapply Forall2_impl; [exact Hmap |].
        intros c' j <-. simpl. symmetry. apply Hext.
    + intros Hall.
      destruct (mapR_total_on (renderCatch h1 q)
                  (wildcardLast (λ c, catch_errors (catch_props c)) (c :: cs)))
        as [js ->]; [| simpl; eauto].
      apply Forall_forall. intros c' Hc'. rewrite Hext.
      apply (proj1 (Forall_forall _ _) Hall).
      rewrite <- Array_sort_byErrors in Hc'.
      by rewrite (Array_sort_Permutation _ (c :: cs)) in Hc'.
Qed.

(** C9: [renderList] returns [undefined], not an empty list, for an empty
    list, so a state without retry rules renders without [Retry] and a state
    without catch handlers renders without [Catch]; with neither, the
    fragment is empty. *)
Theorem renderRetryCatch_empty_absent :
  (∀ (T J : Type) (mapFn : T → result J) sortFn,
     renderList [] mapFn sortFn = ([], Ok None)) ∧
  (∀ top this h s h' frag,
     states h !! this = Some s →
     renderRetryCatch top this h = (h', Ok frag) →
     (retries s = [] → Retry frag = None) ∧
     (catches s = [] → Catch frag = None)) ∧
  (∀ top this h s,
     states h !! this = Some s → retries s = [] → catches s = [] →
     ∃ h', renderRetryCatch top this h = (h', Ok {| Retry := None; Catch := None |})).
Proof.
  split_and!.
  - done.
  - intros top this h s h' frag Hs.
    rewrite (renderRetryCatch_run top this h s Hs). cbv zeta.
    rewrite renderList_retries.
    destruct (renderList (catches s) _ _) as [cs' rc] eqn:Hc. simpl.
    destruct rc as [catch|e]; [| done].
    intros [= _ <-]. simpl. split.
    + by intros ->.
    + intros Hnil. rewrite Hnil in Hc. by injection Hc as _ <-.
  - intros top this h s Hs Hr Hc.
    rewrite (renderRetryCatch_run top this h s Hs). cbv zeta.
    rewrite Hr, Hc. simpl. eauto.
Qed.

End RenderedLists.

(** ** The comparator *)

Section Comparator.
Context {host : Host}.

(** C10: [compareErrors] is [1] as soon as its first argument contains the
    wildcard, also when the second does, and [0] when neither does; so two
    wildcard rules compare as [1] in both directions.  Two such rules can be
    declared: [validateErrors] looks at one rule at a time, and two calls of
    [_addRetry] without matchers store two wildcard rules. *)
Theorem compareErrors_not_antisymmetric :
  (∀ l b, ALL ∈ l → compareErrors (Some l) b = 1%Z) ∧
  (∀ a b, includesALL a = false → includesALL b = false →
          compareErrors a b = 0%Z) ∧
  (∀ la lb, ALL ∈ la → ALL ∈ lb →
            compareErrors (Some la) (Some lb) = 1%Z ∧
            compareErrors (Some lb) (Some la) = 1%Z) ∧
  (∀ h this s p1 p2,
     states h !! this = Some s →
     retry_errors p1 = None → retry_errors p2 = None →
     ∃ h' s' r1 r2,
       (_addRetry this p1 ;; _addRetry this p2) h = (h', Ok tt) ∧
       states h' !! this = Some s' ∧
       retries s' = retries s ++ [r1; r2] ∧
       compareErrors (retry_errors r1) (retry_errors r2) = 1%Z ∧
       compareErrors (retry_errors r2) (retry_errors r1) = 1%Z).
Proof.
  split_and!.
  - intros l b Hl. by apply compareErrors_wildcard_first, includesALL_Some.
  - apply compareErrors_no_wildcard.
  - intros la lb Ha Hb.
    split; by apply compareErrors_wildcard_first, includesALL_Some.
  - intros h this s p1 p2 Hs H1 H2.
    eexists _, _, (storedRetry p1), (storedRetry p2).
    assert (∀ p, retry_errors p = None →
                 includesALL (retry_errors (storedRetry p)) = true) as Hwild.
    { intros p Hp. unfold storedRetry. simpl retry_errors. rewrite Hp.
      apply includesALL_Some. simpl. apply list_elem_of_singleton. done. }
    split_and!.
    + rewrite hbind_unfold, (_addRetry_valid h this s p1 Hs) by (by rewrite H1).
      apply _addRetry_valid; [apply lookup_insert_eq | by rewrite H2].
    + apply lookup_insert_eq.
    + simpl. by rewrite <- app_assoc.
    + apply compareErrors_wildcard_first; auto.
    + apply compareErrors_wildcard_first; auto.
Qed.

End Comparator.

(** ** Examples on a small heap *)

Lemma compareErrors_not_antisymmetric_witness :
  compareErrors (host := sampleHost) (Some ["States.ALL"]) None = 1%Z ∧
  compareErrors (host := sampleHost) (Some ["States.Timeout"]) None = 0%Z ∧
  (compareErrors (host := sampleHost) (Some ["States.ALL"]) (Some ["States.ALL"]) = 1%Z ∧
   compareErrors (host := sampleHost) (Some ["States.ALL"]) (Some ["States.ALL"]) = 1%Z) ∧
  ∃ h' s' r1 r2,
    (_addRetry (host := sampleHost) 0 anyRetry ;;
     _addRetry (host := sampleHost) 0 anyRetry) threeStates = (h', Ok tt) ∧
    states h' !! 0 = Some s' ∧
    retries s' = [r1; r2] ∧
    compareErrors (host := sampleHost) (retry_errors r1) (retry_errors r2) = 1%Z ∧
    compareErrors (host := sampleHost) (retry_errors r2) (retry_errors r1) = 1%Z.
Proof.
  destruct (compareErrors_not_antisymmetric (host := sampleHost))
    as (Hfirst & Hnone & Hboth & Htwice).
  refine (conj _ (conj _ (conj _ _))).
  - apply Hfirst. vm_compute. left.
  - apply Hnone; reflexivity.
  - apply Hboth; vm_compute; left.
  - destruct (Htwice threeStates 0 (newState "A" "Stack/A" noProps) anyRetry anyRetry)
      as (h' & s' & r1 & r2 & Hrun & Hs' & Hrs & H12 & H21); [reflexivity..|].
    exists h', s', r1, r2. split_and!; done.
Defined.

Lemma wildcard_must_appear_alone_witness :
  validateErrors (host := sampleHost) (Some ["States.ALL"; "States.Timeout"])
    = Throw EAllMustAppearAlone ∧
  _addRetry (host := sampleHost) 0 (retryOn ["States.Timeout"; "States.ALL"]) threeStates
    = (threeStates, Throw EAllMustAppearAlone) ∧
  _addCatch (host := sampleHost) 3 0 1 (catchOn ["States.ALL"; "States.Timeout"]) threeStates
    = (threeStates, Throw EAllMustAppearAlone) ∧
  (∃ h' s' rule,
     _addRetry (host := sampleHost) 0 anyRetry threeStates = (h', Ok tt) ∧
     states h' !! 0 = Some s' ∧
     retries s' = [rule] ∧
     retry_errors rule = Some ["States.ALL"]) ∧
  (∃ s' rule,
     states (_addCatch (host := sampleHost) 3 0 1 anyCatch threeStates).1 !! 0 = Some s' ∧
     catches s' = [rule] ∧
     catch_next rule = 1 ∧
     catch_errors (catch_props rule) = Some ["States.ALL"]).
Proof.
  destruct (wildcard_must_appear_alone (host := sampleHost))
    as (Hv & Hretry & Hcatch & Hr & Hc).
  assert ((ALL (Host := sampleHost)) ∈ ["States.ALL"; "States.Timeout"]) as Hin1
    by (vm_compute; left).
  assert ((ALL (Host := sampleHost)) ∈ ["States.Timeout"; "States.ALL"]) as Hin2
    by (vm_compute; right; left).
  assert (∃ x, x ∈ ["States.ALL"; "States.Timeout"] ∧ x ≠ ALL (Host := sampleHost)) as Ho1.
  { exists "States.Timeout". split; [right; left | discriminate]. }
  assert (∃ x, x ∈ ["States.Timeout"; "States.ALL"] ∧ x ≠ ALL (Host := sampleHost)) as Ho2.
  { exists "States.Timeout". split; [left | discriminate]. }
  split_and!.
  - by apply Hv.
  - by eapply Hretry.
  - by eapply Hcatch.
  - destruct (Hr threeStates 0 (newState "A" "Stack/A" noProps) anyRetry)
      as (h' & s' & rule & Hrun & Hs' & Hrs & Hrule); [reflexivity..|].
    exists h', s', rule. split_and!; done.
  - destruct (Hc 3 threeStates 0 (newState "A" "Stack/A" noProps) 1 anyCatch
                (_addCatch (host := sampleHost) 3 0 1 anyCatch threeStates).1
                (_addCatch (host := sampleHost) 3 0 1 anyCatch threeStates).2)
      as (s' & rule & Hs' & Hcs & Hnext & Herr);
      [reflexivity | reflexivity | by destruct (_addCatch _ _ _ _ _) |].
    exists s', rule. split_and!; done.
Defined.

Example withRules_rendered :
  renderedMatchers (renderRetryCatch (host := sampleHost) None 0 withRules).2
  = Some (Some [Some ["States.Timeout"]; Some ["States.ALL"]],
          Some [(Some ["States.TaskFailed"], "C"); (Some ["States.ALL"], "B")]).
Proof. vm_compute. reflexivity. Qed.

Lemma renderRetryCatch_wildcard_last_witness :
  ∃ h' frag,
    renderRetryCatch (host := sampleHost) None 0 withWildcards = (h', Ok frag) ∧
    (map (λ j, (Retry_ErrorEquals j, Retry_MaxAttempts j)) <$> Retry frag) =
      Some [(Some ["States.Timeout"], Some 2%Z);
            (Some ["States.TaskFailed"], Some 4%Z);
            (Some ["States.ALL"], Some 1%Z);
            (Some ["States.ALL"], Some 3%Z);
            (Some ["States.ALL"], Some 5%Z)] ∧
    (map (λ j, (Catch_ErrorEquals j, Catch_Next j)) <$> Catch frag) =
      Some [(Some ["States.TaskFailed"], "C");
            (Some ["States.Timeout"], "B");
            (Some ["States.ALL"], "B");
            (Some ["States.ALL"], "C")].
Proof.
  destruct (states withWildcards !! 0) as [s|] eqn:Hs;
    [| vm_compute in Hs; discriminate].
  destruct (renderRetryCatch_wildcard_last (host := sampleHost)
              None 0 withWildcards s Hs) as [Horder Hreturns].
  vm_compute in Hs. injection Hs as <-.
  destruct Hreturns as (h' & frag & Hrun).
  { repeat constructor; eexists; vm_compute; reflexivity. }
  exists h', frag. split; [exact Hrun |].
  destruct (Horder h' frag Hrun) as [Hretry Hcatch]. split.
  - destruct (Retry frag) as [js|]; [| discriminate Hretry].
    destruct Hretry as [_ ->]. vm_compute. reflexivity.
  - destruct (Catch frag) as [js|]; [| discriminate Hcatch].
    destruct Hcatch as [_ Hjs]. apply mapR_ok in Hjs.
    vm_compute in Hjs. injection Hjs as <-. vm_compute. reflexivity.
Defined.

Lemma renderRetryCatch_empty_absent_witness :
  (∃ h' frag,
     renderRetryCatch (host := sampleHost) None 1 withRules = (h', Ok frag) ∧
     Retry frag = None ∧ Catch frag = None) ∧
  (∃ h', renderRetryCatch (host := sampleHost) (Some JSONATA) 2 threeStates
         = (h', Ok {| Retry := None; Catch := None |})).
Proof.
  destruct (renderRetryCatch_empty_absent (host := sampleHost))
    as (_ & Habsent & Hboth).
  split.
  - destruct (states withRules !! 1) as [s|] eqn:Hs;
      [| vm_compute in Hs; discriminate].
    destruct (renderRetryCatch (host := sampleHost) None 1 withRules)
      as [h' [frag|e]] eqn:Hrun; [| vm_compute in Hrun; discriminate].
    exists h', frag. split; [reflexivity |].
    assert (retries s = [] ∧ catches s = []) as [Hr Hc].
    { vm_compute in Hs. injection Hs as <-. split; reflexivity. }
    destruct (Habsent None 1 withRules s h' frag Hs Hrun) as [HR HC].
    split; [by apply HR | by apply HC].
  - apply (Hboth (Some JSONATA) 2 threeStates (newState "C" "Stack/C" noProps));
      reflexivity.
Defined.

(** ** Reachability *)

Section Reachability.
Context (h : Heap) (options : FindStateOptions).

Lemma outDegrees_delete (m : gmap nat State) (x : StateRef) (s : State) :
  m !! x = Some s →
  outDegrees options m = length (outgoingTransitions options s) + outDegrees options (delete x m).
Proof.
  intros Hx. unfold outDegrees.
  rewrite (map_fold_delete_L _ _ x s m); [done | | done].
  intros. lia.
Qed.

Lemma Set_add_new (x : StateRef) (v : list StateRef) :
  x ∉ v → Set_add x v = v ++ [x].
Proof. intros Hx. unfold Set_add. by rewrite bool_decide_eq_false_2. Qed.

Lemma Set_add_old (x : StateRef) (v : list StateRef) :
  x ∈ v → Set_add x v = v.
Proof. intros Hx. unfold Set_add. by rewrite bool_decide_eq_true_2. Qed.

Lemma elem_of_Set_add (x y : StateRef) (v : list StateRef) :
  y ∈ Set_add x v ↔ y ∈ v ∨ y = x.
Proof.
  unfold Set_add. case_bool_decide.
  - split; [by left | by intros [?| ->]].
  - rewrite elem_of_app, list_elem_of_singleton. done.
Qed.

Lemma unvisited_add (visited : list StateRef) (x : StateRef) :
  unvisited h (visited ++ [x]) = delete x (unvisited h visited).
Proof.
  apply map_eq. intros i. apply option_eq. intros s. unfold unvisited.
  rewrite lookup_delete_Some, !map_lookup_filter_Some. simpl.
  rewrite not_elem_of_app, list_elem_of_singleton. intuition congruence.
Qed.

Lemma unvisited_lookup (visited : list StateRef) (x : StateRef) (s : State) :
  states h !! x = Some s → x ∉ visited → unvisited h visited !! x = Some s.
Proof. intros. by apply map_lookup_filter_Some. Qed.

(** With one unit of fuel for every queued state and every transition of a
    state not yet visited, the loop of [findReachableStates] returns. *)
Lemma findReachableStates_loop_total (fuel : nat) (queue visited ret : list StateRef) :
  closedHeap h options →
  Forall (λ x, is_Some (states h !! x)) queue →
  length queue + outDegrees options (unvisited h visited) ≤ fuel →
  ∃ l, findReachableStates_loop fuel h options queue visited ret = Ok l.
Proof.
  intros Hclosed. revert queue visited ret.
  induction fuel as [|fuel IH]; intros queue visited ret Hq Hfuel.
  - destruct queue as [|x q]; simpl in *; [eauto | lia].
  - destruct queue as [|x q]; simpl; [eauto |].
    apply Forall_cons in Hq as [[s Hs] Hq]. simpl in Hfuel.
    case_bool_decide as Hv.
    + apply IH; [done | lia].
    + rewrite Hs, (Set_add_new _ _ Hv). apply IH.
      * apply Forall_app. split; [done |].
        apply Forall_forall. intros y Hy. apply (Hclosed x y). by exists s.
      * rewrite unvisited_add, length_app.
        pose proof (outDegrees_delete _ x s (unvisited_lookup _ _ _ Hs Hv)). lia.
Qed.

Lemma findReachableEndStates_loop_total (fuel : nat) (queue visited ret : list StateRef) :
  closedHeap h options →
  Forall (λ x, is_Some (states h !! x)) queue →
  length queue + outDegrees options (unvisited h visited) ≤ fuel →
  ∃ l, findReachableEndStates_loop fuel h options queue visited ret = Ok l.
Proof.
  intros Hclosed. revert queue visited ret.
  induction fuel as [|fuel IH]; intros queue visited ret Hq Hfuel.
  - destruct queue as [|x q]; simpl in *; [eauto | lia].
  - destruct queue as [|x q]; simpl; [eauto |].
    apply Forall_cons in Hq as [[s Hs] Hq]. simpl in Hfuel.
    case_bool_decide as Hv.
    + apply IH; [done | lia].
    + rewrite Hs, (Set_add_new _ _ Hv).
      pose proof (outDegrees_delete _ x s (unvisited_lookup _ _ _ Hs Hv)).
      case_bool_decide.
      * apply IH.
        -- apply Forall_app. split; [done |].
           apply Forall_forall. intros y Hy. apply (Hclosed x y). by exists s.
        -- rewrite unvisited_add, length_app. lia.
      * apply IH; [done |]. rewrite unvisited_add. lia.
Qed.

(** The visited set only grows. *)
Lemma findReachableStates_loop_grows (fuel : nat) (queue visited l : list StateRef) :
  findReachableStates_loop fuel h options queue visited visited = Ok l →
  visited ⊆ l.
Proof.
  revert queue visited. induction fuel as [|fuel IH]; intros queue visited;
    destruct queue as [|x q]; simpl.
  - by intros [= <-].
  - done.
  - by intros [= <-].
  - case_bool_decide as Hv; [apply IH |].
    destruct (states h !! x) as [s|]; [| done].
    intros Hrun%IH. intros y Hy. apply Hrun, elem_of_Set_add. by left.
Qed.

(** What the loop of [findReachableStates] returns, given that the states
    seen so far are reachable h options and that the transitions of a visited state
    lead to states that are visited or queued. *)
Lemma findReachableStates_loop_inv (start : StateRef) (fuel : nat)
    (queue visited l : list StateRef) :
  findReachableStates_loop fuel h options queue visited visited = Ok l →
  NoDup visited →
  (∀ x, x ∈ queue ∨ x ∈ visited → reachable h options start x) →
  (∀ x y, x ∈ visited → edge h options x y → y ∈ visited ∨ y ∈ queue) →
  NoDup l ∧
  (∀ x, x ∈ queue → x ∈ l) ∧
  (∀ x, x ∈ l → reachable h options start x) ∧
  (∀ x y, x ∈ l → edge h options x y → y ∈ l).
Proof.
  revert queue visited. induction fuel as [|fuel IH]; intros queue visited;
    destruct queue as [|x q]; simpl; try done.
  - intros [= <-] Hnd Hreach Hclosed. split_and!; [done | | |].
    + intros x Hx. by apply elem_of_nil in Hx.
    + intros x Hx. apply Hreach. by right.
    + intros x y Hx Hxy. destruct (Hclosed x y Hx Hxy) as [?|Hy]; [done |].
      by apply elem_of_nil in Hy.
  - intros [= <-] Hnd Hreach Hclosed. split_and!; [done | | |].
    + intros x Hx. by apply elem_of_nil in Hx.
    + intros x Hx. apply Hreach. by right.
    + intros x y Hx Hxy. destruct (Hclosed x y Hx Hxy) as [?|Hy]; [done |].
      by apply elem_of_nil in Hy.
  - case_bool_decide as Hv.
    + intros Hrun Hnd Hreach Hclosed.
      pose proof (findReachableStates_loop_grows _ _ _ _ Hrun) as Hsub.
      destruct (IH q visited Hrun Hnd) as (Hndl & Hq & Hr & Hc).
      * intros y [Hy|Hy]; apply Hreach; [left; by right | by right].
      * intros y z Hy Hyz. destruct (Hclosed y z Hy Hyz) as [?|Hz]; [by left |].
        apply elem_of_cons in Hz as [->|Hz]; [by left | by right].
      * split_and!; [done | | done | done].
        intros y [->|Hy]%elem_of_cons; [by apply Hsub | by apply Hq].
    + destruct (states h !! x) as [s|] eqn:Hs; [| done].
      rewrite (Set_add_new _ _ Hv).
      intros Hrun Hnd Hreach Hclosed.
      pose proof (findReachableStates_loop_grows _ _ _ _ Hrun) as Hsub.
      destruct (IH (q ++ outgoingTransitions options s) (visited ++ [x]) Hrun)
        as (Hndl & Hq & Hr & Hc).
      * apply NoDup_app. split_and!; [done | | apply NoDup_singleton].
        intros y Hy ->%list_elem_of_singleton. done.
      * intros y [[Hy|Hy]%elem_of_app|[Hy|Hy]%elem_of_app].
        -- apply Hreach. left. by right.
        -- eapply rtc_r; [apply Hreach; left; left |]. by exists s.
        -- apply Hreach. by right.
        -- apply list_elem_of_singleton in Hy as ->. apply Hreach. left. left.
      * intros y z [Hy|Hy]%elem_of_app Hyz.
        -- destruct (Hclosed y z Hy Hyz) as [Hz|Hz].
           ++ left. apply elem_of_app. by left.
           ++ apply elem_of_cons in Hz as [->|Hz].
              ** left. apply elem_of_app. right. by apply list_elem_of_singleton.
              ** right. apply elem_of_app. by left.
        -- apply list_elem_of_singleton in Hy as ->.
           destruct Hyz as (s' & Hs' & Hz). rewrite Hs in Hs'. injection Hs' as <-.
           right. apply elem_of_app. by right.
      * split_and!; [done | | done | done].
        intros y [->|Hy]%elem_of_cons.
        -- apply Hsub, elem_of_app. right. by apply list_elem_of_singleton.
        -- apply Hq, elem_of_app. by left.
Qed.

(** The two traversals visit the same states; the end states are the
    visited states without selected transitions. *)
Lemma findReachableEndStates_loop_spec (fuel : nat)
    (queue visited ret : list StateRef) :
  match findReachableStates_loop fuel h options queue visited visited,
        findReachableEndStates_loop fuel h options queue visited ret with
  | Ok lv, Ok le =>
      ∀ x, x ∈ le ↔ (x ∈ ret ∨ (x ∈ lv ∧ (x ∉ visited) ∧ isEndState h options x))
  | Throw e1, Throw e2 => e1 = e2
  | _, _ => False
  end.
Proof.
  revert queue visited ret. induction fuel as [|fuel IH]; intros queue visited ret;
    destruct queue as [|x q]; simpl; try done.
  - intros y. tauto.
  - intros y. tauto.
  - case_bool_decide as Hv; [apply IH |].
    destruct (states h !! x) as [s|] eqn:Hs; [| done].
    rewrite (Set_add_new _ _ Hv).
    case_bool_decide as Hout.
    + specialize (IH (q ++ outgoingTransitions options s) (visited ++ [x]) ret).
      destruct (findReachableStates_loop _ _ _ _ _ _) as [lv|e1],
               (findReachableEndStates_loop _ _ _ _ _ _) as [le|e2]; try done.
      intros y. rewrite IH, not_elem_of_app, list_elem_of_singleton.
      split; [tauto |].
      intros [?|(Hy & Hyv & Hend)]; [by left | right].
      split_and!; [done | done | | done].
      intros ->. destruct Hend as (s' & Hs' & Hnil).
      rewrite Hs in Hs'. injection Hs' as <-. rewrite Hnil in Hout.
      simpl in Hout. lia.
    + assert (outgoingTransitions options s = []) as Hnil.
      { destruct (outgoingTransitions options s); [done |]. simpl in Hout. lia. }
      rewrite Hnil, app_nil_r.
      specialize (IH q (visited ++ [x]) (Set_add x ret)).
      destruct (findReachableStates_loop _ _ _ _ _ _) as [lv|e1] eqn:Hlv,
               (findReachableEndStates_loop _ _ _ _ _ _) as [le|e2]; try done.
      apply findReachableStates_loop_grows in Hlv.
      intros y. rewrite IH, elem_of_Set_add, not_elem_of_app, list_elem_of_singleton.
      split.
      * intros [[?| ->]|(Hy & [Hyv Hne] & Hend)]; [by left | | by right].
        right. split_and!; [| done | by exists s].
        apply Hlv, elem_of_app. right. by apply list_elem_of_singleton.
      * intros [?|(Hy & Hyv & Hend)]; [by left; left |].
        destruct (decide (y = x)) as [->|Hne]; [left; by right | by right].
Qed.

End Reachability.

Lemma unvisited_nil (h : Heap) : unvisited h [] = states h.
Proof.
  apply map_eq. intros i. apply option_eq. intros s. unfold unvisited.
  rewrite map_lookup_filter_Some. simpl. split; [by intros [? _] |].
  intros Hs. split; [done |]. apply not_elem_of_nil.
Qed.

Lemma elem_of_option_list (o : option nat) (y : nat) :
  y ∈ option_list o ↔ o = Some y.
Proof.
  destruct o as [x|]; simpl.
  - rewrite list_elem_of_singleton. split; congruence.
  - rewrite elem_of_nil. split; [done | discriminate].
Qed.

(** The transitions [outgoingTransitions] selects. *)
Lemma elem_of_outgoingTransitions (options : FindStateOptions) (s : State) (y : StateRef) :
  y ∈ outgoingTransitions options s ↔
  _next s = Some y ∨
  defaultChoice s = Some y ∨
  (∃ c, c ∈ choices s ∧ choice_next c = y) ∨
  (includeErrorHandlers options = Some true ∧ ∃ c, c ∈ catches s ∧ catch_next c = y).
Proof.
  unfold outgoingTransitions, followsErrorHandlers.
  rewrite !elem_of_app, !elem_of_option_list.
  assert (∀ {A} (f : A → nat) (l : list A), y ∈ map f l ↔ ∃ c, c ∈ l ∧ f c = y) as Hmap.
  { intros A f l. change (map f l) with (f <$> l). rewrite list_elem_of_fmap.
    split; intros (c & ? & ?); exists c; by split. }
  rewrite Hmap.
  destruct (includeErrorHandlers options) as [[]|]; simpl.
  - rewrite Hmap. intuition congruence.
  - rewrite elem_of_nil. intuition congruence.
  - rewrite elem_of_nil. intuition congruence.
Qed.

Lemma sameTransitions_outgoing (options : FindStateOptions) (s s' : State) :
  sameTransitions s s' →
  outgoingTransitions options s = outgoingTransitions options s'.
Proof. intros (H1 & H2 & H3 & H4). unfold outgoingTransitions. by rewrite H1, H2, H3, H4. Qed.

(** The traversals read nothing but the transitions of the states: not the
    branches, the iteration or the processor of a state, and no graph. *)
Lemma findReachableStates_loop_ext (h h' : Heap) (options : FindStateOptions)
    (fuel : nat) (queue visited ret : list StateRef) :
  (∀ x, option_Forall2 sameTransitions (states h !! x) (states h' !! x)) →
  findReachableStates_loop fuel h options queue visited ret =
  findReachableStates_loop fuel h' options queue visited ret.
Proof.
  intros Hsame. revert queue visited ret.
  induction fuel as [|fuel IH]; intros [|x q] visited ret; simpl; try done.
  case_bool_decide; [apply IH |].
  destruct (Hsame x) as [s s' Hss|]; [| done].
  rewrite (sameTransitions_outgoing options s s' Hss). apply IH.
Qed.

Lemma findReachableEndStates_loop_ext (h h' : Heap) (options : FindStateOptions)
    (fuel : nat) (queue visited ret : list StateRef) :
  (∀ x, option_Forall2 sameTransitions (states h !! x) (states h' !! x)) →
  findReachableEndStates_loop fuel h options queue visited ret =
  findReachableEndStates_loop fuel h' options queue visited ret.
Proof.
  intros Hsame. revert queue visited ret.
  induction fuel as [|fuel IH]; intros [|x q] visited ret; simpl; try done.
  case_bool_decide; [apply IH |].
  destruct (Hsame x) as [s s' Hss|]; [| done].
  rewrite (sameTransitions_outgoing options s s' Hss).
  case_bool_decide; apply IH.
Qed.

(** With enough fuel both traversals return, and they return the reachable
    states and the reachable states without transitions. *)
Lemma findReachable_correct (h : Heap) (options : FindStateOptions)
    (start : StateRef) (fuel : nat) :
  closedHeap h options →
  is_Some (states h !! start) →
  reachFuel h options ≤ fuel →
  ∃ l e,
    findReachableStates fuel h start options = Ok l ∧
    findReachableEndStates fuel h start options = Ok e ∧
    NoDup l ∧
    (∀ x, x ∈ l ↔ reachable h options start x) ∧
    (∀ x, x ∈ e ↔ reachable h options start x ∧ isEndState h options x).
Proof.
  intros Hclosed Hstart Hfuel. unfold findReachableStates, findReachableEndStates.
  destruct (findReachableStates_loop_total h options fuel [start] [] [] Hclosed)
    as [l Hl].
  { by apply Forall_singleton. }
  { rewrite unvisited_nil. unfold reachFuel in Hfuel. simpl. lia. }
  pose proof (findReachableEndStates_loop_spec h options fuel [start] [] []) as Hend.
  rewrite Hl in Hend.
  destruct (findReachableEndStates_loop fuel h options [start] [] []) as [e|];
    [| done].
  destruct (findReachableStates_loop_inv h options start fuel [start] [] l Hl)
    as (Hnd & Hq & Hreach & Hcl).
  { apply NoDup_nil_2. }
  { intros x [->%list_elem_of_singleton|Hx]; [apply rtc_refl |].
    by apply elem_of_nil in Hx. }
  { intros x y Hx. by apply elem_of_nil in Hx. }
  assert (∀ x, x ∈ l ↔ reachable h options start x) as Hl_spec.
  { intros x. split; [apply Hreach |].
    revert x. apply (rtc_ind_r (λ x, x ∈ l) start).
    - apply Hq. by apply list_elem_of_singleton.
    - intros y z _ Hyz IH. by apply (Hcl y z). }
  exists l, e. split_and!; [done | done | done | done |].
  intros x. rewrite Hend, Hl_spec. rewrite elem_of_nil.
  pose proof (not_elem_of_nil x). tauto.
Qed.

(** On a cycle of two states the traversals stop after three iterations. *)
Lemma findReachable_two_cycle (h : Heap) (options : FindStateOptions)
    (a b : StateRef) (sa sb : State) (fuel : nat) :
  a ≠ b →
  states h !! a = Some sa → states h !! b = Some sb →
  outgoingTransitions options sa = [b] →
  outgoingTransitions options sb = [a] →
  3 ≤ fuel →
  findReachableStates fuel h a options = Ok [a; b] ∧
  findReachableEndStates fuel h a options = Ok [].
Proof.
  intros Hne Ha Hb Hoa Hob Hfuel.
  destruct fuel as [|[|[|fuel]]]; [lia.. |].
  assert (bool_decide (b ∈ [a]) = false) as Hba.
  { apply bool_decide_eq_false_2. intros ?%list_elem_of_singleton. congruence. }
  assert (bool_decide (a ∈ [a; b]) = true) as Haab.
  { apply bool_decide_eq_true_2. left. }
  unfold findReachableStates, findReachableEndStates. simpl.
  rewrite Ha, Hoa. simpl. unfold Set_add. simpl.
  rewrite Hba, Hb, Hob. simpl. rewrite Haab.
  by destruct fuel.
Qed.

(** [closedHeap] can be checked by running over the states. *)
Lemma closedHeap_check (h : Heap) (options : FindStateOptions) :
  map_Forall
    (λ _ s, Forall (λ y, is_Some (states h !! y)) (outgoingTransitions options s))
    (states h) →
  closedHeap h options.
Proof.
  intros Hall x y (s & Hs & Hy).
  specialize (Hall x s Hs). simpl in Hall.
  rewrite Forall_forall in Hall. by apply Hall.
Qed.

(** C3: on a heap in which every transition leads to a state, and with
    fuel for one iteration per transition plus one, [findReachableStates]
    and [findReachableEndStates] return, cycles or not: the first the
    states reachable from [start] (each once), the second those of them
    that have no outgoing transition.  On a cycle [a -> b -> a] they return
    [[a; b]] and [[]].  The transitions followed are the next state, the
    default choice, the choices and, only when [includeErrorHandlers] is
    true, the catches; the result does not depend on anything else on the
    heap, in particular not on branches, iteration or processor. *)
Theorem findReachable_terminates :
  (∀ h options start fuel,
     closedHeap h options →
     is_Some (states h !! start) →
     reachFuel h options ≤ fuel →
     ∃ l e,
       findReachableStates fuel h start options = Ok l ∧
       findReachableEndStates fuel h start options = Ok e ∧
       NoDup l ∧
       (∀ x, x ∈ l ↔ reachable h options start x) ∧
       (∀ x, x ∈ e ↔ reachable h options start x ∧ isEndState h options x)) ∧
  (∀ h options a b sa sb fuel,
     a ≠ b →
     states h !! a = Some sa → states h !! b = Some sb →
     outgoingTransitions options sa = [b] →
     outgoingTransitions options sb = [a] →
     3 ≤ fuel →
     findReachableStates fuel h a options = Ok [a; b] ∧
     findReachableEndStates fuel h a options = Ok []) ∧
  (∀ options s y,
     y ∈ outgoingTransitions options s ↔
     _next s = Some y ∨
     defaultChoice s = Some y ∨
     (∃ c, c ∈ choices s ∧ choice_next c = y) ∨
     (includeErrorHandlers options = Some true ∧
      ∃ c, c ∈ catches s ∧ catch_next c = y)) ∧
  (∀ h h' options start fuel,
     (∀ x, option_Forall2 sameTransitions (states h !! x) (states h' !! x)) →
     findReachableStates fuel h start options =
       findReachableStates fuel h' start options ∧
     findReachableEndStates fuel h start options =
       findReachableEndStates fuel h' start options).
Proof.
  split_and!.
  - apply findReachable_correct.
  - apply findReachable_two_cycle.
  - apply elem_of_outgoingTransitions.
  - intros h h' options start fuel Hsame. split.
    + by apply findReachableStates_loop_ext.
    + by apply findReachableEndStates_loop_ext.
Qed.

Example cycleHeap_reachable :
  findReachableStates 3 cycleHeap 0 defaultFindStateOptions = Ok [0; 1] ∧
  findReachableEndStates 3 cycleHeap 0 defaultFindStateOptions = Ok [] ∧
  findReachableStates 4 cycleHeap 0 withErrorHandlers = Ok [0; 1; 2] ∧
  findReachableEndStates 4 cycleHeap 0 withErrorHandlers = Ok [2] ∧
  findReachableStates 2 cycleHeap 0 defaultFindStateOptions = Throw EOutOfFuel.
Proof. vm_compute. done. Qed.

Lemma findReachable_terminates_witness :
  (∃ l e,
     findReachableStates 5 cycleHeap 0 withErrorHandlers = Ok l ∧
     findReachableEndStates 5 cycleHeap 0 withErrorHandlers = Ok e ∧
     NoDup l ∧
     (∀ x, x ∈ l ↔ reachable cycleHeap withErrorHandlers 0 x) ∧
     (∀ x, x ∈ e ↔ reachable cycleHeap withErrorHandlers 0 x ∧
                    isEndState cycleHeap withErrorHandlers x)) ∧
  (findReachableStates 3 cycleHeap 0 defaultFindStateOptions = Ok [0; 1] ∧
   findReachableEndStates 3 cycleHeap 0 defaultFindStateOptions = Ok []) ∧
  (findReachableStates 3 cycleHeap 0 defaultFindStateOptions =
     findReachableStates 3 (set_graphs ∅ cycleHeap) 0 defaultFindStateOptions ∧
   findReachableEndStates 3 cycleHeap 0 defaultFindStateOptions =
     findReachableEndStates 3 (set_graphs ∅ cycleHeap) 0 defaultFindStateOptions).
Proof.
  destruct findReachable_terminates as (Hcorrect & Hcycle & _ & Hext).
  refine (conj _ (conj _ _)).
  - apply Hcorrect.
    + apply closedHeap_check. apply (bool_decide_unpack _). vm_compute. exact I.
    + vm_compute. eauto.
    + vm_compute. lia.
  - destruct (states cycleHeap !! 0) as [sa|] eqn:Ha;
      [| vm_compute in Ha; discriminate].
    destruct (states cycleHeap !! 1) as [sb|] eqn:Hb;
      [| vm_compute in Hb; discriminate].
    apply (Hcycle cycleHeap defaultFindStateOptions 0 1 sa sb 3);
      [lia | done | done | | | lia].
    + vm_compute in Ha. injection Ha as <-. reflexivity.
    + vm_compute in Hb. injection Hb as <-. reflexivity.
  - apply (Hext cycleHeap (set_graphs ∅ cycleHeap) defaultFindStateOptions 0 3).
    intros x. simpl. destruct (states cycleHeap !! x); constructor. done.
Defined.

(** ** Propagation of binding *)

Lemma boundTo_heap_le (h h' : Heap) (x : StateRef) (g : GraphRef) :
  heap_le h h' → boundTo h x g → boundTo h' x g.
Proof.
  intros Hle (s & Hs & Hg).
  destruct (heap_le_lookup _ _ _ _ Hle Hs) as (s' & Hs' & _ & Hkeep).
  exists s'. split; [done | by apply Hkeep].
Qed.

Lemma getState_ok_inv (this : StateRef) (h h' : Heap) (s : State) :
  getState this h = (h', Ok s) → h' = h ∧ states h !! this = Some s.
Proof.
  unfold getState. destruct (states h !! this); [| done]. by intros [= <- <-].
Qed.

(** A call of [bindToGraph] that returns leaves its state bound to the
    graph. *)
Lemma bindToGraph_ok_bound (fuel : nat) (this : StateRef) (g : GraphRef) (h h' : Heap) :
  bindToGraph fuel this g h = (h', Ok tt) → boundTo h' this g.
Proof.
  rewrite bindToGraph_unfold.
  intros (h0 & s & [-> Hs]%getState_ok_inv & Hrun)%hbind_ok_inv.
  destruct (containingGraph s) as [g0|] eqn:Hg.
  - case_decide as Heq; [| done]. injection Hrun as <-. subst g0. by exists s.
  - destruct fuel as [|fuel]; [done |].
    rewrite hbind_unfold, (modifyState_Some _ _ _ _ Hs) in Hrun.
    apply (respects_bind_tail fuel this g s) in Hrun;
      [| intros x; apply bindToGraph_respects].
    eapply boundTo_heap_le; [exact Hrun |].
    eexists. split; [apply lookup_insert_eq | done].
Qed.

(** A call of [bindToGraph] on an unbound state that returns leaves every
    state of [incomingStates] and every target of a transition bound to the
    graph. *)
Lemma bindToGraph_ok_neighbours (fuel : nat) (this : StateRef) (g : GraphRef)
    (h h' : Heap) (s : State) (x : StateRef) :
  states h !! this = Some s →
  containingGraph s = None →
  bindToGraph fuel this g h = (h', Ok tt) →
  x ∈ incomingStates s ∨
    x ∈ outgoingTransitions {| includeErrorHandlers := Some true |} s →
  boundTo h' x g.
Proof.
  intros Hs Hg. rewrite bindToGraph_unfold, hbind_unfold, (getState_Some _ _ _ Hs), Hg.
  destruct fuel as [|fuel]; [done |].
  rewrite hbind_unfold, (modifyState_Some _ _ _ _ Hs).
  set (h1 := set_states _ h).
  intros (h2 & [] & _ & Hrun)%hbind_ok_inv.
  apply hbind_ok_inv in Hrun as (h3 & [] & Hin & Hrun).
  apply hbind_ok_inv in Hrun as (h4 & [] & Hout & Hrun).
  assert (heap_le h4 h') as H4.
  { revert Hrun. apply (respects_bind heap_le).
    - apply respects_forEach; [apply _ |]. intros b _.
      by apply respects_liftHeap_states.
    - intros _. apply (respects_bind heap_le).
      + destruct (iteration s);
          [by apply respects_liftHeap_states | apply respects_ret, _].
      + intros _. destruct (processor s);
          [by apply respects_liftHeap_states | apply respects_ret, _]. }
  assert (heap_le h3 h4) as H3.
  { revert Hout. apply (respects_forEach heap_le).
    intros y _. apply bindToGraph_respects. }
  intros [Hx|Hx].
  - destruct (forEach_ok_elem heap_le _ _ _ _ x
                (λ y, bindToGraph_respects fuel y g) Hin Hx)
      as (ha & hb & _ & Hcall & Hb).
    apply bindToGraph_ok_bound in Hcall.
    eapply boundTo_heap_le; [| exact Hcall]. by repeat (etrans; [eassumption |]).
  - destruct (forEach_ok_elem heap_le _ _ _ _ x
                (λ y, bindToGraph_respects fuel y g) Hout Hx)
      as (ha & hb & _ & Hcall & Hb).
    apply bindToGraph_ok_bound in Hcall.
    eapply boundTo_heap_le; [| exact Hcall]. by etrans.
Qed.

(** The common tail of [makeNext], [addChoice] and [_addCatch] on an
    unbound state: record the transition with [f], register the source with
    the target, and bind nothing. *)
Lemma declare_unbound (fuel : nat) (f : State → State) (a b : StateRef)
    (sa sb : State) (h : Heap) :
  (∀ s, containingGraph (f s) = containingGraph s) →
  states h !! a = Some sa → states h !! b = Some sb →
  containingGraph sa = None →
  ∃ h' sa' sb',
    (modifyState a f ;;
     modifyState b (addIncoming a) ;;
     s ← getState a;
     match containingGraph s with
     | Some g => bindToGraph fuel b g
     | None => ret tt
     end) h = (h', Ok tt) ∧
    states h' !! a = Some sa' ∧ states h' !! b = Some sb' ∧
    a ∈ incomingStates sb' ∧
    containingGraph sa' = None ∧
    containingGraph sb' = containingGraph sb ∧
    (∀ o, outgoingTransitions o sa' = outgoingTransitions o (f sa)).
Proof.
  intros Hf Ha Hb Hg.
  rewrite hbind_unfold, (modifyState_Some _ _ _ _ Ha).
  set (h1 := set_states _ h).
  assert (∃ sb1, states h1 !! b = Some sb1 ∧
                 containingGraph sb1 = containingGraph sb) as (sb1 & Hb1 & Hgb).
  { subst h1. simpl. destruct (decide (a = b)) as [->|Hne].
    - rewrite lookup_insert_eq. eexists. split; [done |].
      rewrite Hf. congruence.
    - rewrite lookup_insert_ne by done. eauto. }
  rewrite hbind_unfold, (modifyState_Some _ _ _ _ Hb1).
  set (h2 := set_states _ h1).
  assert (states h2 !! b = Some (addIncoming a sb1)) as Hb2
    by apply lookup_insert_eq.
  assert (∃ sa2, states h2 !! a = Some sa2 ∧ containingGraph sa2 = None ∧
                 ∀ o, outgoingTransitions o sa2 = outgoingTransitions o (f sa))
    as (sa2 & Ha2 & Hga & Hout).
  { destruct (decide (a = b)) as [->|Hne].
    - exists (addIncoming b sb1). split; [done |].
      subst h1. simpl in Hb1. rewrite lookup_insert_eq in Hb1.
      injection Hb1 as <-. split; [simpl; by rewrite Hf | done].
    - exists (f sa). subst h2 h1. simpl.
      rewrite lookup_insert_ne, lookup_insert_eq by done.
      split; [done |]. split; [by rewrite Hf | done]. }
  rewrite hbind_unfold, (getState_Some _ _ _ Ha2), Hga.
  exists h2, sa2, (addIncoming a sb1). split_and!; try done.
  simpl. apply elem_of_app. right. by apply list_elem_of_singleton.
Qed.

(** Binding either end of a link binds the other end. *)
Lemma linked_propagates (h : Heap) (a b : StateRef) :
  linked h a b →
  ∀ fuel G h',
    (bindToGraph fuel a G h = (h', Ok tt) → boundTo h' b G) ∧
    (bindToGraph fuel b G h = (h', Ok tt) → boundTo h' a G).
Proof.
  intros (sa & sb & Ha & Hb & Hga & Hgb & Hout & Hin) fuel G h'. split; intros Hrun.
  - eapply (bindToGraph_ok_neighbours fuel a G h h' sa b); eauto.
  - eapply (bindToGraph_ok_neighbours fuel b G h h' sb a); eauto.
Qed.

Lemma makeNext_links (fuel : nat) (h : Heap) (a b : StateRef) (sa : State) :
  states h !! a = Some sa → _next sa = None →
  unbound h a → unbound h b →
  ∃ h', makeNext fuel a b h = (h', Ok tt) ∧ linked h' a b.
Proof.
  intros Ha Hnext (sa0 & Ha0 & Hga) (sb & Hb & Hgb).
  rewrite Ha in Ha0. injection Ha0 as <-.
  destruct (declare_unbound fuel (set_next (Some b)) a b sa sb h)
    as (h' & sa' & sb' & Hrun & Ha' & Hb' & Hin & Hga' & Hgb' & Hout); try done.
  exists h'. split.
  - unfold makeNext. by rewrite hbind_unfold, (getState_Some _ _ _ Ha), Hnext.
  - exists sa', sb'. split_and!; try done; [congruence |].
    rewrite Hout. apply elem_of_outgoingTransitions. by left.
Qed.

Lemma addChoice_links (fuel : nat) (h : Heap) (a b : StateRef)
    (condition : Condition) (o : ChoiceTransitionOptions) :
  unbound h a → unbound h b →
  ∃ h', addChoice fuel a condition b o h = (h', Ok tt) ∧ linked h' a b.
Proof.
  intros (sa & Ha & Hga) (sb & Hb & Hgb).
  destruct (declare_unbound fuel
              (λ s, set_choices
                      (choices s ++
                       [{| choice_condition := condition; choice_next := b;
                           choice_options := o |}]) s) a b sa sb h)
    as (h' & sa' & sb' & Hrun & Ha' & Hb' & Hin & Hga' & Hgb' & Hout); try done.
  exists h'. split; [exact Hrun |].
  exists sa', sb'. split_and!; try done; [congruence |].
  rewrite Hout. apply elem_of_outgoingTransitions. right. right. left.
  exists {| choice_condition := condition; choice_next := b; choice_options := o |}.
  split; [| reflexivity]. simpl. apply elem_of_app. right.
  by apply list_elem_of_singleton.
Qed.

Lemma _addCatch_links {host : Host} (fuel : nat) (h : Heap) (a b : StateRef)
    (props : CatchProps) :
  validateErrors (catch_errors props) = Ok tt →
  unbound h a → unbound h b →
  ∃ h', _addCatch fuel a b props h = (h', Ok tt) ∧ linked h' a b.
Proof.
  intros Hv (sa & Ha & Hga) (sb & Hb & Hgb).
  destruct (declare_unbound fuel
              (λ s, set_catches (catches s ++ [storedCatch b props]) s) a b sa sb h)
    as (h' & sa' & sb' & Hrun & Ha' & Hb' & Hin & Hga' & Hgb' & Hout); try done.
  exists h'. split.
  - unfold _addCatch. rewrite hbind_unfold, Hv. exact Hrun.
  - exists sa', sb'. split_and!; try done; [congruence |].
    rewrite Hout. apply elem_of_outgoingTransitions. right. right. right.
    split; [done |]. exists (storedCatch b props). split; [| done].
    simpl. apply elem_of_app. right. by apply list_elem_of_singleton.
Qed.

(** [makeDefault] records the target and nothing else: the target does not
    learn about the source. *)
Lemma makeDefault_run (h : Heap) (a b : StateRef) (sa : State) :
  states h !! a = Some sa → defaultChoice sa = None →
  makeDefault a b h =
    (set_states (<[a := set_defaultChoice (Some b) sa]> (states h)) h, Ok tt).
Proof.
  intros Ha Hd. unfold makeDefault.
  by rewrite hbind_unfold, (getState_Some _ _ _ Ha), Hd, (modifyState_Some _ _ _ _ Ha).
Qed.

(** Binding the source of a default choice binds its target. *)
Lemma makeDefault_propagates_forward (h : Heap) (a b : StateRef) (sa : State)
    (fuel : nat) (G : GraphRef) (h' : Heap) :
  states h !! a = Some sa → defaultChoice sa = None → containingGraph sa = None →
  bindToGraph fuel a G (makeDefault a b h).1 = (h', Ok tt) →
  boundTo h' b G.
Proof.
  intros Ha Hd Hg. rewrite (makeDefault_run h a b sa Ha Hd). simpl. intros Hrun.
  eapply (bindToGraph_ok_neighbours fuel a G _ h' (set_defaultChoice (Some b) sa) b);
    [| | exact Hrun |].
  - apply lookup_insert_eq.
  - done.
  - right. apply elem_of_outgoingTransitions. right. by left.
Qed.

(** ** Fuel that suffices for binding *)

Lemma forEach_good {A} (P : result unit → Prop) (R : relation Heap) `{!PreOrder R}
    (xs : list A) (f : A → HeapM unit) (h0 h h' : Heap) (r : result unit) :
  P (Ok tt) →
  (∀ x, respects R (f x)) →
  R h0 h →
  (∀ x ha hb r, x ∈ xs → R h0 ha → f x ha = (hb, r) → P r) →
  forEach xs f h = (h', r) → P r.
Proof.
  intros Hok Hf. revert h. induction xs as [|x xs IH]; intros h H0 Hcall; simpl.
  - by intros [= _ <-].
  - intros [(h1 & [] & Hx & Hrest)|(e & Hx & ->)]%hbind_inv.
    + apply (IH h1); [| | done].
      * etrans; [done | by eapply Hf].
      * intros y ha hb r' Hy. apply Hcall. by right.
    + eapply (Hcall x h h'); [left | done | done].
Qed.

Lemma elem_of_unboundStates (h : Heap) (x : StateRef) :
  x ∈ unboundStates h ↔ unbound h x.
Proof.
  unfold unboundStates, unbound. rewrite elem_of_dom. unfold is_Some.
  split; intros (s & Hs); exists s.
  - by apply map_lookup_filter_Some in Hs.
  - by apply map_lookup_filter_Some.
Qed.

Lemma unboundStates_heap_le (h h' : Heap) :
  heap_le h h' → unboundStates h' ⊆ unboundStates h.
Proof.
  intros Hle x. rewrite !elem_of_unboundStates. intros (s' & Hs' & Hg').
  destruct (heap_le_lookup_inv _ _ _ _ Hle Hs') as (s & Hs & _ & Hkeep).
  exists s. split; [done |].
  destruct (containingGraph s) as [g|] eqn:Hg; [| done].
  rewrite (Hkeep g eq_refl) in Hg'. done.
Qed.

Lemma state_le_outgoing (o : FindStateOptions) (s s' : State) :
  state_le s s' → outgoingTransitions o s' = outgoingTransitions o s.
Proof. intros [-> _]. done. Qed.

Lemma heap_le_is_Some (h h' : Heap) (x : StateRef) :
  heap_le h h' → is_Some (states h !! x) → is_Some (states h' !! x).
Proof.
  intros Hle [s Hs]. destruct (heap_le_lookup _ _ _ _ Hle Hs) as (s' & -> & _). eauto.
Qed.

Lemma closedRefs_heap_le (h h' : Heap) :
  heap_le h h' → closedRefs h → closedRefs h'.
Proof.
  intros Hle Hclosed x s' y Hs' Hy.
  destruct (heap_le_lookup_inv _ _ _ _ Hle Hs') as (s & Hs & Hss).
  apply (heap_le_is_Some h h' y Hle). apply (Hclosed x s y Hs).
  rewrite (state_le_outgoing _ _ _ Hss) in Hy.
  destruct (state_le_fields _ _ Hss) as (_ & _ & _ & _ & _ & Hinc & _).
  by rewrite Hinc in Hy.
Qed.

(** X19: with one unit of fuel per unbound state, on a heap whose
    references lead to states, [bindToGraph] returns or throws its "already
    in" error, as the source does, also on cyclic transitions: it never
    stops for lack of fuel.  Each nested call that does anything binds a
    state that was unbound. *)
Theorem bindToGraph_enough_fuel (fuel : nat) (h h' : Heap) (this : StateRef)
    (g : GraphRef) (r : result unit) :
  closedRefs h →
  is_Some (states h !! this) →
  size (unboundStates h) ≤ fuel →
  bindToGraph fuel this g h = (h', r) →
  bindOutcome r.
Proof.
  revert h h' this r. induction fuel as [|fuel IH];
    intros h h' this r Hclosed [s Hs] Hsize;
    rewrite bindToGraph_unfold, hbind_unfold, (getState_Some _ _ _ Hs).
  - destruct (containingGraph s) as [g0|] eqn:Hg.
    + case_decide; intros [= _ <-]; [by left | right; eauto].
    + assert (this ∈ unboundStates h) as Hin
        by (apply elem_of_unboundStates; by exists s).
      assert (unboundStates h ≡ ∅) as Hempty by (apply size_empty_iff; lia).
      rewrite Hempty in Hin. by apply not_elem_of_empty in Hin.
  - destruct (containingGraph s) as [g0|] eqn:Hg.
    + case_decide; intros [= _ <-]; [by left | right; eauto].
    + rewrite hbind_unfold, (modifyState_Some _ _ _ _ Hs).
      set (h1 := set_states _ h).
      assert (heap_le h h1) as H01 by (by apply heap_le_bind_state).
      assert (size (unboundStates h1) ≤ fuel) as Hsize1.
      { assert (unboundStates h1 ⊂ unboundStates h) as Hsub.
        { pose proof (unboundStates_heap_le _ _ H01) as Hsub.
          assert (this ∉ unboundStates h1) as Hout.
          { rewrite elem_of_unboundStates. intros (s1 & Hs1 & Hg1).
            subst h1. simpl in Hs1. rewrite lookup_insert_eq in Hs1.
            injection Hs1 as <-. done. }
          assert (this ∈ unboundStates h) as Hin
            by (apply elem_of_unboundStates; by exists s).
          split; [done |]. intros Hback. by apply Hout, Hback. }
        apply subset_size in Hsub. lia. }
      assert (∀ x ha hb r',
                x ∈ incomingStates s ∨
                  x ∈ outgoingTransitions {| includeErrorHandlers := Some true |} s →
                heap_le h1 ha →
                bindToGraph fuel x g ha = (hb, r') → bindOutcome r') as Hcall.
      { intros x ha hb r' Hx Ha. apply IH.
        - apply (closedRefs_heap_le h); [by etrans | done].
        - apply (heap_le_is_Some h); [by etrans |]. by apply (Hclosed this s).
        - pose proof (subseteq_size _ _ (unboundStates_heap_le _ _ Ha)). lia. }
      intros [(h2 & [] & H2 & Hrun)|(e & He & _)]%hbind_inv; [| done].
      assert (heap_le h1 h2) as H12.
      { revert H2. by apply respects_liftHeap_states. }
      apply hbind_inv in Hrun as [(h3 & [] & H3 & Hrun)|(e & He & ->)].
      2:{ eapply (forEach_good bindOutcome heap_le); [by left | | exact H12 | | exact He].
          - intros x. apply bindToGraph_respects.
          - intros x ha hb r' Hx. apply Hcall. by left. }
      assert (heap_le h1 h3) as H13.
      { etrans; [exact H12 |]. revert H3. apply (respects_forEach heap_le).
        intros x _. apply bindToGraph_respects. }
      apply hbind_inv in Hrun as [(h4 & [] & H4 & Hrun)|(e & He & ->)].
      2:{ eapply (forEach_good bindOutcome heap_le); [by left | | exact H13 | | exact He].
          - intros x. apply bindToGraph_respects.
          - intros x ha hb r' Hx. apply Hcall. by right. }
      left. clear -Hrun.
      apply hbind_inv in Hrun as [(h5 & [] & H5 & Hrun)|(e & He & ->)].
      2:{ exfalso. revert He. generalize (branches s). intros bs. revert h4.
          induction bs as [|b bs IHb]; intros h4; simpl; [done |].
          rewrite hbind_unfold. simpl. apply IHb. }
      apply hbind_inv in Hrun as [(h6 & [] & H6 & Hrun)|(e & He & ->)].
      2:{ by destruct (iteration s). }
      destruct (processor s); by injection Hrun as _ <-.
Qed.

(** ** Transitions and binding *)

(** X20: a transition declared between two unbound states by [makeNext],
    [addChoice] or [_addCatch] carries a later binding in both directions;
    one declared by [makeDefault] carries it from the source to the
    target. *)
Theorem declared_transitions_propagate {host : Host} (h : Heap) (a b : StateRef) :
  unbound h a → unbound h b →
  (∀ fuel sa, states h !! a = Some sa → _next sa = None →
     ∃ h1, makeNext fuel a b h = (h1, Ok tt) ∧ propagatesBothWays h1 a b) ∧
  (∀ fuel condition o,
     ∃ h1, addChoice fuel a condition b o h = (h1, Ok tt) ∧
           propagatesBothWays h1 a b) ∧
  (∀ fuel props, validateErrors (catch_errors props) = Ok tt →
     ∃ h1, _addCatch fuel a b props h = (h1, Ok tt) ∧
           propagatesBothWays h1 a b) ∧
  (∀ sa, states h !! a = Some sa → defaultChoice sa = None →
     ∃ h1, makeDefault a b h = (h1, Ok tt) ∧
           ∀ fuel G h', bindToGraph fuel a G h1 = (h', Ok tt) → boundTo h' b G).
Proof.
  intros Ha Hb. split_and!.
  - intros fuel sa Hsa Hnext.
    destruct (makeNext_links fuel h a b sa Hsa Hnext Ha Hb) as (h1 & Hrun & Hlink).
    exists h1. split; [done |]. intros ???. by apply linked_propagates.
  - intros fuel condition o.
    destruct (addChoice_links fuel h a b condition o Ha Hb) as (h1 & Hrun & Hlink).
    exists h1. split; [done |]. intros ???. by apply linked_propagates.
  - intros fuel props Hv.
    destruct (_addCatch_links fuel h a b props Hv Ha Hb) as (h1 & Hrun & Hlink).
    exists h1. split; [done |]. intros ???. by apply linked_propagates.
  - intros sa Hsa Hd. destruct Ha as (sa' & Hsa' & Hg).
    rewrite Hsa in Hsa'. injection Hsa' as <-.
    exists (makeDefault a b h).1. split.
    + by rewrite (makeDefault_run h a b sa Hsa Hd).
    + intros fuel G h'. by apply (makeDefault_propagates_forward h a b sa).
Qed.

(** C1 at its failing input.  ["A"] and ["B"] are unbound and ["A"] gets
    ["B"] as default choice.  Binding ["A"] to graph [7] binds ["B"], but
    binding ["B"] to graph [7] returns and leaves ["A"] in no graph:
    [makeDefault] does not add ["A"] to the [incomingStates] of ["B"].
    When the same transition is declared by [makeNext], binding ["B"] does
    bind ["A"]. *)
Theorem makeDefault_binding_not_propagated_back :
  let declared := (makeDefault 0 1 threeStates).1 in
  (makeDefault 0 1 threeStates).2 = Ok tt ∧
  (incomingStates <$> states declared !! 1) = Some [] ∧
  (bindToGraph 3 0 7 declared).2 = Ok tt ∧
  graphOf (bindToGraph 3 0 7 declared).1 1 = Some 7 ∧
  (bindToGraph 3 1 7 declared).2 = Ok tt ∧
  graphOf (bindToGraph 3 1 7 declared).1 1 = Some 7 ∧
  graphOf (bindToGraph 3 1 7 declared).1 0 = None ∧
  graphOf (bindToGraph 3 1 7 (makeNext 3 0 1 threeStates).1).1 0 = Some 7.
Proof. vm_compute. by split_and!. Qed.

(** * Further properties *)

(** ** What a call of [bindToGraph] does to the heap *)

Global Instance bindsOnly_preorder (G : GraphRef) : PreOrder (bindsOnly G).
Proof.
  split.
  - intros h. split; [reflexivity | by left].
  - intros h1 h2 h3 [H12 B12] [H23 B23]. split; [by etrans |].
    intros x g Hx. destruct (B23 x g Hx) as [H2|?]; [| by right].
    by apply B12.
Qed.

Lemma bindsOnly_same_states (G : GraphRef) (h h' : Heap) :
  states h = states h' → bindsOnly G h h'.
Proof.
  intros Heq. split; [by apply heap_le_same_states |].
  intros x g (s & Hs & Hg). left. exists s. by rewrite Heq.
Qed.

Lemma respects_liftHeap_bindsOnly (G : GraphRef) (f : Heap → Heap) :
  (∀ h, states (f h) = states h) → respects (bindsOnly G) (liftHeap f).
Proof.
  intros Hf h h' r [= <- _]. apply bindsOnly_same_states. by rewrite Hf.
Qed.

Lemma bindToGraph_bindsOnly (fuel : nat) (this : StateRef) (G : GraphRef) :
  respects (bindsOnly G) (bindToGraph fuel this G).
Proof.
  revert this. induction fuel as [|fuel IH]; intros this;
    rewrite bindToGraph_unfold.
  - apply respects_bind; [apply _ | apply respects_getState, _ |].
    intros s. repeat case_match;
      first [apply respects_ret, _ | apply respects_throw, _].
  - intros h h' r. unfold getState at 1. rewrite hbind_unfold.
    destruct (states h !! this) as [s|] eqn:Hs;
      [| intros [= <- _]; reflexivity].
    destruct (containingGraph s) as [g|] eqn:Hg.
    + case_decide; intros [= <- _]; reflexivity.
    + rewrite hbind_unfold, (modifyState_Some _ _ _ _ Hs).
      set (h1 := set_states _ h). intros Hrun.
      assert (bindsOnly G h h1) as H01.
      { split; [by apply heap_le_bind_state |].
        intros x g (sx & Hx & Hgx). subst h1. simpl in Hx.
        destruct (decide (this = x)) as [<-|Hne].
        - rewrite lookup_insert_eq in Hx. injection Hx as <-.
          right. simpl in Hgx. congruence.
        - rewrite lookup_insert_ne in Hx by done. left. by exists sx. }
      etrans; [exact H01 |]. revert Hrun.
      repeat (apply respects_bind; [apply _ | | intros _]);
        try (apply respects_forEach; [apply _ |]; intros; try apply IH);
        repeat case_match;
        try (apply respects_liftHeap_bindsOnly; done);
        apply respects_ret; apply _.
Qed.

(** X1: whether it returns or throws, [bindToGraph(G)] creates and removes
    no state, changes no field of a state but [containingGraph], leaves
    every bound state in its graph, and binds states to [G] only. *)
Theorem bindToGraph_only_binds_to_graph (fuel : nat) (this : StateRef)
    (G : GraphRef) (h : Heap) (x : StateRef) :
  match states h !! x, states (bindToGraph fuel this G h).1 !! x with
  | Some s, Some s' =>
      s' = set_containingGraph (containingGraph s') s ∧
      (containingGraph s' = containingGraph s ∨
       containingGraph s = None ∧ containingGraph s' = Some G)
  | None, None => True
  | _, _ => False
  end.
Proof.
  destruct (bindToGraph fuel this G h) as [h' r] eqn:Hrun. simpl.
  destruct (bindToGraph_bindsOnly fuel this G h h' r Hrun) as [Hle Honly].
  destruct (states h !! x) as [s|] eqn:Hs.
  - destruct (heap_le_lookup _ _ _ _ Hle Hs) as (s' & Hs' & Heq & Hkeep).
    rewrite Hs'. split; [done |].
    destruct (containingGraph s) as [g|] eqn:Hg.
    + left. by apply Hkeep.
    + destruct (containingGraph s') as [g'|] eqn:Hg'; [| by left].
      right. split; [done |].
      destruct (Honly x g') as [(s0 & Hs0 & Hg0)| ->]; [by exists s' | | done].
      rewrite Hs in Hs0. injection Hs0 as <-. congruence.
  - specialize (Hle x). rewrite Hs in Hle. by inversion Hle.
Qed.

(** The outcome of the part of [bindToGraph] that follows the assignment of
    [containingGraph] is the outcome of one of the nested calls, or a normal
    return. *)
Lemma bindToGraph_tail_outcome (P : result unit → Prop) (fuel : nat)
    (this : StateRef) (G : GraphRef) (s : State) (h1 h' : Heap) (r : result unit) :
  P (Ok tt) →
  (∀ x ha hb r',
     x ∈ incomingStates s ∨
       x ∈ outgoingTransitions {| includeErrorHandlers := Some true |} s →
     bindsOnly G h1 ha →
     bindToGraph fuel x G ha = (hb, r') → P r') →
  (whenBoundToGraph this G ;;
   forEach (incomingStates s) (λ incoming, bindToGraph fuel incoming G) ;;
   forEach (outgoingTransitions {| includeErrorHandlers := Some true |} s)
     (λ outgoing, bindToGraph fuel outgoing G) ;;
   forEach (branches s) (λ branch, liftHeap (registerSuperGraph branch G)) ;;
   match iteration s with
   | Some it => liftHeap (registerSuperGraph it G)
   | None => ret tt
   end ;;
   match processor s with
   | Some p => liftHeap (registerSuperGraph p G)
   | None => ret tt
   end) h1 = (h', r) →
  P r.
Proof.
  intros Hok Hcall.
  intros [(h2 & [] & H2 & Hrun)|(e & He & _)]%hbind_inv; [| done].
  assert (bindsOnly G h1 h2) as H12.
  { revert H2. by apply respects_liftHeap_bindsOnly. }
  apply hbind_inv in Hrun as [(h3 & [] & H3 & Hrun)|(e & He & ->)].
  2:{ eapply (forEach_good P (bindsOnly G)); [done | | exact H12 | | exact He].
      - intros x. apply bindToGraph_bindsOnly.
      - intros x ha hb r' Hx. apply Hcall. by left. }
  assert (bindsOnly G h1 h3) as H13.
  { etrans; [exact H12 |]. revert H3. apply (respects_forEach (bindsOnly G)).
    intros x _. apply bindToGraph_bindsOnly. }
  apply hbind_inv in Hrun as [(h4 & [] & H4 & Hrun)|(e & He & ->)].
  2:{ eapply (forEach_good P (bindsOnly G)); [done | | exact H13 | | exact He].
      - intros x. apply bindToGraph_bindsOnly.
      - intros x ha hb r' Hx. apply Hcall. by right. }
  assert (r = Ok tt) as ->; [| done]. clear -Hrun.
  apply hbind_inv in Hrun as [(h5 & [] & H5 & Hrun)|(e & He & ->)].
  2:{ exfalso. revert He. generalize (branches s). intros bs. revert h4.
      induction bs as [|b bs IHb]; intros h4; simpl; [done |].
      rewrite hbind_unfold. simpl. apply IHb. }
  apply hbind_inv in Hrun as [(h6 & [] & H6 & Hrun)|(e & He & ->)].
  2:{ by destruct (iteration s). }
  destruct (processor s); by injection Hrun as _ <-.
Qed.

Lemma state_le_stateId (s s' : State) : state_le s s' → stateId s' = stateId s.
Proof. intros [-> _]. done. Qed.

(** X2: when [bindToGraph(G)] throws its "already in" error, the error
    names [G] as the requested graph, another graph as the current one, and
    the identifier of a state that was in that other graph before the
    call. *)
Theorem bindToGraph_conflict_is_real (fuel : nat) (this : StateRef) (G : GraphRef)
    (h h' : Heap) (id : string) (g1 g2 : GraphRef) :
  bindToGraph fuel this G h = (h', Throw (EAlreadyInGraph id g1 g2)) →
  g1 = G ∧ g2 ≠ G ∧
  ∃ x s, states h !! x = Some s ∧ containingGraph s = Some g2 ∧ stateId s = id.
Proof.
  set (P := λ (h0 : Heap) (r : result unit),
         ∀ id g1 g2, r = Throw (EAlreadyInGraph id g1 g2) →
           g1 = G ∧ g2 ≠ G ∧
           ∃ x s, states h0 !! x = Some s ∧ containingGraph s = Some g2 ∧
                  stateId s = id).
  assert (∀ h0 ha r, bindsOnly G h0 ha → P ha r → P h0 r) as Hback.
  { intros h0 ha r [Hle Honly] HP id' g1' g2' Hr.
    destruct (HP id' g1' g2' Hr) as (-> & Hne & x & s & Hs & Hg & Hid).
    split_and!; [done | done |].
    destruct (Honly x g2') as [(s0 & Hs0 & Hg0)|?]; [by exists s | | done].
    exists x, s0. split_and!; [done | done |].
    destruct (heap_le_lookup _ _ _ _ Hle Hs0) as (s1 & Hs1 & Hss).
    rewrite Hs in Hs1. injection Hs1 as <-.
    by rewrite <- (state_le_stateId _ _ Hss). }
  cut (∀ r, bindToGraph fuel this G h = (h', r) → P h r).
  { intros Hall Hrun. by eapply Hall. }
  revert this h h'. induction fuel as [|fuel IH]; intros this h h' r;
    rewrite bindToGraph_unfold, hbind_unfold; unfold getState at 1;
    (destruct (states h !! this) as [s|] eqn:Hs; [| by intros [= _ <-]]);
    (destruct (containingGraph s) as [g0|] eqn:Hg;
      [case_decide as Hgg; intros [= _ <-]; [done |];
       intros id' g1' g2' [= <- <- <-]; split_and!; eauto |]).
  - by intros [= _ <-].
  - rewrite hbind_unfold, (modifyState_Some _ _ _ _ Hs).
    set (h1 := set_states _ h). intros Hrun.
    assert (bindsOnly G h h1) as H01.
    { split; [by apply heap_le_bind_state |].
      intros x g (sx & Hx & Hgx). subst h1. simpl in Hx.
      destruct (decide (this = x)) as [<-|Hne].
      - rewrite lookup_insert_eq in Hx. injection Hx as <-.
        right. simpl in Hgx. congruence.
      - rewrite lookup_insert_ne in Hx by done. left. by exists sx. }
    eapply (bindToGraph_tail_outcome (P h) fuel this G s h1 h' r);
      [done | | exact Hrun].
    intros x ha hb r' _ Ha Hcall.
    apply (Hback h ha); [by etrans |]. by eapply IH.
Qed.

Example conflictHeap_bind :
  (bindToGraph 3 0 7 conflictHeap).2 = Throw (EAlreadyInGraph "C" 7 8) ∧
  graphOf (bindToGraph 3 0 7 conflictHeap).1 0 = Some 7 ∧
  graphOf (bindToGraph 3 0 7 conflictHeap).1 1 = None ∧
  graphOf (bindToGraph 3 0 7 conflictHeap).1 2 = Some 8.
Proof. vm_compute. by split_and!. Qed.

Lemma bindToGraph_conflict_is_real_witness :
  ∃ h', bindToGraph 3 0 7 conflictHeap = (h', Throw (EAlreadyInGraph "C" 7 8)) ∧
        (7 = 7 ∧ 8 ≠ 7 ∧
         ∃ x s, states conflictHeap !! x = Some s ∧
                containingGraph s = Some 8 ∧ stateId s = "C").
Proof.
  destruct (bindToGraph 3 0 7 conflictHeap) as [h' r] eqn:Hrun.
  assert (r = Throw (EAlreadyInGraph "C" 7 8)) as ->.
  { change r with (h', r).2. rewrite <- Hrun. vm_compute. reflexivity. }
  exists h'. split; [reflexivity |].
  exact (bindToGraph_conflict_is_real 3 0 7 conflictHeap h' "C" 7 8 Hrun).
Defined.

(** X3: [bindToGraph] does not undo its own assignment: a call on an unbound
    state that has fuel leaves that state in the graph even when a nested
    call throws. *)
Theorem bindToGraph_keeps_assignment (fuel : nat) (this : StateRef) (G : GraphRef)
    (h : Heap) :
  unbound h this →
  boundTo (bindToGraph (S fuel) this G h).1 this G.
Proof.
  intros (s & Hs & Hg).
  destruct (bindToGraph (S fuel) this G h) as [h' r] eqn:Hrun. simpl.
  rewrite bindToGraph_unfold, hbind_unfold, (getState_Some _ _ _ Hs), Hg in Hrun.
  rewrite hbind_unfold, (modifyState_Some _ _ _ _ Hs) in Hrun.
  apply (respects_bind_tail fuel this G s) in Hrun;
    [| intros x; apply bindToGraph_respects].
  eapply boundTo_heap_le; [exact Hrun |].
  eexists. split; [apply lookup_insert_eq | done].
Qed.

Lemma bindToGraph_keeps_assignment_witness :
  unbound conflictHeap 0 ∧
  (bindToGraph 3 0 7 conflictHeap).2 = Throw (EAlreadyInGraph "C" 7 8) ∧
  boundTo (bindToGraph 3 0 7 conflictHeap).1 0 7.
Proof.
  assert (unbound conflictHeap 0) as Hu.
  { eexists. split; [vm_compute; reflexivity | reflexivity]. }
  split; [exact Hu |]. split; [vm_compute; reflexivity |].
  exact (bindToGraph_keeps_assignment 2 0 7 conflictHeap Hu).
Defined.

Lemma bindToGraph_enough_fuel_witness :
  closedRefs cycleHeap ∧
  is_Some (states cycleHeap !! 0) ∧
  size (unboundStates cycleHeap) ≤ 3 ∧
  bindOutcome (bindToGraph 3 0 7 cycleHeap).2.
Proof.
  assert (closedRefs cycleHeap) as Hclosed.
  { assert (map_Forall
              (λ _ s, Forall (λ y, is_Some (states cycleHeap !! y))
                        (incomingStates s ++
                         outgoingTransitions {| includeErrorHandlers := Some true |} s))
              (states cycleHeap)) as Hall.
    { apply (bool_decide_unpack _). vm_compute. exact I. }
    intros x s y Hs Hy. specialize (Hall x s Hs). simpl in Hall.
    rewrite Forall_forall in Hall. apply Hall, elem_of_app. done. }
  assert (is_Some (states cycleHeap !! 0)) as Hsome by (vm_compute; eauto).
  assert (size (unboundStates cycleHeap) ≤ 3) as Hsize by (vm_compute; lia).
  split_and!; [done | done | done |].
  destruct (bindToGraph 3 0 7 cycleHeap) as [h' r] eqn:Hrun.
  exact (bindToGraph_enough_fuel 3 cycleHeap h' 0 7 r Hclosed Hsome Hsize Hrun).
Defined.

(** ** Binding along chains of transitions *)

Section RespectsOk.
Context (R : relation Heap) `{!PreOrder R}.

Lemma respectsOk_weaken {A} (m : HeapM A) : respects R m → respectsOk R m.
Proof. intros Hm h h' a. apply Hm. Qed.

Lemma respectsOk_bind {A B} (m : HeapM A) (k : A → HeapM B) :
  respectsOk R m → (∀ a, respectsOk R (k a)) → respectsOk R (m ≫= k).
Proof.
  intros Hm Hk h h' b (h1 & a & H1 & H2)%hbind_ok_inv.
  etrans; [by eapply Hm | by eapply Hk].
Qed.

Lemma respectsOk_forEach {A} (xs : list A) (f : A → HeapM unit) :
  (∀ x, x ∈ xs → respectsOk R (f x)) → respectsOk R (forEach xs f).
Proof.
  induction xs as [|x xs IH]; intros Hf; simpl.
  - intros h h' a [= <- _]. reflexivity.
  - apply respectsOk_bind.
    + apply Hf. left.
    + intros _. apply IH. intros y Hy. apply Hf. by right.
Qed.

End RespectsOk.

Lemma neighbour_heap_le (h h' : Heap) (x y : StateRef) :
  heap_le h h' → neighbour h x y ↔ neighbour h' x y.
Proof.
  intros Hle. split.
  - intros (s & Hs & Hy).
    destruct (heap_le_lookup _ _ _ _ Hle Hs) as (s' & Hs' & Hss).
    exists s'. split; [done |].
    rewrite (state_le_outgoing _ _ _ Hss).
    destruct (state_le_fields _ _ Hss) as (_ & _ & _ & _ & _ & -> & _). done.
  - intros (s' & Hs' & Hy).
    destruct (heap_le_lookup_inv _ _ _ _ Hle Hs') as (s & Hs & Hss).
    exists s. split; [done |].
    rewrite (state_le_outgoing _ _ _ Hss) in Hy.
    destruct (state_le_fields _ _ Hss) as (_ & _ & _ & _ & _ & Hinc & _).
    by rewrite Hinc in Hy.
Qed.

Lemma settled_heap_le (G : GraphRef) (h h' : Heap) (x : StateRef) :
  heap_le h h' → settled G h x → settled G h' x.
Proof.
  intros Hle [Hx Hn]. split; [by eapply boundTo_heap_le |].
  intros y Hy. eapply boundTo_heap_le; [done |].
  apply Hn. by apply (neighbour_heap_le h h').
Qed.

Global Instance bindsFully_preorder (G : GraphRef) : PreOrder (bindsFully G).
Proof.
  split.
  - intros h. split; [reflexivity | done].
  - intros h1 h2 h3 [H12 B12] [H23 B23]. split; [by etrans |].
    intros x Hx Hnot.
    destruct Hx as (s1 & Hs1 & Hg1).
    destruct (heap_le_lookup _ _ _ _ H12 Hs1) as (s2 & Hs2 & _).
    destruct (containingGraph s2) as [g|] eqn:Hg2.
    + eapply settled_heap_le; [exact H23 |]. apply B12; [by exists s1 |].
      intros (s & Hs & Hg). rewrite Hs2 in Hs. injection Hs as <-. congruence.
    + apply B23; [by exists s2 | done].
Qed.

Lemma bindsFully_same_states (G : GraphRef) (h h' : Heap) :
  states h = states h' → bindsFully G h h'.
Proof.
  intros Heq. split; [by apply heap_le_same_states |].
  intros x (s & Hs & Hg) Hnot. destruct Hnot. exists s. by rewrite <- Heq.
Qed.

Lemma respectsOk_liftHeap_bindsFully (G : GraphRef) (f : Heap → Heap) :
  (∀ h, states (f h) = states h) → respectsOk (bindsFully G) (liftHeap f).
Proof.
  intros Hf h h' a [= <- _]. apply bindsFully_same_states. by rewrite Hf.
Qed.

(** Every state that a returning call of [bindToGraph(G)] has bound is in
    [G] together with all the states it names. *)
Lemma bindToGraph_bindsFully (fuel : nat) (this : StateRef) (G : GraphRef) :
  respectsOk (bindsFully G) (bindToGraph fuel this G).
Proof.
  revert this. induction fuel as [|fuel IH]; intros this h h' [] Hrun.
  - pose proof Hrun as Hrun'.
    rewrite bindToGraph_unfold in Hrun'.
    apply hbind_ok_inv in Hrun' as (h0 & s & [-> Hs]%getState_ok_inv & Hrest).
    destruct (containingGraph s); [| done].
    case_decide; [| done]. injection Hrest as <-. reflexivity.
  - pose proof Hrun as Hrun'.
    rewrite bindToGraph_unfold in Hrun'.
    apply hbind_ok_inv in Hrun' as (h0 & s & [-> Hs]%getState_ok_inv & Hrest).
    destruct (containingGraph s) as [g|] eqn:Hg.
    { case_decide; [| done]. injection Hrest as <-. reflexivity. }
    rewrite hbind_unfold, (modifyState_Some _ _ _ _ Hs) in Hrest.
    set (h1 := set_states _ h) in Hrest.
    assert (heap_le h h1) as H01 by (by apply heap_le_bind_state).
    assert (bindsFully G h1 h') as [H1' B1'].
    { revert Hrest.
      repeat (apply respectsOk_bind; [apply _ | | intros _]);
        try (apply respectsOk_forEach; [apply _ |]; intros; try apply IH);
        repeat case_match;
        try (apply respectsOk_liftHeap_bindsFully; done);
        apply respectsOk_weaken, respects_ret; apply _. }
    split; [by etrans |].
    intros x Hx Hnot. destruct (decide (x = this)) as [->|Hne].
    + split; [by eapply bindToGraph_ok_bound |].
      intros y Hy. apply (neighbour_heap_le h h') in Hy; [| by etrans].
      destruct Hy as (s0 & Hs0 & Hy). rewrite Hs in Hs0. injection Hs0 as <-.
      by eapply (bindToGraph_ok_neighbours (S fuel) this G h h' s y).
    + apply B1'; [| done]. destruct Hx as (sx & Hsx & Hgx).
      exists sx. split; [| done]. subst h1. simpl. by rewrite lookup_insert_ne.
Qed.

(** X4: when [bindToGraph(G)] returns on an unbound state, every state at
    the end of a chain of unbound states that name each other (as target of
    a transition of any kind or through [incomingStates]) is in [G], however
    long the chain. *)
Theorem bindToGraph_binds_chain (fuel : nat) (this : StateRef) (G : GraphRef)
    (h h' : Heap) (z : StateRef) :
  unbound h this →
  bindToGraph fuel this G h = (h', Ok tt) →
  unboundChain h this z →
  boundTo h' z G.
Proof.
  intros Hthis Hrun Hchain.
  destruct (bindToGraph_bindsFully fuel this G h h' tt Hrun) as [Hle Hfull].
  assert (∀ x g, boundTo h' x g → ¬ unbound h' x) as Hnot.
  { intros x g (s & Hs & Hg) (s' & Hs' & Hg'). congruence. }
  cut (unbound h z ∧ settled G h' z); [by intros [_ [? _]] |].
  revert z Hchain. apply (rtc_ind_r (λ z, unbound h z ∧ settled G h' z) this).
  - split; [done |]. apply Hfull; [done |].
    eapply Hnot. by eapply bindToGraph_ok_bound.
  - intros y z _ [Hyz Hz] [Hy [_ Hnames]]. split; [done |].
    apply Hfull; [done |]. eapply Hnot. apply Hnames.
    by apply (neighbour_heap_le h h').
Qed.

Lemma bindToGraph_binds_chain_witness :
  unbound chainHeap 0 ∧
  (∃ h', bindToGraph 3 0 7 chainHeap = (h', Ok tt) ∧ boundTo h' 2 7) ∧
  (∃ h', bindToGraph 3 2 7 chainHeap = (h', Ok tt) ∧ boundTo h' 0 7).
Proof.
  assert (∀ x, x < 3 → unbound chainHeap x) as Hu.
  { intros [|[|[|x]]] Hx; try lia;
      (eexists; split; [vm_compute; reflexivity | reflexivity]). }
  assert (∀ x y, x < 3 →
            bool_decide
              (y ∈ default [] ((λ s, incomingStates s ++
                                  outgoingTransitions withErrorHandlers s)
                               <$> states chainHeap !! x)) = true →
            neighbour chainHeap x y) as Hn.
  { intros x y Hx Hy%bool_decide_eq_true.
    destruct (states chainHeap !! x) as [s|] eqn:Hs; simpl in Hy.
    - exists s. split; [done |]. by apply elem_of_app.
    - by apply elem_of_nil in Hy. }
  split; [apply Hu; lia |]. split.
  - destruct (bindToGraph 3 0 7 chainHeap) as [h' r] eqn:Hrun.
    assert (r = Ok tt) as ->.
    { change r with (h', r).2. rewrite <- Hrun. vm_compute. reflexivity. }
    exists h'. split; [reflexivity |].
    apply (bindToGraph_binds_chain 3 0 7 chainHeap h' 2); [apply Hu; lia | done |].
    apply (rtc_l _ _ 1); [split; [apply Hn; [lia | reflexivity] | apply Hu; lia] |].
    apply rtc_once. split; [apply Hn; [lia | reflexivity] | apply Hu; lia].
  - destruct (bindToGraph 3 2 7 chainHeap) as [h' r] eqn:Hrun.
    assert (r = Ok tt) as ->.
    { change r with (h', r).2. rewrite <- Hrun. vm_compute. reflexivity. }
    exists h'. split; [reflexivity |].
    apply (bindToGraph_binds_chain 3 2 7 chainHeap h' 0); [apply Hu; lia | done |].
    apply (rtc_l _ _ 1); [split; [apply Hn; [lia | reflexivity] | apply Hu; lia] |].
    apply rtc_once. split; [apply Hn; [lia | reflexivity] | apply Hu; lia].
Defined.

(** ** Declaring a transition from or to a bound state *)

Lemma modifyState_ok_inv (this : StateRef) (f : State → State) (h h' : Heap) :
  modifyState this f h = (h', Ok tt) →
  ∃ s, states h !! this = Some s ∧
       h' = set_states (<[this := f s]> (states h)) h.
Proof.
  unfold modifyState. destruct (states h !! this) as [s|]; [| done].
  intros [= <-]. eauto.
Qed.

(** The common tail of [makeNext], [addChoice] and [_addCatch] on a bound
    state: when it returns, the target is in the graph of the source. *)
Lemma declare_bound (fuel : nat) (f : State → State) (a b : StateRef)
    (G : GraphRef) (h h' : Heap) :
  (∀ s, containingGraph (f s) = containingGraph s) →
  boundTo h a G →
  (modifyState a f ;;
   modifyState b (addIncoming a) ;;
   s ← getState a;
   match containingGraph s with
   | Some g => bindToGraph fuel b g
   | None => ret tt
   end) h = (h', Ok tt) →
  boundTo h' b G.
Proof.
  intros Hf (sa & Ha & Hg).
  intros (h1 & [] & (sa0 & Ha0 & ->)%modifyState_ok_inv & Hrun)%hbind_ok_inv.
  rewrite Ha in Ha0. injection Ha0 as <-.
  apply hbind_ok_inv in Hrun as (h2 & [] & (sb & Hb & ->)%modifyState_ok_inv & Hrun).
  apply hbind_ok_inv in Hrun as (h3 & s2 & [-> H2]%getState_ok_inv & Hrun).
  assert (containingGraph s2 = Some G) as Hg2.
  { simpl in H2, Hb. destruct (decide (b = a)) as [->|Hne].
    - rewrite lookup_insert_eq in H2, Hb. injection H2 as <-. injection Hb as <-.
      simpl. by rewrite Hf.
    - rewrite lookup_insert_ne, lookup_insert_eq in H2 by done.
      injection H2 as <-. by rewrite Hf. }
  rewrite Hg2 in Hrun. by eapply bindToGraph_ok_bound.
Qed.

(** [makeDefault] changes the graph of no state. *)
Lemma makeDefault_graphOf (a b : StateRef) (h h' : Heap) (r : result unit)
    (x : StateRef) :
  makeDefault a b h = (h', r) → graphOf h' x = graphOf h x.
Proof.
  unfold makeDefault, graphOf. rewrite hbind_unfold. unfold getState.
  destruct (states h !! a) as [s|] eqn:Hs; [| by intros [= <- _]].
  destruct (defaultChoice s); [by intros [= <- _] |].
  rewrite (modifyState_Some _ _ _ _ Hs). intros [= <- _]. simpl.
  destruct (decide (a = x)) as [<-|Hne].
  - by rewrite lookup_insert_eq, Hs.
  - by rewrite lookup_insert_ne.
Qed.

(** X5: a transition declared on a state that is already in a graph [G] by
    [makeNext], [addChoice] or [_addCatch] puts the target into [G] at once
    (when the call returns); [makeDefault] leaves the graph of every state
    as it is. *)
Theorem declaring_on_bound_state {host : Host} (h : Heap) (a : StateRef) (G : GraphRef) :
  boundTo h a G →
  (∀ fuel b h', makeNext fuel a b h = (h', Ok tt) → boundTo h' b G) ∧
  (∀ fuel condition b o h',
     addChoice fuel a condition b o h = (h', Ok tt) → boundTo h' b G) ∧
  (∀ fuel b props h',
     _addCatch fuel a b props h = (h', Ok tt) → boundTo h' b G) ∧
  (∀ b h' r x, makeDefault a b h = (h', r) → graphOf h' x = graphOf h x).
Proof.
  intros Ha. split_and!.
  - intros fuel b h'. unfold makeNext.
    intros (h0 & s & [-> Hs]%getState_ok_inv & Hrun)%hbind_ok_inv.
    destruct (_next s); [done |].
    by eapply (declare_bound fuel (set_next (Some b)) a b G h h').
  - intros fuel condition b o h' Hrun.
    by eapply (declare_bound fuel _ a b G h h'); [| | exact Hrun].
  - intros fuel b props h'. unfold _addCatch.
    intros (h0 & [] & Hv & Hrun)%hbind_ok_inv.
    injection Hv as <- _.
    by eapply (declare_bound fuel _ a b G h h'); [| | exact Hrun].
  - intros b h' r x. apply makeDefault_graphOf.
Qed.

(** ["A"] is in graph [7], ["B"] and ["C"] are in no graph. *)
Lemma declaring_on_bound_state_witness :
  let h := (bindToGraph 1 0 7 threeStates).1 in
  boundTo h 0 7 ∧
  (∃ h', makeNext 2 0 1 h = (h', Ok tt) ∧ boundTo h' 1 7) ∧
  (∃ h', _addCatch (host := sampleHost) 2 0 2 anyCatch h = (h', Ok tt) ∧
         boundTo h' 2 7) ∧
  graphOf (makeDefault 0 1 h).1 1 = None.
Proof.
  set (h := (bindToGraph 1 0 7 threeStates).1). simpl.
  assert (boundTo h 0 7) as Hb.
  { eexists. split; [vm_compute; reflexivity | reflexivity]. }
  destruct (declaring_on_bound_state (host := sampleHost) h 0 7 Hb)
    as (Hnext & _ & Hcatch & Hdef).
  split_and!.
  - exact Hb.
  - destruct (makeNext 2 0 1 h) as [h' r] eqn:Hrun.
    assert (r = Ok tt) as ->.
    { change r with (h', r).2. rewrite <- Hrun. vm_compute. reflexivity. }
    exists h'. split; [reflexivity |]. by apply (Hnext 2 1 h').
  - destruct (_addCatch (host := sampleHost) 2 0 2 anyCatch h) as [h' r] eqn:Hrun.
    assert (r = Ok tt) as ->.
    { change r with (h', r).2. rewrite <- Hrun. vm_compute. reflexivity. }
    exists h'. split; [reflexivity |]. by apply (Hcatch 2 2 anyCatch h').
  - rewrite (Hdef 1 (makeDefault 0 1 h).1 (makeDefault 0 1 h).2 1);
      [vm_compute; reflexivity | by destruct (makeDefault 0 1 h)].
Defined.

(** ** One default transition, one default choice *)

(** What follows the assignment of [_next] in [makeNext] keeps it. *)
Lemma makeNext_sets_next (fuel : nat) (a b : StateRef) (sa : State)
    (h h' : Heap) (r : result unit) :
  states h !! a = Some sa → _next sa = None →
  makeNext fuel a b h = (h', r) →
  ∃ s', states h' !! a = Some s' ∧ _next s' = Some b ∧ node_id s' = node_id sa.
Proof.
  intros Ha Hnone. unfold makeNext.
  rewrite hbind_unfold, (getState_Some _ _ _ Ha), Hnone.
  rewrite hbind_unfold, (modifyState_Some _ _ _ _ Ha).
  set (h1 := set_states _ h).
  assert (states h1 !! a = Some (set_next (Some b) sa)) as H1
    by apply lookup_insert_eq.
  rewrite hbind_unfold. unfold modifyState at 1.
  destruct (states h1 !! b) as [sb|] eqn:Hb; [| intros [= <- _]; eauto].
  set (h2 := set_states _ h1).
  assert (∃ s2, states h2 !! a = Some s2 ∧ _next s2 = Some b ∧
                node_id s2 = node_id sa) as (s2 & H2 & Hn2 & Hid2).
  { subst h2. simpl. destruct (decide (b = a)) as [->|Hne].
    - rewrite lookup_insert_eq. rewrite H1 in Hb. injection Hb as <-. eauto.
    - rewrite lookup_insert_ne by done. eauto. }
  rewrite hbind_unfold, (getState_Some _ _ _ H2).
  destruct (containingGraph s2) as [g|]; [| intros [= <- _]; eauto].
  intros Hrun%bindToGraph_respects.
  destruct (heap_le_lookup _ _ _ _ Hrun H2) as (s' & Hs' & Hle).
  destruct (state_le_fields _ _ Hle) as (_ & _ & _ & Hn & _ & _ & _ & _ & _ & _ & _ & Hid).
  exists s'. split_and!; congruence.
Qed.

(** X6: once [makeNext] has been called on a state without next state,
    whatever its outcome, the state has that next state, and every further
    [makeNext] throws, reporting the id of the state, and changes nothing;
    likewise for [makeDefault] and the default choice. *)
Theorem transitions_are_set_once (h : Heap) (a : StateRef) (sa : State) :
  states h !! a = Some sa →
  (_next sa = None →
   ∀ fuel b h1 r,
     makeNext fuel a b h = (h1, r) →
     (_next <$> states h1 !! a) = Some (Some b) ∧
     ∀ fuel' c, makeNext fuel' a c h1 = (h1, Throw (EAlreadyHasNext (node_id sa)))) ∧
  (defaultChoice sa = None →
   ∀ b h1 r,
     makeDefault a b h = (h1, r) →
     r = Ok tt ∧
     (defaultChoice <$> states h1 !! a) = Some (Some b) ∧
     ∀ c, makeDefault a c h1 = (h1, Throw (EAlreadyHasDefault (node_id sa)))).
Proof.
  intros Ha. split.
  - intros Hnone fuel b h1 r Hrun.
    destruct (makeNext_sets_next fuel a b sa h h1 r Ha Hnone Hrun)
      as (s' & Hs' & Hn & Hid).
    split; [by rewrite Hs', <- Hn |].
    intros fuel' c. unfold makeNext.
    by rewrite hbind_unfold, (getState_Some _ _ _ Hs'), Hn, Hid.
  - intros Hnone b h1 r. rewrite (makeDefault_run h a b sa Ha Hnone).
    intros [= <- <-]. split_and!; [done | simpl; by rewrite lookup_insert_eq |].
    intros c. unfold makeDefault. rewrite hbind_unfold.
    unfold getState. simpl. by rewrite lookup_insert_eq.
Qed.

Lemma transitions_are_set_once_witness :
  (_next <$> states (makeNext 2 0 1 threeStates).1 !! 0) = Some (Some 1) ∧
  makeNext 2 0 2 (makeNext 2 0 1 threeStates).1
    = ((makeNext 2 0 1 threeStates).1, Throw (EAlreadyHasNext "A")) ∧
  makeDefault 0 2 (makeDefault 0 1 threeStates).1
    = ((makeDefault 0 1 threeStates).1, Throw (EAlreadyHasDefault "A")).
Proof.
  destruct (transitions_are_set_once threeStates 0 (newState "A" "Stack/A" noProps)
              eq_refl) as [Hnext Hdef].
  destruct (Hnext eq_refl 2 1 (makeNext 2 0 1 threeStates).1
              (makeNext 2 0 1 threeStates).2) as [H1 H2];
    [by destruct (makeNext 2 0 1 threeStates) |].
  destruct (Hdef eq_refl 1 (makeDefault 0 1 threeStates).1
              (makeDefault 0 1 threeStates).2) as (_ & _ & H3);
    [by destruct (makeDefault 0 1 threeStates) |].
  split_and!; [exact H1 | apply H2 | apply H3].
Defined.

(** ** Matcher lists *)

Section MatcherLists.
Context {host : Host}.

(** X7: [validateErrors] throws exactly when the list contains
    [Errors.ALL] and has more than one element, so a list that repeats the
    wildcard is rejected too; a list that passes is stored by [_addRetry] as
    it was given, and that includes the empty list, which is not replaced by
    the wildcard. *)
Theorem validateErrors_exact :
  (∀ errors e,
     validateErrors errors = Throw e ↔
     e = EAllMustAppearAlone ∧
     ∃ l, errors = Some l ∧ ALL ∈ l ∧ 1 < length l) ∧
  validateErrors (Some [ALL; ALL]) = Throw EAllMustAppearAlone ∧
  (∀ h this s props l,
     states h !! this = Some s →
     retry_errors props = Some l →
     ALL ∉ l ∨ l = [ALL] →
     ∃ h' s' rule,
       _addRetry this props h = (h', Ok tt) ∧
       states h' !! this = Some s' ∧
       retries s' = retries s ++ [rule] ∧
       retry_errors rule = Some l).
Proof.
  split_and!.
  - intros [l|] e; simpl.
    + destruct (bool_decide (ALL ∈ l)) eqn:Hin;
        destruct (bool_decide (1 < length l)) eqn:Hlen; simpl.
      * apply bool_decide_eq_true in Hin, Hlen.
        split; [intros [= <-]; eauto | by intros [-> _]].
      * apply bool_decide_eq_false in Hlen.
        split; [done | intros (_ & l' & [= <-] & _ & ?); done].
      * apply bool_decide_eq_false in Hin.
        split; [done | intros (_ & l' & [= <-] & ? & _); done].
      * apply bool_decide_eq_false in Hin.
        split; [done | intros (_ & l' & [= <-] & ? & _); done].
    + split; [done | intros (_ & l' & ? & _); done].
  - apply validateErrors_throw; [left | simpl; lia].
  - intros h this s props l Hs Hl Hok.
    assert (validateErrors (retry_errors props) = Ok tt) as Hv.
    { rewrite Hl. destruct Hok as [Hnot| ->]; [| apply validateErrors_alone].
      unfold validateErrors. simpl. by rewrite bool_decide_eq_false_2. }
    eexists _, _, (storedRetry props). split_and!.
    + by apply _addRetry_valid.
    + apply lookup_insert_eq.
    + done.
    + unfold storedRetry. simpl. by rewrite Hl.
Qed.

(** X8: [compareErrors] is antisymmetric on every pair except two wildcard
    lists: [compareErrors a b = - compareErrors b a] exactly when [a] and [b]
    do not both contain [Errors.ALL], and then it is the difference of the
    ranks of [a] and [b], where a wildcard list has rank 1 and any other
    rank 0. *)
Theorem compareErrors_antisymmetric_iff (a b : option (list string)) :
  (compareErrors a b = (- compareErrors b a)%Z ↔
   ¬ (includesALL a = true ∧ includesALL b = true)) ∧
  (¬ (includesALL a = true ∧ includesALL b = true) →
   compareErrors a b =
     ((if includesALL a then 1 else 0) - (if includesALL b then 1 else 0))%Z).
Proof.
  unfold compareErrors.
  destruct (includesALL a), (includesALL b); simpl; split;
    try (split; [intros ?; intros [? ?]; discriminate | done]);
    try done.
  - split; [discriminate | intros []; done].
  - intros []; done.
Qed.

End MatcherLists.

Lemma validateErrors_exact_witness :
  (∃ h' s' rule,
     _addRetry (host := sampleHost) 0 (retryOn []) threeStates = (h', Ok tt) ∧
     states h' !! 0 = Some s' ∧
     retries s' = [rule] ∧
     retry_errors rule = Some []) ∧
  validateErrors (host := sampleHost) (Some ["States.ALL"; "States.ALL"])
    = Throw EAllMustAppearAlone.
Proof.
  destruct (validateErrors_exact (host := sampleHost)) as (Hiff & _ & Hstore).
  split.
  - destruct (Hstore threeStates 0 (newState "A" "Stack/A" noProps) (retryOn []) [])
      as (h' & s' & rule & Hrun & Hs' & Hrs & Hrule);
      [reflexivity | reflexivity | left; apply not_elem_of_nil |].
    exists h', s', rule. split_and!; done.
  - apply Hiff. split; [done |].
    exists ["States.ALL"; "States.ALL"]. split_and!; [done | left | simpl; lia].
Defined.

Lemma compareErrors_antisymmetric_iff_witness :
  compareErrors (host := sampleHost) (Some ["States.Timeout"]) (Some ["States.ALL"])
    = (-1)%Z ∧
  compareErrors (host := sampleHost) (Some ["States.Timeout"]) (Some ["States.ALL"])
    = (- compareErrors (host := sampleHost)
           (Some ["States.ALL"]) (Some ["States.Timeout"]))%Z.
Proof.
  destruct (compareErrors_antisymmetric_iff (host := sampleHost)
              (Some ["States.Timeout"]) (Some ["States.ALL"])) as [Hiff Hrank].
  assert (¬ (includesALL (host := sampleHost) (Some ["States.Timeout"]) = true ∧
             includesALL (host := sampleHost) (Some ["States.ALL"]) = true)) as Hnot.
  { intros [H _]. vm_compute in H. discriminate. }
  split.
  - rewrite (Hrank Hnot). reflexivity.
  - by apply Hiff.
Defined.

(** ** What the traversals return *)

Section Traversals.
Context (h : Heap).

Lemma findReachableStates_loop_prefix (options : FindStateOptions) (fuel : nat)
    (queue visited l : list StateRef) :
  findReachableStates_loop fuel h options queue visited visited = Ok l →
  visited `prefix_of` l ∧
  (Forall (λ x, is_Some (states h !! x)) visited →
   Forall (λ x, is_Some (states h !! x)) l).
Proof.
  revert queue visited. induction fuel as [|fuel IH]; intros queue visited;
    destruct queue as [|x q]; simpl.
  - by intros [= <-].
  - done.
  - by intros [= <-].
  - case_bool_decide as Hv; [apply IH |].
    destruct (states h !! x) as [s|] eqn:Hs; [| done].
    rewrite (Set_add_new _ _ Hv). intros [Hpre Hheap]%IH. split.
    + etrans; [| exact Hpre]. by apply prefix_app_r.
    + intros Hall. apply Hheap, Forall_app. split; [done |].
      apply Forall_singleton. by exists s.
Qed.

(** Whatever the fuel, a result of [findReachableStates] is the set of
    reachable states. *)
Lemma findReachableStates_ok (options : FindStateOptions) (fuel : nat)
    (start : StateRef) (l : list StateRef) :
  findReachableStates fuel h start options = Ok l →
  NoDup l ∧
  (∀ x, x ∈ l ↔ reachable h options start x) ∧
  (∃ l', l = start :: l') ∧
  Forall (λ x, is_Some (states h !! x)) l.
Proof.
  unfold findReachableStates. intros Hl.
  destruct (findReachableStates_loop_inv h options start fuel [start] [] l Hl)
    as (Hnd & Hq & Hreach & Hcl).
  { apply NoDup_nil_2. }
  { intros x [->%list_elem_of_singleton|Hx]; [apply rtc_refl |].
    by apply elem_of_nil in Hx. }
  { intros x y Hx. by apply elem_of_nil in Hx. }
  split_and!.
  - done.
  - intros x. split; [apply Hreach |].
    revert x. apply (rtc_ind_r (λ x, x ∈ l) start).
    + apply Hq. by apply list_elem_of_singleton.
    + intros y z _ Hyz IH. by apply (Hcl y z).
  - destruct fuel as [|fuel]; [done |]. simpl in Hl.
    destruct (states h !! start); [| done].
    apply findReachableStates_loop_prefix in Hl as [[l' ->] _]. by exists l'.
  - by apply (findReachableStates_loop_prefix options fuel [start] [] l).
Qed.

(** X9: a result of [findReachableStates] starts with the start state,
    lists each reachable state once and nothing else; following error
    handlers can only add states. *)
Theorem findReachableStates_result (fuel1 fuel2 : nat) (start : StateRef)
    (o1 o2 : FindStateOptions) (l1 l2 : list StateRef) :
  findReachableStates fuel1 h start o1 = Ok l1 →
  findReachableStates fuel2 h start o2 = Ok l2 →
  (∃ l', l1 = start :: l') ∧
  NoDup l1 ∧
  (∀ x, x ∈ l1 ↔ reachable h o1 start x) ∧
  (followsErrorHandlers o1 = false ∨ followsErrorHandlers o2 = true → l1 ⊆ l2).
Proof.
  intros (Hnd1 & Hs1 & Hhd1 & _)%findReachableStates_ok
         (_ & Hs2 & _ & _)%findReachableStates_ok.
  split_and!; [done | done | done |].
  intros Ho x Hx. apply Hs2. apply Hs1 in Hx.
  eapply rtc_subrel; [| exact Hx].
  intros y z (s & Hs & Hz). exists s. split; [done |].
  unfold outgoingTransitions in *.
  rewrite !elem_of_app in Hz. rewrite !elem_of_app.
  destruct Hz as [?|[?|[?|Hz]]]; [tauto.. |].
  do 3 right. destruct (followsErrorHandlers o1), (followsErrorHandlers o2);
    try done; [by destruct Ho | by apply elem_of_nil in Hz].
Qed.

(** X10: a result of [findReachableEndStates] consists of the states that
    [findReachableStates] returns and that have no outgoing transition; it
    is empty exactly when every reachable state has a transition to follow. *)
Theorem findReachableEndStates_result (fuel : nat) (start : StateRef)
    (options : FindStateOptions) (l e : list StateRef) :
  findReachableStates fuel h start options = Ok l →
  findReachableEndStates fuel h start options = Ok e →
  (∀ x, x ∈ e ↔ x ∈ l ∧ isEndState h options x) ∧
  (e = [] ↔ ∀ x, x ∈ l → ∃ y, edge h options x y).
Proof.
  intros Hl He.
  pose proof (findReachableEndStates_loop_spec h options fuel [start] [] []) as Hspec.
  unfold findReachableStates in Hl. unfold findReachableEndStates in He.
  rewrite Hl, He in Hspec.
  assert (∀ x, x ∈ e ↔ x ∈ l ∧ isEndState h options x) as Hend.
  { intros x. rewrite Hspec, elem_of_nil.
    pose proof (not_elem_of_nil x). tauto. }
  split; [done |].
  destruct (findReachableStates_ok options fuel start l Hl) as (_ & _ & _ & Hheap).
  rewrite Forall_forall in Hheap. split.
  - intros -> x Hx. destruct (Hheap x Hx) as [s Hs].
    destruct (outgoingTransitions options s) as [|y ys] eqn:Hout.
    + exfalso. apply (not_elem_of_nil x). apply Hend. split; [done |]. by exists s.
    + exists y, s. split; [done |]. rewrite Hout. left.
  - intros Hall. destruct e as [|x e']; [done |]. exfalso.
    assert (x ∈ x :: e') as Hx by left.
    apply Hend in Hx as [Hx (s & Hs & Hnil)].
    destruct (Hall x Hx) as (y & s' & Hs' & Hy).
    rewrite Hs in Hs'. injection Hs' as <-. rewrite Hnil in Hy.
    by apply elem_of_nil in Hy.
Qed.

End Traversals.

Lemma findReachableStates_result_witness :
  findReachableStates 3 cycleHeap 0 defaultFindStateOptions = Ok [0; 1] ∧
  findReachableStates 4 cycleHeap 0 withErrorHandlers = Ok [0; 1; 2] ∧
  [0; 1] ⊆ [0; 1; 2].
Proof.
  assert (findReachableStates 3 cycleHeap 0 defaultFindStateOptions = Ok [0; 1])
    as H1 by (vm_compute; reflexivity).
  assert (findReachableStates 4 cycleHeap 0 withErrorHandlers = Ok [0; 1; 2])
    as H2 by (vm_compute; reflexivity).
  split_and!; [done | done |].
  destruct (findReachableStates_result cycleHeap 3 4 0 defaultFindStateOptions
              withErrorHandlers [0; 1] [0; 1; 2] H1 H2) as (_ & _ & _ & Hsub).
  apply Hsub. left. reflexivity.
Defined.

Lemma findReachableEndStates_result_witness :
  findReachableStates 3 cycleHeap 0 defaultFindStateOptions = Ok [0; 1] ∧
  findReachableEndStates 3 cycleHeap 0 defaultFindStateOptions = Ok [] ∧
  ∀ x, x ∈ [0; 1] → ∃ y, edge cycleHeap defaultFindStateOptions x y.
Proof.
  assert (findReachableStates 3 cycleHeap 0 defaultFindStateOptions = Ok [0; 1])
    as H1 by (vm_compute; reflexivity).
  assert (findReachableEndStates 3 cycleHeap 0 defaultFindStateOptions = Ok [])
    as H2 by (vm_compute; reflexivity).
  split_and!; [done | done |].
  destruct (findReachableEndStates_result cycleHeap 3 0 defaultFindStateOptions
              [0; 1] [] H1 H2) as [_ Hempty].
  by apply Hempty.
Defined.

(** ** Rendered choices, transitions and paths *)

Section RenderedFields.
Context {host : Host}.

Lemma renderList_unsorted {T J} (mapFn : T → result J) (xs : list T) :
  renderList xs mapFn None =
  (xs, match xs with
       | [] => Ok None
       | _ => rbind (mapR mapFn xs) (λ l, Ok (Some l))
       end).
Proof. by destruct xs. Qed.

(** X11: [renderChoices] renders the choices in the order of their
    declaration, each with the rendering of its condition and the current
    identifier of its target, leaves [Choices] out when there is none, and
    names the default choice by its current identifier; it returns whenever
    the targets are states. *)
Theorem renderChoices_keeps_order (top : option QueryLanguage) (h : Heap) (s : State) :
  (∀ frag,
     renderChoices top h s = Ok frag →
     match Choices frag with
     | None => choices s = []
     | Some js =>
         choices s ≠ [] ∧
         Forall2
           (λ c j,
              Choice_Condition j = renderCondition (choice_condition c) ∧
              Choice_Comment j = choice_comment (choice_options c) ∧
              (stateId <$> states h !! choice_next c) = Some (Choice_Next j))
           (choices s) js
     end ∧
     Default frag = (defaultChoice s ≫= λ d, stateId <$> states h !! d)) ∧
  (Forall (λ c, is_Some (states h !! choice_next c)) (choices s) →
   (∀ d, defaultChoice s = Some d → is_Some (states h !! d)) →
   ∃ frag, renderChoices top h s = Ok frag).
Proof.
  unfold renderChoices. rewrite renderList_unsorted. simpl snd. split.
  - intros frag.
    set (q := _getActualQueryLanguage top (queryLanguage (props s))).
    assert (∀ js, mapR (renderChoice h q) (choices s) = Ok js →
              Forall2
                (λ c j,
                   Choice_Condition j = renderCondition (choice_condition c) ∧
                   Choice_Comment j = choice_comment (choice_options c) ∧
                   (stateId <$> states h !! choice_next c) = Some (Choice_Next j))
                (choices s) js) as Hmap.
    { intros js Hjs%mapR_ok. eapply Forall2_impl; [exact Hjs |].
      intros c j. unfold renderChoice.
      destruct (states h !! choice_next c) as [t|]; [| done].
      by intros [= <-]. }
    assert (∀ cs, match defaultChoice s with
                  | None => Ok {| Choices := cs; Default := None |}
                  | Some def =>
                      match states h !! def with
                      | Some target =>
                          Ok {| Choices := cs; Default := Some (stateId target) |}
                      | None => Throw (EDangling def)
                      end
                  end = Ok frag →
                  Choices frag = cs ∧
                  Default frag = (defaultChoice s ≫= λ d, stateId <$> states h !! d))
      as Hdef.
    { intros cs. destruct (defaultChoice s) as [d|]; simpl.
      - destruct (states h !! d); [| done]. by intros [= <-].
      - by intros [= <-]. }
    destruct (choices s) as [|c cs] eqn:Hcs.
    + simpl. intros [-> ->]%Hdef. done.
    + destruct (mapR (renderChoice h q) (c :: cs)) as [js|e] eqn:Hjs; [| done].
      simpl. intros [-> ->]%Hdef. split; [| done]. split; [done |].
      by apply Hmap.
  - intros Hall Hd.
    assert (∃ r, match choices s with
                 | [] => Ok None
                 | _ :: _ =>
                     rbind (mapR (renderChoice h
                              (_getActualQueryLanguage top (queryLanguage (props s))))
                              (choices s)) (λ l, Ok (Some l))
                 end = Ok r) as [r ->].
    { destruct (choices s) as [|c cs] eqn:Hcs; [eauto |].
      destruct (mapR_total_on
                  (renderChoice h (_getActualQueryLanguage top (queryLanguage (props s))))
                  (c :: cs)) as [ys ->]; [| simpl; eauto].
      eapply Forall_impl; [exact Hall |].
      intros c' [t Ht]. unfold renderChoice. rewrite Ht. eauto. }
    simpl. destruct (defaultChoice s) as [d|]; [| eauto].
    destruct (Hd d eq_refl) as [t ->]. eauto.
Qed.

(** X12: the top-level language and the [QueryLanguage] key that
    [renderQueryLanguage] writes determine the language that
    [_getActualQueryLanguage] resolves for the state: a reader that takes the
    key when present, else the top-level language, else JSONPath, arrives at
    the same language. *)
Theorem renderQueryLanguage_agrees (top : option QueryLanguage) (s : State)
    (j : QueryLanguageJson) :
  renderQueryLanguage top s = Ok j →
  default (default JSON_PATH top) (QueryLanguage_field j) =
  _getActualQueryLanguage top (queryLanguage (props s)).
Proof.
  unfold renderQueryLanguage.
  destruct top as [[]|], (queryLanguage (props s)) as [[]|]; simpl;
    by intros [= <-].
Qed.

(** X13: [renderInputOutput] throws exactly when [inputPath] or
    [outputPath] is rejected by [renderJsonPath], reporting [inputPath] when
    both are; otherwise it returns the five properties unchanged. *)
Theorem renderInputOutput_paths (s : State) :
  (∀ e, renderInputOutput s = Throw e ↔
        renderJsonPath (inputPath (props s)) = Throw e ∨
        (renderJsonPath (inputPath (props s)) = Ok (inputPath (props s)) ∧
         renderJsonPath (outputPath (props s)) = Throw e)) ∧
  (∀ j, renderInputOutput s = Ok j →
        j = {| IO_InputPath := inputPath (props s);
               IO_Parameters := parameters (props s);
               IO_OutputPath := outputPath (props s);
               IO_Arguments := arguments (props s);
               IO_Output := outputs (props s) |}).
Proof.
  assert (∀ p v, renderJsonPath p = Ok v → v = p) as Hsame.
  { intros [p|] v; simpl; [| by intros [= <-]].
    case_match; [done | by intros [= <-]]. }
  unfold renderInputOutput. split.
  - intros e.
    destruct (renderJsonPath (inputPath (props s))) as [vi|ei] eqn:Hi; simpl.
    + rewrite (Hsame _ _ Hi).
      destruct (renderJsonPath (outputPath (props s))) as [vo|eo]; simpl.
      * split; [done | intros [?|[_ ?]]; done].
      * split; [intros [= <-]; by right | intros [?|[_ [= <-]]]; done].
    + split; [intros [= <-]; by left | intros [[= <-]|[? _]]; done].
  - intros j.
    destruct (renderJsonPath (inputPath (props s))) as [vi|ei] eqn:Hi; simpl; [| done].
    destruct (renderJsonPath (outputPath (props s))) as [vo|eo] eqn:Ho; simpl; [| done].
    intros [= <-]. by rewrite (Hsame _ _ Hi), (Hsame _ _ Ho).
Qed.

End RenderedFields.

Lemma renderChoices_keeps_order_witness :
  ∃ s frag js,
    states choiceHeap !! 0 = Some s ∧
    renderChoices (host := sampleHost) None choiceHeap s = Ok frag ∧
    Choices frag = Some js ∧
    map Choice_Next js = ["P-B"; "C"] ∧
    Default frag = Some "C" ∧
    Forall2
      (λ c j,
         Choice_Condition j = renderCondition (choice_condition c) ∧
         Choice_Comment j = choice_comment (choice_options c) ∧
         (stateId <$> states choiceHeap !! choice_next c) = Some (Choice_Next j))
      (choices s) js.
Proof.
  destruct (states choiceHeap !! 0) as [s|] eqn:Hs; [| vm_compute in Hs; discriminate].
  destruct (renderChoices (host := sampleHost) None choiceHeap s) as [frag|e] eqn:Hfrag.
  2:{ exfalso. vm_compute in Hs. injection Hs as <-.
      vm_compute in Hfrag. discriminate. }
  pose proof (proj1 (renderChoices_keeps_order (host := sampleHost) None choiceHeap s)
                frag Hfrag) as [Hch Hdef].
  destruct (Choices frag) as [js|] eqn:Hjs.
  2:{ exfalso. vm_compute in Hs. injection Hs as <-.
      vm_compute in Hfrag. injection Hfrag as <-. discriminate Hjs. }
  destruct Hch as [_ Hall].
  exists s, frag, js. split_and!; [done | done | done | | | done].
  - clear Hall Hdef. vm_compute in Hs. injection Hs as <-.
    vm_compute in Hfrag. injection Hfrag as <-.
    simpl in Hjs. injection Hjs as <-. reflexivity.
  - clear Hall Hdef. vm_compute in Hs. injection Hs as <-.
    vm_compute in Hfrag. injection Hfrag as <-. reflexivity.
Defined.

Lemma renderQueryLanguage_agrees_witness :
  renderQueryLanguage None jsonataState = Ok {| QueryLanguage_field := Some JSONATA |} ∧
  default (default JSON_PATH None) (Some JSONATA) =
    _getActualQueryLanguage None (queryLanguage (props jsonataState)).
Proof.
  split; [reflexivity |].
  exact (renderQueryLanguage_agrees None jsonataState
           {| QueryLanguage_field := Some JSONATA |} eq_refl).
Defined.

Lemma renderInputOutput_paths_witness :
  renderInputOutput (host := sampleHost) badInputState = Throw (EJsonPathStart "foo") ∧
  renderInputOutput (host := sampleHost) jsonataState
    = Ok {| IO_InputPath := None; IO_Parameters := None; IO_OutputPath := None;
            IO_Arguments := None; IO_Output := None |}.
Proof.
  split.
  - apply (proj1 (renderInputOutput_paths (host := sampleHost) badInputState)).
    left. reflexivity.
  - destruct (renderInputOutput (host := sampleHost) jsonataState) as [j|e] eqn:Hj;
      [| vm_compute in Hj; discriminate].
    f_equal.
    exact (proj2 (renderInputOutput_paths (host := sampleHost) jsonataState) j Hj).
Defined.

(** ** Identifiers in rendered transitions *)

Global Instance sameIds_preorder : PreOrder sameIds.
Proof.
  split.
  - by intros h x.
  - intros h1 h2 h3 H12 H23 x. by rewrite H23, H12.
Qed.

Lemma heap_le_sameIds (h h' : Heap) : heap_le h h' → sameIds h h'.
Proof.
  intros Hle x. specialize (Hle x).
  destruct Hle as [s s' Hss|]; simpl; [| done].
  by rewrite (state_le_stateId _ _ Hss).
Qed.

Lemma respects_modifyState_sameIds (this : StateRef) (f : State → State) :
  (∀ s, stateId (f s) = stateId s) → respects sameIds (modifyState this f).
Proof.
  intros Hf h h' r. unfold modifyState.
  destruct (states h !! this) as [s|] eqn:Hs; intros [= <- _]; [| done].
  intros x. simpl. destruct (decide (this = x)) as [<-|Hne].
  - by rewrite lookup_insert_eq, Hs; simpl; rewrite Hf.
  - by rewrite lookup_insert_ne.
Qed.

Lemma makeNext_sameIds (fuel : nat) (a b : StateRef) :
  respects sameIds (makeNext fuel a b).
Proof.
  unfold makeNext.
  apply respects_bind; [apply _ | apply respects_getState, _ |]. intros s.
  destruct (_next s); [apply respects_throw, _ |].
  apply respects_bind; [apply _ | by apply respects_modifyState_sameIds |]. intros _.
  apply respects_bind; [apply _ | by apply respects_modifyState_sameIds |]. intros _.
  apply respects_bind; [apply _ | apply respects_getState, _ |]. intros s'.
  destruct (containingGraph s'); [| apply respects_ret, _].
  intros h h' r Hrun. by apply heap_le_sameIds, (bindToGraph_respects fuel b n h h' r).
Qed.

(** X14: [renderNextEnd] gives [End: true] and no [Next] for a state
    without next state; once [makeNext] has been called with a target, it
    gives the identifier of the target as [Next] and no [End]. *)
Theorem renderNextEnd_after_makeNext (fuel : nat) (h h' : Heap) (a b : StateRef)
    (sa sb : State) (r : result unit) :
  states h !! a = Some sa → _next sa = None →
  states h !! b = Some sb →
  makeNext fuel a b h = (h', r) →
  renderNextEnd h sa = Ok {| NextEnd_Next := None; NextEnd_End := Some true |} ∧
  ∃ sa', states h' !! a = Some sa' ∧
         renderNextEnd h' sa' =
           Ok {| NextEnd_Next := Some (stateId sb); NextEnd_End := None |}.
Proof.
  intros Ha Hnone Hb Hrun. split.
  - unfold renderNextEnd. by rewrite Hnone.
  - destruct (makeNext_sets_next fuel a b sa h h' r Ha Hnone Hrun)
      as (sa' & Ha' & Hn & _).
    exists sa'. split; [done |]. unfold renderNextEnd. rewrite Hn.
    pose proof (makeNext_sameIds fuel a b h h' r Hrun b) as Hid.
    rewrite Hb in Hid. simpl in Hid.
    destruct (states h' !! b) as [t|]; [| done].
    injection Hid as ->. done.
Qed.

Lemma renderNextEnd_after_makeNext_witness :
  renderNextEnd threeStates (newState "A" "Stack/A" noProps)
    = Ok {| NextEnd_Next := None; NextEnd_End := Some true |} ∧
  ∃ sa', states (makeNext 2 0 1 threeStates).1 !! 0 = Some sa' ∧
         renderNextEnd (makeNext 2 0 1 threeStates).1 sa' =
           Ok {| NextEnd_Next := Some "B"; NextEnd_End := None |}.
Proof.
  apply (renderNextEnd_after_makeNext 2 threeStates (makeNext 2 0 1 threeStates).1 0 1
           (newState "A" "Stack/A" noProps) (newState "B" "Stack/B" noProps)
           (makeNext 2 0 1 threeStates).2);
    [reflexivity | reflexivity | reflexivity | by destruct (makeNext 2 0 1 threeStates)].
Defined.

(** ** Rendering retries and catches changes their order only *)

Lemma renderList_Permutation {T J} (mapFn : T → result J) (sortFn : option (T → T → Z))
    (xs : list T) :
  (renderList xs mapFn sortFn).1 ≡ₚ xs.
Proof.
  destruct xs as [|x xs]; [done |]. destruct sortFn as [f|]; simpl; [| done].
  apply (Array_sort_Permutation f (x :: xs)).
Qed.

(** X15: whether [renderRetryCatch] returns or throws, all it changes on
    the heap is the order of [retries] and [catches] of the rendered state:
    no rule is added or lost, no other field, state or graph is touched. *)
Theorem renderRetryCatch_reorders_only {host : Host} (top : option QueryLanguage)
    (this : StateRef) (h h' : Heap) (s : State) (r : result RetryCatchJson) :
  states h !! this = Some s →
  renderRetryCatch top this h = (h', r) →
  graphs h' = graphs h ∧
  (∀ x, x ≠ this → states h' !! x = states h !! x) ∧
  ∃ s', states h' !! this = Some s' ∧
        retries s' ≡ₚ retries s ∧
        catches s' ≡ₚ catches s ∧
        s' = set_catches (catches s') (set_retries (retries s') s).
Proof.
  intros Hs. rewrite (renderRetryCatch_run top this h s Hs). cbv zeta.
  rewrite renderList_retries.
  set (rs := (renderList (retries s) _ _).1).
  assert (rs ≡ₚ retries s) as Hrs by apply renderList_Permutation.
  set (h1 := set_states _ h).
  set (cs := (renderList (catches s) _ _).1).
  assert (cs ≡ₚ catches s) as Hcs by apply renderList_Permutation.
  intros Hrun.
  assert (h' = set_states (<[this := set_catches cs (set_retries rs s)]> (states h1)) h1)
    as ->.
  { by destruct (renderList (catches s) _ _).2; injection Hrun as <- _. }
  split_and!.
  - done.
  - intros x Hne. simpl. by rewrite !lookup_insert_ne.
  - exists (set_catches cs (set_retries rs s)).
    split_and!; [apply lookup_insert_eq | done | done | done].
Qed.

Lemma renderRetryCatch_reorders_only_witness :
  ∃ s s',
    states withRules !! 0 = Some s ∧
    states (renderRetryCatch (host := sampleHost) None 0 withRules).1 !! 0 = Some s' ∧
    retries s' ≡ₚ retries s ∧
    catches s' ≡ₚ catches s ∧
    map retry_errors (retries s) = [Some ["States.ALL"]; Some ["States.Timeout"]] ∧
    map retry_errors (retries s') = [Some ["States.Timeout"]; Some ["States.ALL"]].
Proof.
  destruct (states withRules !! 0) as [s|] eqn:Hs; [| vm_compute in Hs; discriminate].
  destruct (renderRetryCatch_reorders_only (host := sampleHost) None 0 withRules
              (renderRetryCatch (host := sampleHost) None 0 withRules).1 s
              (renderRetryCatch (host := sampleHost) None 0 withRules).2 Hs)
    as (_ & _ & s' & Hs' & Hr & Hc & _);
    [by destruct (renderRetryCatch _ _ _) |].
  exists s, s'. split_and!; [done | done | done | done | |].
  - vm_compute in Hs. injection Hs as <-. reflexivity.
  - clear Hr Hc. vm_compute in Hs'. injection Hs' as <-. reflexivity.
Defined.

(** ** Prefixing a construct tree *)

Lemma constructStates_unfold (c : Construct) :
  constructStates c =
  option_list (constructSelf c) ++ queueStates (constructChildren c).
Proof. by destruct c. Qed.

Lemma constructSize_unfold (c : Construct) :
  constructSize c = S (queueSize (constructChildren c)).
Proof. by destruct c. Qed.

Lemma queueStates_app (q1 q2 : list Construct) :
  queueStates (q1 ++ q2) = queueStates q1 ++ queueStates q2.
Proof.
  induction q1 as [|c q1 IH]; simpl; [done | by rewrite IH, app_assoc].
Qed.

Lemma queueSize_app (q1 q2 : list Construct) :
  queueSize (q1 ++ q2) = queueSize q1 + queueSize q2.
Proof. induction q1 as [|c q1 IH]; simpl; [done | rewrite IH; lia]. Qed.

Lemma timesIn_app (x : StateRef) (l1 l2 : list StateRef) :
  timesIn x (l1 ++ l2) = timesIn x l1 + timesIn x l2.
Proof. unfold timesIn. by rewrite filter_app, length_app. Qed.

Lemma timesIn_option_list (x : StateRef) (o : option StateRef) :
  timesIn x (option_list o) = if decide (o = Some x) then 1 else 0.
Proof.
  unfold timesIn. destruct o as [y|]; simpl; [| done].
  destruct (decide (y = x)) as [->|Hne].
  - rewrite filter_cons_True by done. by rewrite decide_True.
  - rewrite filter_cons_False by done. rewrite decide_False; [done | congruence].
Qed.

Lemma timesIn_not_elem (x : StateRef) (l : list StateRef) :
  x ∉ l → timesIn x l = 0.
Proof.
  unfold timesIn. induction l as [|y l IH]; [done |].
  intros [Hne Hl]%not_elem_of_cons.
  rewrite filter_cons_False by congruence. by apply IH.
Qed.

(** The loop of [prefixStates] applies [addPrefix] to a state as many times
    as the state occurs in the queued trees. *)
Lemma prefixStates_loop_spec (prefix : string) (fuel : nat) (queue : list Construct)
    (h : Heap) :
  queueSize queue ≤ fuel →
  Forall (λ x, is_Some (states h !! x)) (queueStates queue) →
  ∃ h', prefixStates_loop fuel queue prefix h = (h', Ok tt) ∧
        graphs h' = graphs h ∧
        ∀ x, states h' !! x =
             Nat.iter (timesIn x (queueStates queue)) (addPrefix prefix)
               <$> states h !! x.
Proof.
  revert queue h. induction fuel as [|fuel IH]; intros queue h Hsize Hheap.
  - destruct queue as [|el q].
    + exists h. split_and!; [done | done |]. intros x. simpl.
      by destruct (states h !! x).
    + simpl in Hsize. rewrite constructSize_unfold in Hsize. lia.
  - destruct queue as [|el q].
    + exists h. split_and!; [done | done |]. intros x. simpl.
      by destruct (states h !! x).
    + simpl in Hsize, Hheap. rewrite constructSize_unfold in Hsize.
      rewrite constructStates_unfold in Hheap.
      apply Forall_app in Hheap as [[Hself Hkids]%Forall_app Hq].
      simpl prefixStates_loop. rewrite hbind_unfold.
      assert (∃ h1,
                match constructSelf el with
                | Some this => modifyState this (addPrefix prefix)
                | None => ret tt
                end h = (h1, Ok tt) ∧
                graphs h1 = graphs h ∧
                ∀ x, states h1 !! x =
                     Nat.iter (timesIn x (option_list (constructSelf el)))
                       (addPrefix prefix) <$> states h !! x)
        as (h1 & -> & Hg1 & H1).
      { destruct (constructSelf el) as [this|] eqn:Hel.
        - apply Forall_singleton in Hself as [s Hs].
          rewrite (modifyState_Some _ _ _ _ Hs). eexists. split_and!; [done | done |].
          intros x. rewrite timesIn_option_list. simpl.
          destruct (decide (this = x)) as [<-|Hne].
          + rewrite lookup_insert_eq, Hs, decide_True by done. done.
          + rewrite lookup_insert_ne by done.
            rewrite decide_False by congruence. simpl.
            by destruct (states h !! x).
        - exists h. split_and!; [done | done |]. intros x. simpl.
          by destruct (states h !! x). }
      destruct (IH (q ++ constructChildren el) h1) as (h' & Hrun & Hg & Hlook).
      { rewrite queueSize_app. lia. }
      { rewrite queueStates_app. apply Forall_app. split.
        - eapply Forall_impl; [exact Hq |]. intros x [s Hs].
          rewrite H1, Hs. simpl. eauto.
        - eapply Forall_impl; [exact Hkids |]. intros x [s Hs].
          rewrite H1, Hs. simpl. eauto. }
      exists h'. split_and!; [done | congruence |].
      intros x. rewrite Hlook, H1, <- option_fmap_compose.
      change (queueStates (el :: q)) with (constructStates el ++ queueStates q).
      rewrite constructStates_unfold, queueStates_app, !timesIn_app.
      apply option_fmap_ext. intros s. simpl.
      replace (timesIn x (option_list (constructSelf el)) +
               timesIn x (queueStates (constructChildren el)) +
               timesIn x (queueStates q))
        with ((timesIn x (queueStates q) +
               timesIn x (queueStates (constructChildren el))) +
              timesIn x (option_list (constructSelf el))) by lia.
      symmetry. apply Nat.iter_add.
Qed.

Lemma iter_addPrefix_stateId (c : ascii) (p : string) (n : nat) (s : State) :
  stateId (Nat.iter n (addPrefix (String c p)) s) =
  String.concat "" (replicate n (String c p)) +:+ stateId s.
Proof.
  induction n as [|n IH]; [done |].
  rewrite Nat.iter_succ, stateId_addPrefix, IH.
  change (replicate (S n) (String c p))
    with (String c p :: replicate n (String c p)).
  by rewrite concat_empty_cons, string_app_assoc.
Qed.

(** X16: with fuel for every construct of the tree, [prefixStates] returns
    and has called [addPrefix] once on every state of the tree and on no
    other state: a state that occurs in the tree once has the prefix in front
    of its identifier, a state outside the tree is as before, no graph is
    touched, and with the empty prefix the heap is unchanged. *)
Theorem prefixStates_prefixes_tree (fuel : nat) (root : Construct) (prefix : string)
    (h : Heap) :
  constructSize root ≤ fuel →
  Forall (λ x, is_Some (states h !! x)) (constructStates root) →
  ∃ h', prefixStates fuel root prefix h = (h', Ok tt) ∧
        graphs h' = graphs h ∧
        (∀ x, states h' !! x =
              Nat.iter (timesIn x (constructStates root)) (addPrefix prefix)
                <$> states h !! x) ∧
        (∀ x, x ∉ constructStates root → states h' !! x = states h !! x) ∧
        (∀ x, timesIn x (constructStates root) = 1 →
              stateId <$> states h' !! x =
              (λ s, prefix +:+ stateId s) <$> states h !! x) ∧
        (prefix = "" → states h' = states h).
Proof.
  intros Hsize Hheap. unfold prefixStates.
  destruct (prefixStates_loop_spec prefix fuel [root] h) as (h' & Hrun & Hg & Hlook).
  { simpl. lia. }
  { simpl. by rewrite app_nil_r. }
  assert (queueStates [root] = constructStates root) as Heq
    by (simpl; apply app_nil_r).
  rewrite Heq in Hlook.
  exists h'. split_and!; [done | done | done | | |].
  - intros x Hx. rewrite Hlook.
    rewrite (timesIn_not_elem _ _ Hx).
    simpl. by destruct (states h !! x).
  - intros x Hone. rewrite Hlook, Hone, <- option_fmap_compose.
    apply option_fmap_ext. intros s. simpl.
    destruct prefix as [|c p]; [done |]. apply stateId_addPrefix.
  - intros ->. apply map_eq. intros x. rewrite Hlook.
    assert (∀ n s, Nat.iter n (addPrefix "") s = s) as Hid.
    { intros n s. induction n as [|n IH]; simpl; [done | by rewrite IH]. }
    destruct (states h !! x) as [s|]; simpl; [by rewrite Hid | done].
Qed.

Lemma prefixStates_prefixes_tree_witness :
  ∃ h', prefixStates 4 fragmentTree "Frag: " threeStates = (h', Ok tt) ∧
        (stateId <$> states h' !! 0) = Some "Frag: A" ∧
        (stateId <$> states h' !! 1) = Some "Frag: B" ∧
        states h' !! 2 = states threeStates !! 2.
Proof.
  destruct (prefixStates_prefixes_tree 4 fragmentTree "Frag: " threeStates)
    as (h' & Hrun & _ & _ & Hout & Hone & _).
  { vm_compute. lia. }
  { apply (bool_decide_unpack _). vm_compute. exact I. }
  exists h'. split_and!.
  - exact Hrun.
  - rewrite (Hone 0) by reflexivity. reflexivity.
  - rewrite (Hone 1) by reflexivity. reflexivity.
  - apply Hout. vm_compute. intros H.
    repeat (apply elem_of_cons in H as [H|H]; [discriminate |]).
    by apply elem_of_nil in H.
Defined.

(** ** The Batch job task *)

Lemma validateTagEntries_None (tagEntries : list (string * string)) :
  validateTagEntries tagEntries = None ↔ Forall tagFits tagEntries.
Proof.
  induction tagEntries as [|[k v] rest IH]; simpl; [by split |].
  rewrite Forall_cons. unfold tagFits at 1. simpl.
  destruct (String.length k <? 1) eqn:H1; simpl;
    [apply Nat.ltb_lt in H1; split; [done | lia] |].
  destruct (128 <? String.length k) eqn:H2; simpl;
    [apply Nat.ltb_lt in H2; split; [done | lia] |].
  destruct (256 <? String.length v) eqn:H3;
    [apply Nat.ltb_lt in H3; split; [done | lia] |].
  apply Nat.ltb_ge in H1, H2, H3. rewrite IH. split; [intros ?; split; [lia | done] |].
  by intros [_ ?].
Qed.

(** X17: [validateTags] returns exactly when there are no tags, or at most
    50 of them, each with a key of 1 to 128 units and a value of at most 256;
    the number of tags is checked before any tag, and among the tags the
    first that does not fit is the one reported, its key before its value. *)
Theorem validateTags_accepts :
  (∀ tags,
     validateTags tags = None ↔
     tags = None ∨
     ∃ tagEntries, tags = Some tagEntries ∧ length tagEntries ≤ 50 ∧
                   Forall tagFits tagEntries) ∧
  (∀ tagEntries,
     50 < length tagEntries →
     validateTags (Some tagEntries) = Some (ETagEntries (length tagEntries))) ∧
  (∀ good key value rest,
     length (good ++ (key, value) :: rest) ≤ 50 →
     Forall tagFits good →
     ¬ tagFits (key, value) →
     validateTags (Some (good ++ (key, value) :: rest)) =
       Some (if bool_decide (1 ≤ String.length key ≤ 128)
             then ETagValueSize (String.length value)
             else ETagKeySize (String.length key))).
Proof.
  split_and!.
  - intros [tagEntries|]; simpl; [| split; [by left | done]].
    destruct (50 <? length tagEntries) eqn:Hlen.
    + apply Nat.ltb_lt in Hlen. split; [done |].
      intros [?|(l & [= <-] & ? & _)]; [done | lia].
    + apply Nat.ltb_ge in Hlen. rewrite validateTagEntries_None. split.
      * intros Hall. right. eauto.
      * by intros [?|(l & [= <-] & _ & ?)].
  - intros tagEntries Hlen. simpl.
    by rewrite (proj2 (Nat.ltb_lt _ _) Hlen).
  - intros good key value rest Hlen Hgood Hbad. simpl.
    rewrite (proj2 (Nat.ltb_ge _ _) Hlen).
    induction Hgood as [|[k v] good [[Hk1 Hk2] Hv] _ IH]; simpl.
    + unfold tagFits in Hbad. simpl in Hbad.
      destruct (String.length key <? 1) eqn:H1; simpl.
      { apply Nat.ltb_lt in H1. rewrite bool_decide_eq_false_2; [done | lia]. }
      destruct (128 <? String.length key) eqn:H2; simpl.
      { apply Nat.ltb_lt in H2. rewrite bool_decide_eq_false_2; [done | lia]. }
      apply Nat.ltb_ge in H1, H2. rewrite bool_decide_eq_true_2 by lia.
      destruct (256 <? String.length value) eqn:H3; [done |].
      apply Nat.ltb_ge in H3. destruct Hbad. lia.
    + simpl in Hk1, Hk2, Hv.
      rewrite (proj2 (Nat.ltb_ge _ _) Hk1), (proj2 (Nat.ltb_ge _ _) Hk2),
        (proj2 (Nat.ltb_ge _ _) Hv). simpl. apply IH. simpl in Hlen. lia.
Qed.

Lemma validateTags_accepts_witness :
  validateTags (Some [("team", "batch"); ("", "x"); ("env", "prod")])
    = Some (ETagKeySize 0) ∧
  validateTags (Some [("team", "batch"); ("env", "prod")]) = None ∧
  validateTags (Some (replicate 51 ("", ""))) = Some (ETagEntries 51).
Proof.
  destruct validateTags_accepts as (Hiff & Hcount & Hfirst).
  split_and!.
  - apply (Hfirst [("team", "batch")] "" "x" [("env", "prod")]).
    + simpl. lia.
    + apply Forall_singleton. unfold tagFits. simpl. lia.
    + unfold tagFits. simpl. lia.
  - apply Hiff. right. eexists. split; [reflexivity |]. split; [simpl; lia |].
    repeat constructor; simpl; lia.
  - apply (Hcount (replicate 51 ("", ""))). simpl. lia.
Defined.

Section ContainerOverridesProperties.
Context {numbers : Numbers}.

(** X18: [configureContainerOverrides] lists the resource requirements in
    the order GPU, MEMORY, VCPU, skipping a count that is missing or not
    truthy; the list is left out, never rendered empty, when nothing is
    required; an environment object renders as one entry per variable, in
    order, and as an empty list when the object is empty. *)
Theorem configureContainerOverrides_resources (o : BatchContainerOverrides) :
  CO_ResourceRequirements (configureContainerOverrides o) ≠ Some [] ∧
  (CO_ResourceRequirements (configureContainerOverrides o) = None ↔
   (∀ n, gpuCount o = Some n → numberTruthy n = false) ∧
   memory o = None ∧
   (∀ n, vcpus o = Some n → numberTruthy n = false)) ∧
  default [] (CO_ResourceRequirements (configureContainerOverrides o)) =
    (match gpuCount o with
     | Some n =>
         if numberTruthy n
         then [{| Resource_Type := "GPU"; Resource_Value := numberToString n |}]
         else []
     | None => []
     end) ++
    (match memory o with
     | Some m =>
         [{| Resource_Type := "MEMORY";
             Resource_Value := numberToString (toMebibytes m) |}]
     | None => []
     end) ++
    (match vcpus o with
     | Some n =>
         if numberTruthy n
         then [{| Resource_Type := "VCPU"; Resource_Value := numberToString n |}]
         else []
     | None => []
     end) ∧
  (map (λ e, (Env_Name e, Env_Value e))
     <$> CO_Environment (configureContainerOverrides o)) = environment o.
Proof.
  unfold configureContainerOverrides.
  destruct o as [cmd env it mem gpu cpu]. simpl.
  split_and!.
  - destruct gpu as [g|]; [destruct (numberTruthy g) |];
      (destruct mem as [m|]);
      (destruct cpu as [c|]; [destruct (numberTruthy c) |]); done.
  - destruct gpu as [g|]; [destruct (numberTruthy g) eqn:Hg |];
      (destruct mem as [m|]);
      (destruct cpu as [c|]; [destruct (numberTruthy c) eqn:Hc |]); simpl;
      (split;
       [try done; intros _; split_and!; try done; intros ? [= <-]; done
       |intros (H1 & H2 & H3); try done;
        try (specialize (H1 _ eq_refl); congruence);
        try (specialize (H3 _ eq_refl); congruence)]).
  - destruct gpu as [g|]; [destruct (numberTruthy g) |];
      (destruct mem as [m|]);
      (destruct cpu as [c|]; [destruct (numberTruthy c) |]); done.
  - destruct env as [entries|]; simpl; [| done]. f_equal.
    induction entries as [|[k v] entries IH]; simpl; [done | by rewrite IH].
Qed.

End ContainerOverridesProperties.

Lemma configureContainerOverrides_resources_witness :
  CO_ResourceRequirements (configureContainerOverrides memoryAndCpu)
  = Some [{| Resource_Type := "MEMORY"; Resource_Value := "2048" |};
          {| Resource_Type := "VCPU"; Resource_Value := "2" |}] ∧
  CO_ResourceRequirements (configureContainerOverrides noResources) = None ∧
  CO_Environment (configureContainerOverrides noResources) = Some [].
Proof.
  split; [reflexivity |]. split; [| reflexivity].
  apply (configureContainerOverrides_resources noResources).
  split_and!; [| done | done].
  intros n [= <-]. reflexivity.
Defined.

Lemma declared_transitions_propagate_witness :
  unbound threeStates 0 ∧ unbound threeStates 1 ∧
  (∃ h1, makeNext 2 0 1 threeStates = (h1, Ok tt) ∧ propagatesBothWays h1 0 1) ∧
  (∃ h1, _addCatch (host := sampleHost) 2 0 1 anyCatch threeStates = (h1, Ok tt) ∧
         propagatesBothWays h1 0 1) ∧
  (∃ h1, makeDefault 0 1 threeStates = (h1, Ok tt) ∧
         ∀ fuel G h', bindToGraph fuel 0 G h1 = (h', Ok tt) → boundTo h' 1 G).
Proof.
  assert (unbound threeStates 0) as Ha by (eexists; split; reflexivity).
  assert (unbound threeStates 1) as Hb by (eexists; split; reflexivity).
  destruct (declared_transitions_propagate (host := sampleHost) threeStates 0 1 Ha Hb)
    as (Hnext & _ & Hcatch & Hdef).
  split_and!; [done | done | | |].
  - apply (Hnext 2 (newState "A" "Stack/A" noProps)); reflexivity.
  - apply (Hcatch 2 anyCatch). reflexivity.
  - apply (Hdef (newState "A" "Stack/A" noProps)); reflexivity.
Defined.
